(** * Janeway: the log list and the caller-line parser

    A shallow embedding of [LogList] (the class that maps log lines to the
    rows of the output box) and of the parts of [lib/init.js] it talks to:
    [extractLineInfo], [scroll] and [scrollAlong]; then of the escape
    sequences ([esc], [stripEsc], the trace of [print]), of [indent] and
    [getCallerInfo], and of the handlers of [start]: the history and the
    completion of the command line, the mouse wheel, and the lines of a
    command and of its result.

    JavaScript values are modelled as the code uses them:
    - a string is the list of its UTF-16 code units;
    - an array is a list of slots, a slot being either an element or a hole
      (reading a hole gives [undefined]);
    - a [LogLine] is an object: the array holds references, the fields live
      in a store, so that two slots holding the same object see the same
      [index];
    - a call that can throw returns an [outcome]: the state reached, tagged
      with whether the call completed or raised. *)

From Stdlib Require Import ZArith NArith Lia Ascii String Bool.
From stdpp Require Import base tactics numbers option sorting functions list.

Set Default Proof Using "Type".
Local Open Scope Z_scope.

(* ===================================================================== *)
(** ** JavaScript strings                                                 *)
(* ===================================================================== *)

Module JsString.

(** A UTF-16 code unit. *)
Definition char16 := N.

Definition jsstring := list char16.

(** The code units of an ASCII literal. *)
Definition lit (s : string) : jsstring :=
  List.map N_of_ascii (list_ascii_of_string s).

Definition LF : char16 := 10%N.          (* '\n'     *)
Definition CR : char16 := 13%N.          (* '\r'     *)
Definition LS : char16 := 8232%N.        (* U+2028 *)
Definition PS : char16 := 8233%N.        (* U+2029 *)
Definition SPACE : char16 := 32%N.       (* ' '      *)
Definition RETURN_SYMBOL : char16 := 9166%N.  (* U+23CE *)
Definition COLON : char16 := 58%N.       (* ':' *)
Definition LPAREN : char16 := 40%N.      (* '(' *)
Definition RPAREN : char16 := 41%N.      (* ')' *)
Definition SLASH : char16 := 47%N.       (* '/' *)

(** [\d] of a regular expression without the unicode flag. *)
Definition is_digit (c : char16) : bool :=
  ((48 <=? c) && (c <=? 57))%N.

(** The characters [.] does not match: the line terminators. *)
Definition is_line_terminator (c : char16) : bool :=
  ((c =? LF) || (c =? CR) || (c =? LS) || (c =? PS))%N.

(** [str.replace(/\n/g, rep)]: every line feed is replaced by [rep]. *)
Fixpoint replace_all_LF (rep s : jsstring) : jsstring :=
  match s with
  | [] => []
  | c :: s' =>
      if (c =? LF)%N then rep ++ replace_all_LF rep s'
      else c :: replace_all_LF rep s'
  end.

(** [s.startsWith(p)], returning what follows the prefix. *)
Fixpoint strip_prefix (p s : jsstring) : option jsstring :=
  match p, s with
  | [], _ => Some s
  | _ :: _, [] => None
  | a :: p', b :: s' => if (a =? b)%N then strip_prefix p' s' else None
  end.

(** [s.indexOf(p)] as a number: [-1] when [p] does not occur. *)
Fixpoint indexOf_from (p s : jsstring) (i : Z) : Z :=
  match strip_prefix p s with
  | Some _ => i
  | None =>
      match s with
      | [] => -1
      | _ :: s' => indexOf_from p s' (i + 1)
      end
  end.

Definition indexOf (p s : jsstring) : Z := indexOf_from p s 0.

(** [s.slice(start, s.length)]. *)
Definition slice_from (start : Z) (s : jsstring) : jsstring :=
  let len := Z.of_nat (length s) in
  let from := if start <? 0 then Z.max (len + start) 0 else Z.min start len in
  drop (Z.to_nat from) s.

(** [s.split('/').pop()]: what follows the last slash. *)
Fixpoint last_segment_from (cur s : jsstring) : jsstring :=
  match s with
  | [] => cur
  | c :: s' =>
      if (c =? SLASH)%N then last_segment_from s' s'
      else last_segment_from cur s'
  end.

Definition last_segment (s : jsstring) : jsstring := last_segment_from s s.

(** How many times the code unit [c] occurs in [s]. *)
Fixpoint occurrences (c : char16) (s : jsstring) : nat :=
  match s with
  | [] => 0
  | d :: s' => if (d =? c)%N then S (occurrences c s') else occurrences c s'
  end.

End JsString.
Import JsString.

(* ===================================================================== *)
(** ** JavaScript arrays                                                  *)
(* ===================================================================== *)

Module JsArray.
Section Ops.
Context {A : Type}.

(** [arr[i]]: [undefined] for a hole, a negative [i] or an [i] past the
    end. *)
Definition get (arr : list (option A)) (i : Z) : option A :=
  if i <? 0 then None
  else match arr !! Z.to_nat i with
       | Some (Some x) => Some x
       | _ => None
       end.

(** [arr.push(x)]: the new array and the new length. *)
Definition push (arr : list (option A)) (x : A) : list (option A) * Z :=
  (arr ++ [Some x], Z.of_nat (length arr) + 1).

(** The position [splice] starts at: a negative [start] counts from the
    end, and the result is clamped to [0 .. length]. *)
Definition relative_start (len start : Z) : nat :=
  Z.to_nat (if start <? 0 then Z.max (len + start) 0 else Z.min start len).

(** [arr.splice(start, 0, x)] *)
Definition splice_insert (start : Z) (x : A) (arr : list (option A))
  : list (option A) :=
  let k := relative_start (Z.of_nat (length arr)) start in
  take k arr ++ Some x :: drop k arr.

(** [arr.splice(start, 1)]: nothing is removed when the start is the
    end of the array. *)
Definition splice_delete (start : Z) (arr : list (option A))
  : list (option A) :=
  delete (relative_start (Z.of_nat (length arr)) start) arr.

(** [arr.length = n], for [n >= 0]: truncates, or extends with holes. *)
Definition set_length (n : Z) (arr : list (option A)) : list (option A) :=
  let k := Z.to_nat n in
  take k arr ++ replicate (k - length arr)%nat None.

(** Protoblast's [Bound.Array.insert(arr, index, x)]:
<<
    if (this.length < (index-1)) { this.length = index-1; }
    this.splice(index, 0, x);
>>  *)
Definition insert (arr : list (option A)) (index : Z) (x : A)
  : list (option A) :=
  let arr1 :=
    if Z.of_nat (length arr) <? index - 1
    then set_length (index - 1) arr else arr in
  splice_insert index x arr1.

End Ops.

(** Protoblast's [Bound.Array.flashsort] on an array of numbers: sorts
    in ascending numeric order. *)
Definition flashsort (indices : list Z) : list Z := merge_sort Z.le indices.

End JsArray.

(* ===================================================================== *)
(** ** Objects, the output box, the state                                 *)
(* ===================================================================== *)

(** A reference to a [LogLine] object. *)
Abbreviation ref := nat (only parsing).

Module LogLine.
(** The fields of a [LogLine] that [LogList] reads or writes; [text] is
    what [toString()] returns. *)
Record t := mk { index : Z; selected : bool; text : jsstring }.

Definition set_index (i : Z) (l : t) : t :=
  {| index := i; selected := selected l; text := text l |}.

Definition set_selected (b : bool) (l : t) : t :=
  {| index := index l; selected := b; text := text l |}.
End LogLine.

(** The store of [LogLine] objects. *)
Abbreviation heap := (ref -> LogLine.t) (only parsing).

(** The methods of the [blessed] box that the code calls.  The widget is
    an external collaborator: the code is modelled over any
    implementation of it. *)
Class Box (B : Type) := {
  box_setLine : Z -> jsstring -> B -> B;
  box_insertLine : Z -> jsstring -> B -> B;
  box_deleteLine : Z -> B -> B;
  box_setContent : jsstring -> B -> B;
  box_getScrollPerc : B -> Z;
  box_scroll : Z -> B -> B
}.

(** A call either completes or raises (a [TypeError] on reading a
    property of [undefined]); in both cases the mutations made so far
    stay. *)
Inductive outcome (S : Type) : Type :=
  | Done (s : S)
  | Raised (s : S).
Arguments Done {S} s.
Arguments Raised {S} s.

Definition outcome_map {S T : Type} (f : S -> T) (o : outcome S) : outcome T :=
  match o with
  | Done s => Done (f s)
  | Raised s => Raised (f s)
  end.

(** What follows a call in the caller: skipped when the call raised. *)
Definition and_then {S : Type} (o : outcome S) (k : S -> S) : outcome S :=
  match o with
  | Done s => Done (k s)
  | Raised s => Raised s
  end.

(** The [LogList] instance, the [Janeway] flags it reads, and the objects
    it points to. *)
Record State (B : Type) : Type := mkState {
  objects : heap;                    (* the LogLine objects *)
  this_list : list (option ref);     (* this.list *)
  list_selectedLine : option ref;    (* this.list.selectedLine: a property
                                        of the array object *)
  this_selectedLine : option ref;    (* this.selectedLine *)
  this_box : B;                      (* this.box *)
  render_calls : nat;                (* calls of the throttled this.render *)
  immediates : list ref;             (* callbacks queued by setImmediate,
                                        each with the line it captured *)
  scrollDown : bool;                 (* janeway.scrollDown *)
  scrolledManually : bool            (* janeway.scrolledManually *)
}.
Arguments mkState {B}.
Arguments objects {B} _.
Arguments this_list {B} _.
Arguments list_selectedLine {B} _.
Arguments this_selectedLine {B} _.
Arguments this_box {B} _.
Arguments render_calls {B} _.
Arguments immediates {B} _.
Arguments scrollDown {B} _.
Arguments scrolledManually {B} _.

Section Updates.
Context {B : Type}.

Definition set_objects (h : heap) (s : State B) : State B :=
  mkState h (this_list s) (list_selectedLine s) (this_selectedLine s)
          (this_box s) (render_calls s) (immediates s)
          (scrollDown s) (scrolledManually s).

Definition set_list (l : list (option ref)) (s : State B) : State B :=
  mkState (objects s) l (list_selectedLine s) (this_selectedLine s)
          (this_box s) (render_calls s) (immediates s)
          (scrollDown s) (scrolledManually s).

Definition set_box (b : B) (s : State B) : State B :=
  mkState (objects s) (this_list s) (list_selectedLine s)
          (this_selectedLine s) b (render_calls s) (immediates s)
          (scrollDown s) (scrolledManually s).

Definition set_render_calls (n : nat) (s : State B) : State B :=
  mkState (objects s) (this_list s) (list_selectedLine s)
          (this_selectedLine s) (this_box s) n (immediates s)
          (scrollDown s) (scrolledManually s).

Definition set_immediates (q : list ref) (s : State B) : State B :=
  mkState (objects s) (this_list s) (list_selectedLine s)
          (this_selectedLine s) (this_box s) (render_calls s) q
          (scrollDown s) (scrolledManually s).

(** [new LogList(janeway, screen, box)] on a [Janeway] instance with its
    default flags ([scrollDown] true, [scrolledManually] false). *)
Definition new_LogList (h : heap) (box : B) : State B :=
  mkState h [] None None box 0%nat [] true false.

End Updates.

(* ===================================================================== *)
(** ** LogList and the Janeway methods it calls                           *)
(* ===================================================================== *)

(** [for (i = start; i < list.length; i++) { body(list[i], i) }], where
    the body reads or writes a property of [list[i]] first and so raises
    on [undefined]; the loop does not change the array. *)
Fixpoint for_slots {S : Type} (body : ref -> Z -> S -> S) (i : Z)
    (slots : list (option ref)) (s : S) : outcome S :=
  match slots with
  | [] => Done s
  | None :: _ => Raised s
  | Some r :: rest => for_slots body (i + 1) rest (body r i s)
  end.

Definition for_from {S : Type} (start : Z) (arr : list (option ref))
    (body : ref -> Z -> S -> S) (s : S) : outcome S :=
  if start <? 0 then Raised s        (* arr[start] is undefined *)
  else for_slots body start (drop (Z.to_nat start) arr) s.

(** [sanitize(str)] on the string [str.toString()]. *)
Definition sanitize (str : jsstring) : jsstring :=
  replace_all_LF [RETURN_SYMBOL; SPACE] str.

(** [line.toString()] *)
Definition toString (h : heap) (line : ref) : jsstring :=
  LogLine.text (h line).

(** Modelled from the spec: [LogLine#unselect], of which section 4.5 says
    that it clears the [selected] flag of the line. *)
Definition unselect (line : ref) (h : heap) : heap :=
  <[line := LogLine.set_selected false (h line)]> h.

Section LogList.
Context {B : Type} `{Box B}.

(** [LogLine#getAllIndices], defined with [LogLine]: the absolute
    indices of a line and of its children, read from the objects. *)
Variable getAllIndices : heap -> ref -> list Z.

Definition _setLine (index : Z) (str : ref) (s : State B) : State B :=
  set_box (box_setLine index (sanitize (toString (objects s) str))
                       (this_box s)) s.

Definition _insertLine (index : Z) (str : ref) (s : State B) : State B :=
  set_box (box_insertLine index (sanitize (toString (objects s) str))
                          (this_box s)) s.

(** The throttled [render]: the call is counted, the redraw itself
    happens later. *)
Definition render (s : State B) : State B :=
  set_render_calls (S (render_calls s)) s.

(** [Janeway#scroll(direction)]; [None] is a missing argument. *)
Definition scroll (direction : option Z) (s : State B) : State B :=
  let direction := match direction with Some d => d | None => 1 end in
  let before := box_getScrollPerc (this_box s) in
  let s1 := set_box (box_scroll direction (this_box s)) s in
  let after := box_getScrollPerc (this_box s1) in
  if (before =? 0) && (after =? 0)
  then set_box (box_scroll (0 - direction) (this_box s1)) s1
  else s1.

(** [Janeway#scrollAlong(or_render)]; [None] is a missing argument. *)
Definition scrollAlong (or_render : option bool) (s : State B) : State B :=
  if scrollDown s then
    let s1 := if negb (scrolledManually s) then scroll (Some 1) s else s in
    render s1
  else
    match or_render with
    | Some false => s
    | _ => render s
    end.

(** The callback [deferAndRenderLine] of [pushLine], for its [line]. *)
Definition deferAndRenderLine (line : ref) (s : State B) : State B :=
  let s1 := _setLine (LogLine.index (objects s line)) line s in
  scrollAlong None s1.

Definition pushLine (line : ref) (defer : bool) (s : State B) : State B :=
  let '(l, length) := JsArray.push (this_list s) line in
  let s1 := set_list l s in
  let s2 :=
    set_objects (<[line := LogLine.set_index (length - 1) (objects s1 line)]>
                   (objects s1)) s1 in
  if negb defer then
    let s3 := _setLine (LogLine.index (objects s2 line)) line s2 in
    if scrollDown s3 then scrollAlong (Some false) s3 else s3
  else
    set_immediates (immediates s2 ++ [line]) s2.

(** The event loop runs the oldest callback queued by [setImmediate]. *)
Definition runImmediate (s : State B) : State B :=
  match immediates s with
  | [] => s
  | line :: q => deferAndRenderLine line (set_immediates q s)
  end.

Definition insertAfter (line : ref) (afterIndex : Z) (s : State B)
  : outcome (State B) :=
  let index := afterIndex + 1 in
  let s1 := set_list (JsArray.insert (this_list s) index line) s in
  let s2 :=
    set_objects (<[line := LogLine.set_index index (objects s1 line)]>
                   (objects s1)) s1 in
  let shifted :=
    for_from (index + 1) (this_list s2)
      (fun r _ h => <[r := LogLine.set_index (LogLine.index (h r) + 1) (h r)]> h)
      (objects s2) in
  and_then (outcome_map (fun h => set_objects h s2) shifted)
           (_insertLine index line).

(** [reIndex(start)]; [None] is an argument that is not a number. *)
Definition reIndex (start : option Z) (s : State B) : outcome (State B) :=
  let start := match start with Some n => n | None => 0 end in
  outcome_map (fun h => set_objects h s)
    (for_from start (this_list s)
       (fun r i h => <[r := LogLine.set_index i (h r)]> h)
       (objects s)).

(** One turn of the loop of [clearLines]. *)
Definition clearLine (s : State B) (index : Z) : State B :=
  let s1 := set_box (box_deleteLine index (this_box s)) s in
  set_list (JsArray.splice_delete index (this_list s1)) s1.

Definition clearLines (indices : list Z) (s : State B) : outcome (State B) :=
  let indices := JsArray.flashsort indices in
  let min := head indices in
  let indices := reverse indices in
  let s1 := foldl clearLine s indices in
  reIndex min s1.

Definition removeLine (indexToRemove : Z) (s : State B) : outcome (State B) :=
  match JsArray.get (this_list s) indexToRemove with
  | Some line =>
      let indices := getAllIndices (objects s) line in
      and_then (clearLines indices s) render
  | None => Done s
  end.

Definition clearScreen (s : State B) : State B :=
  let s1 :=
    match list_selectedLine s with
    | Some line => set_objects (unselect line (objects s)) s
    | None => s
    end in
  let s2 := set_list [] s1 in
  let s3 := set_box (box_setContent [] (this_box s2)) s2 in
  render s3.

End LogList.

(* ===================================================================== *)
(** ** A reference box                                                    *)
(* ===================================================================== *)

(** A plain implementation of the box, used to run the code on concrete
    inputs: the rows of text and a viewport of [height] rows whose first
    row is [base]. Rows are padded with empty ones up to the row written;
    scrolling is clamped to the content. *)
Module TextBox.
Record t := mk { rows : list jsstring; base : Z; height : Z }.

Definition pad (n : nat) (l : list jsstring) : list jsstring :=
  l ++ replicate (n - length l)%nat [].

Definition setLine (i : Z) (str : jsstring) (b : t) : t :=
  let n := Z.to_nat i in
  let padded := pad n (rows b) in
  mk (if decide (n < length padded)%nat then <[n := str]> padded
      else padded ++ [str])
     (base b) (height b).

Definition insertLine (i : Z) (str : jsstring) (b : t) : t :=
  let n := Z.to_nat i in
  let padded := pad n (rows b) in
  mk (take n padded ++ str :: drop n padded) (base b) (height b).

Definition deleteLine (i : Z) (b : t) : t :=
  mk (if i <? 0 then rows b else delete (Z.to_nat i) (rows b))
     (base b) (height b).

Definition setContent (str : jsstring) (b : t) : t :=
  mk (match str with [] => [] | _ => [str] end) 0 (height b).

(** The rows that lie below a viewport placed at the top. *)
Definition overflow (b : t) : Z :=
  Z.max 0 (Z.of_nat (length (rows b)) - height b).

Definition getScrollPerc (b : t) : Z :=
  if overflow b =? 0 then 0 else base b * 100 / overflow b.

Definition scroll (d : Z) (b : t) : t :=
  mk (rows b) (Z.max 0 (Z.min (overflow b) (base b + d))) (height b).
End TextBox.

#[export] Instance TextBox_Box : Box TextBox.t := {
  box_setLine := TextBox.setLine;
  box_insertLine := TextBox.insertLine;
  box_deleteLine := TextBox.deleteLine;
  box_setContent := TextBox.setContent;
  box_getScrollPerc := TextBox.getScrollPerc;
  box_scroll := TextBox.scroll
}.

(* ===================================================================== *)
(** ** extractLineInfo                                                    *)
(* ===================================================================== *)

Module LineInfo.
(** The object [extractLineInfo] returns. *)
Record t := mk {
  name : jsstring;
  path : jsstring;
  file : jsstring;
  line : jsstring;
  char : jsstring
}.
End LineInfo.

Module Regex.

(** [(\d* )] as the matcher runs it: the longest run of digits.  What
    follows it in both patterns is a character that is not a digit (or
    nothing), so giving digits back never helps. *)
Fixpoint digits (s : jsstring) : jsstring * jsstring :=
  match s with
  | c :: s' =>
      if is_digit c then let '(d, rest) := digits s' in (c :: d, rest)
      else ([], s)
  | [] => ([], [])
  end.

(** [(.*?)] followed by the rest [k] of the pattern: the shortest run of
    characters other than line terminators after which [k] matches.
    [acc] is the run taken so far, last character first. *)
Fixpoint lazy_dots {R : Type} (k : jsstring -> option R)
    (acc s : jsstring) : option (jsstring * R) :=
  match k s with
  | Some r => Some (rev acc, r)
  | None =>
      match s with
      | [] => None
      | c :: s' =>
          if is_line_terminator c then None
          else lazy_dots k (c :: acc) s'
      end
  end.

(** A pattern without [^]: tried at every position, leftmost first. *)
Fixpoint search {R : Type} (m : jsstring -> option R) (s : jsstring)
    : option R :=
  match m s with
  | Some r => Some r
  | None =>
      match s with
      | [] => None
      | _ :: s' => search m s'
      end
  end.

(** [:(\d* ):(\d* )] at the head of [s]: the two groups and what
    follows. *)
Definition line_and_char (s : jsstring)
    : option (jsstring * jsstring * jsstring) :=
  match strip_prefix [COLON] s with
  | Some s1 =>
      let '(l, s2) := digits s1 in
      match strip_prefix [COLON] s2 with
      | Some s3 => let '(c, s4) := digits s3 in Some (l, c, s4)
      | None => None
      end
  | None => None
  end.

(** [/^ (.*?) \((.*?):(\d* ):(\d* )\)/.exec(clean)]: groups 1 to 4. *)
Definition strict (clean : jsstring)
    : option (jsstring * jsstring * jsstring * jsstring) :=
  match strip_prefix [SPACE] clean with
  | Some s0 =>
      let closing s :=
        match line_and_char s with
        | Some (l, c, s') =>
            match strip_prefix [RPAREN] s' with
            | Some _ => Some (l, c)
            | None => None
            end
        | None => None
        end in
      let path_part s :=
        match strip_prefix [SPACE; LPAREN] s with
        | Some s' => lazy_dots closing [] s'
        | None => None
        end in
      match lazy_dots path_part [] s0 with
      | Some (n, (p, (l, c))) => Some (n, p, l, c)
      | None => None
      end
  | None => None
  end.

(** [/(.*?):(\d* ):(\d* )/.exec(clean)]: groups 1 to 3. *)
Definition loose (clean : jsstring)
    : option (jsstring * jsstring * jsstring) :=
  match search (lazy_dots line_and_char []) clean with
  | Some (p, (l, c, _)) => Some (p, l, c)
  | None => None
  end.

End Regex.

Definition unknown : jsstring := lit "unknown".
Definition anonymous : jsstring := lit "anonymous".

Definition extractLineInfo (caller_line : jsstring) : LineInfo.t :=
  let index := indexOf (lit "at ") caller_line in
  let clean := slice_from (index + 2) caller_line in
  let result :=
    match Regex.strict clean with
    | Some r => r
    | None =>
        let temp :=
          match Regex.loose clean with
          | Some t => t
          | None => (unknown, unknown, unknown)
          end in
        let '(t1, t2, t3) := temp in
        (anonymous, t1, t2, t3)
    end in
  let '(r1, r2, r3, r4) := result in
  LineInfo.mk r1 r2 (last_segment r2) r3 r4.

(* ===================================================================== *)
(** ** The index invariant and the reachable states                       *)
(* ===================================================================== *)

Section Reachable.
Context {B : Type} `{Box B}.
Variable getAllIndices : heap -> ref -> list Z.

(** [list[i].index == i] for every [i] in [[0, length)]. *)
Definition index_inv (s : State B) : Prop :=
  forall i : nat, (i < length (this_list s))%nat ->
    exists r, this_list s !! i = Some (Some r)
              /\ LogLine.index (objects s r) = Z.of_nat i.

(** The [index] read through every slot of the list, in order. *)
Definition indices_of (s : State B) : list (option Z) :=
  (fun slot : option ref =>
     match slot with
     | Some r => Some (LogLine.index (objects s r))
     | None => None
     end) <$> this_list s.

(** Modelled from the spec: what the code outside [LogList] does to the
    state between two calls, that is the methods of [LogLine], which are
    not in the source, and the handlers.  Section 5 says that the line
    collection, with its indices, is mutated only through the documented
    entry points and that no other component writes it.  Everything else
    may change: the text and the selection of a line, the properties of
    the array other than its entries, the box and the flags. *)
Definition environment (s s' : State B) : Prop :=
  this_list s' = this_list s
  /\ forall r, LogLine.index (objects s' r) = LogLine.index (objects s r).

(** The states of a [LogList]: a new one, and what the mutations make
    of it when they complete.  A line given to [pushLine] or
    [insertAfter] is a line that is not in the list: every caller
    creates the line it adds. *)
Inductive reachable : State B -> Prop :=
  | reach_new h box :
      reachable (new_LogList h box)
  | reach_environment s s' :
      reachable s -> environment s s' -> reachable s'
  | reach_pushLine s line defer :
      reachable s -> Some line ∉ this_list s ->
      reachable (pushLine line defer s)
  | reach_runImmediate s :
      reachable s -> reachable (runImmediate s)
  | reach_insertAfter s line afterIndex s' :
      reachable s -> Some line ∉ this_list s ->
      0 <= afterIndex < Z.of_nat (length (this_list s)) ->
      insertAfter line afterIndex s = Done s' ->
      reachable s'
  | reach_removeLine s indexToRemove s' :
      reachable s ->
      removeLine getAllIndices indexToRemove s = Done s' ->
      reachable s'
  | reach_clearLines s indices s' :
      reachable s -> clearLines indices s = Done s' -> reachable s'
  | reach_clearScreen s :
      reachable s -> reachable (clearScreen s)
  | reach_reIndex s start s' :
      reachable s -> reIndex start s = Done s' -> reachable s'.

End Reachable.

(** The fields that belong neither to the lines nor to the box. *)
Definition same_bookkeeping {B : Type} (s s' : State B) : Prop :=
  list_selectedLine s' = list_selectedLine s
  /\ this_selectedLine s' = this_selectedLine s
  /\ render_calls s' = render_calls s
  /\ immediates s' = immediates s
  /\ scrollDown s' = scrollDown s
  /\ scrolledManually s' = scrolledManually s.

(** The entries of [l] whose position, counted from [i], is not in
    [removed]. *)
Fixpoint survivors_from {A : Type} (i : Z) (removed : list Z) (l : list A)
    : list A :=
  match l with
  | [] => []
  | x :: l' =>
      if decide (i ∈ removed) then survivors_from (i + 1) removed l'
      else x :: survivors_from (i + 1) removed l'
  end.

Definition survivors {A : Type} (removed : list Z) (l : list A) : list A :=
  survivors_from 0 removed l.

(* ===================================================================== *)
(** ** Concrete runs                                                      *)
(* ===================================================================== *)

Module Examples.

(** Three lines [A], [B], [C] (objects 0, 1, 2) and two more objects. *)
Definition objs : heap := fun r =>
  match r with
  | 0%nat => LogLine.mk 0 false (lit "A")
  | 1%nat => LogLine.mk 0 false (lit "B")
  | 2%nat => LogLine.mk 0 false (lit "C")
  | 3%nat => LogLine.mk 0 false [120; LF; 121]%N
  | _ => LogLine.mk 0 false []
  end.

Definition empty_box : TextBox.t := TextBox.mk [] 0 2.

Definition s0 : State TextBox.t := new_LogList objs empty_box.

(** The buffer [[A, B, C]]. *)
Definition sABC : State TextBox.t :=
  pushLine 2%nat false (pushLine 1%nat false (pushLine 0%nat false s0)).

(** The buffer [[A]]. *)
Definition sA : State TextBox.t := pushLine 0%nat false s0.

(** A traversal for a list in which [B] is the only child of [A]. *)
Definition children_of_A : heap -> ref -> list Z := fun h r =>
  match r with
  | 0%nat => [LogLine.index (h 0%nat); LogLine.index (h 1%nat)]
  | _ => [LogLine.index (h r)]
  end.

(** The buffer [[A]] after a click has selected [A]: the line has its
    flag set and the [LogList] points to it. *)
Definition sA_selected : State TextBox.t :=
  mkState (<[0%nat := LogLine.set_selected true (objects sA 0%nat)]> (objects sA))
          (this_list sA) (list_selectedLine sA) (Some 0%nat)
          (this_box sA) (render_calls sA) (immediates sA)
          (scrollDown sA) (scrolledManually sA).

(** Five rows in a viewport of two, scrolled to the last row. *)
Definition at_bottom : State TextBox.t :=
  new_LogList objs
    (TextBox.mk [lit "1"; lit "2"; lit "3"; lit "4"; lit "5"] 3 2).

(** The same rows, with the viewport on the first row. *)
Definition at_top : State TextBox.t :=
  new_LogList objs
    (TextBox.mk [lit "1"; lit "2"; lit "3"; lit "4"; lit "5"] 0 2).

End Examples.

(* ===================================================================== *)
(** ** Escape sequences: esc and stripEsc                                 *)
(* ===================================================================== *)

Module Escapes.

Definition ESC : char16 := 27%N.           (* '\u001b' *)
Definition LBRACKET : char16 := 91%N.      (* '[' *)
Definition SEMICOLON : char16 := 59%N.     (* ';' *)
Definition LETTER_m : char16 := 109%N.     (* 'm' *)
Definition BACKSLASH : char16 := 92%N.     (* '\\' *)
Definition LETTER_u : char16 := 117%N.     (* 'u' *)
Definition LETTER_b : char16 := 98%N.      (* 'b' *)
Definition LETTER_B : char16 := 66%N.      (* 'B' *)
Definition DIGIT_0 : char16 := 48%N.       (* '0' *)
Definition DIGIT_1 : char16 := 49%N.       (* '1' *)
Definition DOT : char16 := 46%N.           (* '.' *)

(** [(\d\;?)+m] at the head of [s]: what follows the match.  [seen] tells
    that one group has been matched.  A group takes the semicolon when
    there is one, and the groups go on as long as a digit follows: no
    shorter choice can match, since what must follow is an [m]. *)
Fixpoint sgr_params (seen : bool) (s : jsstring) : option jsstring :=
  match s with
  | [] => None
  | c :: s' =>
      if is_digit c then
        match s' with
        | c' :: s'' =>
            if (c' =? SEMICOLON)%N then sgr_params true s''
            else sgr_params true s'
        | [] => None
        end
      else if seen && (c =? LETTER_m)%N then Some s'
      else None
  end.

(** [/\u001b\[(\d\;?)+m/] at the head of [s]. *)
Definition sequence_at (s : jsstring) : option jsstring :=
  match strip_prefix [ESC; LBRACKET] s with
  | Some t => sgr_params false t
  | None => None
  end.

(** [str.replace(/\u001b\[(\d\;?)+m/g, '')]: the text is scanned from the
    left, a match is dropped and the scan goes on after it.  [skip] is
    the number of code units of the current match still to drop. *)
Fixpoint remove_sequences (skip : nat) (s : jsstring) : jsstring :=
  match s with
  | [] => []
  | c :: s' =>
      match skip with
      | S k => remove_sequences k s'
      | O =>
          match sequence_at s with
          | Some rest => remove_sequences (length s' - length rest) s'
          | None => c :: remove_sequences 0 s'
          end
      end
  end.

(** [/\\u001(?:b|B)\[(\d\;?)+m/] at the head of [s]: the six characters
    that spell the escape in source text, then the same parameters. *)
Definition literal_at (s : jsstring) : option jsstring :=
  match strip_prefix [BACKSLASH; LETTER_u; DIGIT_0; DIGIT_0; DIGIT_1] s with
  | Some (c :: t) =>
      if ((c =? LETTER_b) || (c =? LETTER_B))%N then
        match strip_prefix [LBRACKET] t with
        | Some t' => sgr_params false t'
        | None => None
        end
      else None
  | _ => None
  end.

(** [result.replace(/\\u001(?:b|B)\[(\d\;?)+m/, '')]: without the [g]
    flag only the leftmost match is dropped. *)
Fixpoint remove_first_literal (s : jsstring) : jsstring :=
  match literal_at s with
  | Some rest => rest
  | None =>
      match s with
      | [] => []
      | c :: s' => c :: remove_first_literal s'
      end
  end.

(** A text that [(\d\;?)+] matches wholly: digits, each followed by at
    most one semicolon. *)
Fixpoint is_sgr_code (s : jsstring) : bool :=
  match s with
  | [] => false
  | c :: s' =>
      is_digit c
      && match s' with
         | [] => true
         | c' :: s'' =>
             if (c' =? SEMICOLON)%N
             then match s'' with [] => true | _ => is_sgr_code s'' end
             else is_sgr_code s'
         end
  end.

End Escapes.
Import Escapes.

(** [esc(code, str, endcode)]; [code] and [endcode] are given as the text
    that ['' + code] makes of them, [None] is a missing argument. *)
Definition esc (code : jsstring) (str : option jsstring)
    (endcode : option jsstring) : jsstring :=
  let result := [ESC; LBRACKET] ++ code ++ [LETTER_m] in
  match str with
  | None => result
  | Some str =>
      let endcode := match endcode with Some e => e | None => [DIGIT_0] end in
      result ++ str ++ ([ESC; LBRACKET] ++ endcode ++ [LETTER_m])
  end.

(** [stripEsc(str, literal)] *)
Definition stripEsc (str : jsstring) (literal : bool) : jsstring :=
  let result := remove_sequences 0 str in
  if literal then remove_first_literal result else result.

(** The [trace] that [print] puts before a message when there is no
    [LogList]: [esc(90, '[') + type + esc(90, '] ') + esc(90, '[')
    + esc(1, info.file + ':' + info.line) + esc(90, '] ')]. *)
Definition print_trace (type : jsstring) (info : LineInfo.t) : jsstring :=
  esc (lit "90") (Some (lit "[")) None ++ type
  ++ esc (lit "90") (Some (lit "] ")) None
  ++ esc (lit "90") (Some (lit "[")) None
  ++ esc (lit "1") (Some (LineInfo.file info ++ lit ":" ++ LineInfo.line info))
         None
  ++ esc (lit "90") (Some (lit "] ")) None.

(* ===================================================================== *)
(** ** split and join                                                     *)
(* ===================================================================== *)

(** [s.split(sep)] for a separator of one character: never empty. *)
Fixpoint split_on (sep : char16) (s : jsstring) : list jsstring :=
  match s with
  | [] => [[]]
  | c :: s' =>
      if (c =? sep)%N then [] :: split_on sep s'
      else match split_on sep s' with
           | piece :: pieces => (c :: piece) :: pieces
           | [] => [[c]]
           end
  end.

(** [pieces.join(sep)] *)
Fixpoint join_with (sep : char16) (pieces : list jsstring) : jsstring :=
  match pieces with
  | [] => []
  | [piece] => piece
  | piece :: rest => piece ++ sep :: join_with sep rest
  end.

(* ===================================================================== *)
(** ** indent                                                             *)
(* ===================================================================== *)

Section Indent.
(** [indent] calls [multiply], which the file does not define: it is a
    parameter, and [None] stands for a call that raises. *)
Variable multiply : jsstring -> nat -> option jsstring.
(** [consoleWidth]: the columns of the terminal. *)
Variable consoleWidth : nat.

(** One turn of the loop of [indent]; [first] is
    [i == 0 && skipFirstLine].  [substring] clamps its bounds as [take]
    and [drop] do. *)
Definition indent_line (visibleCount : nat) (difference : Z) (first : bool)
    (line : jsstring) : option jsstring :=
  let prepared :=
    if first then Some (line, Z.of_nat consoleWidth + difference)
    else
      match multiply [SPACE] visibleCount with
      | Some pad => Some (pad ++ line, Z.of_nat consoleWidth)
      | None => None
      end in
  match prepared with
  | None => None
  | Some (line, maxWidth) =>
      if (consoleWidth <? length (stripEsc line false))%nat then
        match multiply [SPACE] visibleCount with
        | Some pad =>
            Some (take (Z.to_nat maxWidth) line
                  ++ LF :: pad ++ drop (Z.to_nat maxWidth) line)
        | None => None
        end
      else Some line
  end.

(** The loop, from line [i] on. *)
Fixpoint indent_lines (visibleCount : nat) (difference : Z)
    (skipFirstLine : bool) (i : nat) (lines : list jsstring)
    : option (list jsstring) :=
  match lines with
  | [] => Some []
  | line :: rest =>
      match indent_line visibleCount difference
                        ((i =? 0)%nat && skipFirstLine) line with
      | None => None
      | Some l =>
          match indent_lines visibleCount difference skipFirstLine (S i) rest
          with
          | Some ls => Some (l :: ls)
          | None => None
          end
      end
  end.

(** [indent(text, skipText, skipFirstLine)]; [None] as third argument is
    a missing one, [None] as result is a call that raised. *)
Definition indent (text skipText : jsstring) (skipFirstLine : option bool)
    : option jsstring :=
  let lines := split_on LF text in
  let visibleCount := length (stripEsc skipText false) in
  let hiddenCount := length skipText in
  let difference := Z.of_nat hiddenCount - Z.of_nat visibleCount in
  let skipFirstLine :=
    match skipFirstLine with Some b => b | None => true end in
  match indent_lines visibleCount difference skipFirstLine 0 lines with
  | Some ls => Some (join_with LF ls)
  | None => None
  end.

End Indent.

(* ===================================================================== *)
(** ** getCallerInfo on the text of a stack                               *)
(* ===================================================================== *)

Module CallerInfo.
(** What [getCallerInfo] reads off the stack: the fields of the frame of
    the caller, the text, and the frames of the lines after the first. *)
Record t := mk {
  info : LineInfo.t;
  text : jsstring;
  stack : list LineInfo.t
}.
End CallerInfo.



(* ===================================================================== *)
(** ** The command line: history and completion                           *)
(* ===================================================================== *)

Module Cli.
(** [cli_history], [cli_history_index] and [cli_stash] of the [Janeway]
    instance, and the value of the text area. *)
Record t := mk {
  history : list jsstring;
  history_index : Z;
  stash : jsstring;
  value : jsstring
}.

(** [new Janeway()] with an empty text area. *)
Definition initial : t := mk [] (-1) [] [].

Definition set_value (v : jsstring) (c : t) : t :=
  mk (history c) (history_index c) (stash c) v.
End Cli.

(** A string in a condition: the empty one is falsy. *)
Definition truthy (s : jsstring) : bool :=
  match s with [] => false | _ => true end.

Section Keypress.
(** [String.prototype.trim], of the engine. *)
Variable trim : jsstring -> jsstring.

(** [onKeypress] for the keys [up] and [down] while no completion list
    is open: the arrows go through the history. *)
Definition onKeypress_arrow (up : bool) (c : Cli.t) : Cli.t :=
  let cmd := Cli.value c in
  let dir := if up then 1 else -1 in
  let stash :=
    if (Cli.history_index c =? -1) && truthy cmd then cmd else Cli.stash c in
  let id := Cli.history_index c + dir in
  if id =? -1 then Cli.mk (Cli.history c) (-1) stash stash
  else
    match (if id <? 0 then None else Cli.history c !! Z.to_nat id) with
    | Some temp => Cli.mk (Cli.history c) id stash temp
    | None => Cli.mk (Cli.history c) (Cli.history_index c) stash (Cli.value c)
    end.

(** [onKeypress] for [enter] while no completion list is open, up to the
    point where the command is run: the index and the stash are reset,
    an empty command stops there, another one leaves the text area and
    goes to the front of the history unless it is the last command. *)
Definition onKeypress_enter (c : Cli.t) : Cli.t :=
  let cmd := trim (Cli.value c) in
  if truthy cmd then
    Cli.mk (if bool_decide (head (Cli.history c) = Some cmd)
            then Cli.history c else cmd :: Cli.history c)
           (-1) [] []
  else Cli.mk (Cli.history c) (-1) [] (Cli.value c).

(** The states of the command line: typing changes the value, the
    arrows and [enter] do the rest. *)
Inductive cli_reachable : Cli.t -> Prop :=
  | cli_new : cli_reachable Cli.initial
  | cli_typed c v : cli_reachable c -> cli_reachable (Cli.set_value v c)
  | cli_arrow c up : cli_reachable c -> cli_reachable (onKeypress_arrow up c)
  | cli_enter c : cli_reachable c -> cli_reachable (onKeypress_enter c).

End Keypress.

(** [Blast.Bound.String.startsWith(item, last)] *)
Definition startsWith (item last : jsstring) : bool :=
  match strip_prefix last item with Some _ => true | None => false end.

Module Completion.
(** What [autocomplete] computes before it opens the list:
    [autocomplete_prefix], [last] and [items]. *)
Record t := mk {
  prefix : option jsstring;
  last_piece : jsstring;
  items : list jsstring
}.
End Completion.

(** [autocomplete(cmd, key)] on a [cmd] that is given, up to the list of
    items.  [resolve] stands for the objects: from the pieces before the
    last dot (none for the global object) it gives the own keys of the
    target and its hidden property names, or [None] when there is no
    target. *)
Definition autocomplete (cmd : jsstring)
    (resolve : list jsstring -> option (list jsstring * list jsstring))
    : Completion.t :=
  let pieces := split_on DOT cmd in
  let '(target, last, prefix) :=
    match pieces with
    | [_] => (resolve [], cmd, None)
    | _ =>
        let last := match last pieces with Some l => l | None => [] end in
        let pieces := removelast pieces in
        (resolve pieces, last, Some (join_with DOT pieces ++ [DOT]))
    end in
  let wanted item := negb (truthy last) || startsWith item last in
  let items :=
    match target with
    | Some (keys, hidden) =>
        List.filter wanted keys ++ List.filter wanted hidden
    | None => []
    end in
  Completion.mk prefix last items.

(** [selectAutocomplete] for the item [content]: the value given to the
    text area, [(autocomplete_prefix || '') + content]. *)
Definition selectAutocomplete (completion : Completion.t)
    (content : jsstring) : jsstring :=
  match Completion.prefix completion with
  | Some p => if truthy p then p ++ content else content
  | None => content
  end.

(* ===================================================================== *)
(** ** The handlers that use the log list                                 *)
(* ===================================================================== *)

Section Handlers.
Context {B : Type} `{Box B}.

Definition set_scrolledManually (b : bool) (s : State B) : State B :=
  mkState (objects s) (this_list s) (list_selectedLine s)
          (this_selectedLine s) (this_box s) (render_calls s) (immediates s)
          (scrollDown s) b.

(** The [action] of a mouse event. *)
Inductive mouse_action := wheelup | wheeldown | other_action.

(** [onMouse(e)]: the state and the variable [scrolledUp] of [start]. *)
Definition onMouse (action : mouse_action) (st : State B * bool)
    : State B * bool :=
  let '(s, scrolledUp) := st in
  let '(s1, scrolledUp, scrolled) :=
    match action with
    | wheelup => (set_box (box_scroll (-5) (this_box s)) s, true, true)
    | wheeldown => (set_box (box_scroll 5 (this_box s)) s, false, true)
    | other_action => (s, scrolledUp, false)
    end in
  if scrolled then
    let s2 := set_scrolledManually true s1 in
    let s3 :=
      if box_getScrollPerc (this_box s2) =? 100
      then set_scrolledManually false s2 else s2 in
    (render s3, scrolledUp)
  else (s1, scrolledUp).

(** What [onKeypress] does to the log list for a command that is neither
    [cls] nor [exit] and prints nothing itself: the line of the command
    is pushed, and the line of its result (or of its error) is inserted
    after it. *)
Definition run_command (commandLine resultLine : ref) (s : State B)
    : outcome (State B) :=
  let s1 := pushLine commandLine false s in
  insertAfter resultLine (LogLine.index (objects s1 commandLine)) s1.

End Handlers.

Module MoreExamples.

(** The identity stands for a [trim] on texts without blanks. *)
Definition no_trim : jsstring -> jsstring := fun s => s.

(** Two commands entered, then a third one typed. *)
Definition typing : Cli.t :=
  Cli.set_value (lit "third")
    (onKeypress_enter no_trim
       (Cli.set_value (lit "second")
          (onKeypress_enter no_trim (Cli.set_value (lit "first") Cli.initial)))).

(** A global object with two keys and one hidden name. *)
Definition globals : list jsstring -> option (list jsstring * list jsstring) :=
  fun pieces =>
    match pieces with
    | [] => Some ([lit "console"; lit "process"], [lit "constructor"])
    | _ => Some ([lit "log"; lit "warn"], [lit "length"])
    end.

(** A [multiply] that repeats its text. *)
Definition repeat_text : jsstring -> nat -> option jsstring :=
  fun s n => Some (concat (replicate n s)).

(** A [multiply] that is not defined: every call raises. *)
Definition no_multiply : jsstring -> nat -> option jsstring :=
  fun _ _ => None.

(** A leaf: the traversal of a line without children. *)
Definition leaf : (ref -> LogLine.t) -> ref -> list Z :=
  fun h r => [LogLine.index (h r)].


(** The list [[A, X]] that [insertAfter(X, 1)] makes of [[A]]:
    [X.index] is 2. *)
Definition past_the_end : State TextBox.t :=
  match insertAfter 3%nat 1 Examples.sA with
  | Done s' | Raised s' => s'
  end.

End MoreExamples.


(* ===================================================================== *)
(** * Properties                                                          *)
(* ===================================================================== *)

(** Membership in a list given by its elements. *)
Ltac not_in_literal :=
  let H := fresh "H" in
  cbn; intros H;
  repeat (apply elem_of_cons in H as [H|H]; [discriminate H|]);
  by apply elem_of_nil in H.

(** ** sanitize *)

Section SanitizeFacts.

Lemma replace_all_LF_app rep s1 s2 :
  replace_all_LF rep (s1 ++ s2)
  = replace_all_LF rep s1 ++ replace_all_LF rep s2.
Proof.
  induction s1 as [|c s1 IH]; simpl; [done|].
  destruct (c =? LF)%N; rewrite IH; [by rewrite app_assoc | done].
Qed.

Lemma replace_all_LF_id rep s :
  (LF ∉ s) -> replace_all_LF rep s = s.
Proof.
  induction s as [|c s IH]; simpl; intros Hs; [done|].
  apply not_elem_of_cons in Hs as [Hc Hs].
  destruct (N.eqb_spec c LF) as [->|_]; [done|].
  by rewrite IH.
Qed.

Lemma replace_all_LF_free rep s :
  (LF ∉ rep) -> LF ∉ replace_all_LF rep s.
Proof.
  intros Hrep. induction s as [|c s IH]; simpl; [apply not_elem_of_nil|].
  destruct (N.eqb_spec c LF) as [->|Hc].
  - rewrite elem_of_app. tauto.
  - rewrite elem_of_cons. intros [E|E]; [by symmetry in E | done].
Qed.

Lemma replace_all_LF_length rep s :
  (length (replace_all_LF rep s) + occurrences LF s
   = length s + length rep * occurrences LF s)%nat.
Proof.
  induction s as [|c s IH]; simpl; [lia|].
  destruct (N.eqb_spec c LF) as [->|Hc]; simpl.
  - rewrite length_app. lia.
  - lia.
Qed.

Lemma return_symbol_and_space_free : LF ∉ [RETURN_SYMBOL; SPACE].
Proof. not_in_literal. Qed.

End SanitizeFacts.

(** C8, as the code has it.  A string without a line feed is returned as
    it is; the result never holds a line feed; and every line feed of the
    input has become the two characters U+23CE (the return symbol) and a
    space, the other characters staying in place, so that the result is
    longer than the input by one character for each line feed. *)
Theorem sanitize_replaces_line_feeds (s : jsstring) :
  ((LF ∉ s) -> sanitize s = s)
  /\ (LF ∉ sanitize s)
  /\ (forall s1 s2, s = s1 ++ LF :: s2 ->
        sanitize s = sanitize s1 ++ [RETURN_SYMBOL; SPACE] ++ sanitize s2)
  /\ length (sanitize s) = (length s + occurrences LF s)%nat.
Proof.
  unfold sanitize. split; [apply replace_all_LF_id|].
  split; [apply replace_all_LF_free, return_symbol_and_space_free|].
  split.
  - intros s1 s2 ->. by rewrite replace_all_LF_app.
  - pose proof (replace_all_LF_length [RETURN_SYMBOL; SPACE] s) as E.
    simpl in E. lia.
Qed.

(** A run of C8: a text without line feed is unchanged. *)
Lemma sanitize_replaces_line_feeds_witness :
(LF ∉ lit "abc") /\ sanitize (lit "abc") = lit "abc".
Proof.
  assert (Hfree : LF ∉ lit "abc").
  { not_in_literal. }
  split; [exact Hfree|].
  exact (proj1 (sanitize_replaces_line_feeds (lit "abc")) Hfree).
Defined.

(** C8 as the spec words it fails: the line break of ["a\nb"] is not
    replaced by one character.  The result has four characters, not the
    three of ["a", U+23CE, "b"]. *)
Lemma sanitize_line_break_is_two_characters :
  sanitize [97; LF; 98]%N = [97; RETURN_SYMBOL; SPACE; 98]%N
  /\ sanitize [97; LF; 98]%N <> [97; RETURN_SYMBOL; 98]%N
  /\ length (sanitize [LF]) = 2%nat.
Proof. split; [reflexivity|]. split; [discriminate | reflexivity]. Qed.

(** ** extractLineInfo *)

Section RegexFacts.

Lemma strip_prefix_Some p s rest :
  strip_prefix p s = Some rest -> s = p ++ rest.
Proof.
  revert s. induction p as [|a p IH]; intros [|b s]; simpl; try congruence.
  destruct (N.eqb_spec a b) as [->|_]; [|done].
  intros E. by rewrite (IH _ E).
Qed.

Lemma digits_spec s d rest :
  Regex.digits s = (d, rest) ->
  s = d ++ rest /\ Forall (fun c => is_digit c = true) d.
Proof.
  revert d rest. induction s as [|c s IH]; simpl; intros d rest E.
  - by inversion E.
  - destruct (is_digit c) eqn:Hc.
    + destruct (Regex.digits s) as [d' rest'] eqn:Hd. inversion E; subst.
      destruct (IH _ _ eq_refl) as [-> Hall]. split; [done|].
      by constructor.
    + inversion E; subst. by split.
Qed.

(** The run a lazy group takes holds no line terminator, and the rest of
    the pattern matched right after it. *)
Lemma lazy_dots_spec {R : Type} (k : jsstring -> option R) acc s g r :
  Regex.lazy_dots k acc s = Some (g, r) ->
  exists run rest,
    s = run ++ rest /\ g = rev acc ++ run /\ k rest = Some r
    /\ Forall (fun c => is_line_terminator c = false) run.
Proof.
  revert acc. induction s as [|c s IH]; intros acc; simpl.
  - destruct (k []) eqn:Hk; [|done]. intros [= <- <-].
    exists [], []. rewrite !app_nil_r. by repeat split.
  - destruct (k (c :: s)) eqn:Hk.
    + intros [= <- <-]. exists [], (c :: s). rewrite !app_nil_r.
      by repeat split.
    + destruct (is_line_terminator c) eqn:Hc; [done|].
      intros E. destruct (IH _ E) as (run & rest & -> & -> & Hr & Hall).
      exists (c :: run), rest. simpl. rewrite <- app_assoc. simpl.
      repeat split; [done|]. by constructor.
Qed.

Lemma search_spec {R : Type} (m : jsstring -> option R) s r :
  Regex.search m s = Some r ->
  exists skipped rest, s = skipped ++ rest /\ m rest = Some r.
Proof.
  induction s as [|c s IH]; simpl.
  - destruct (m []) eqn:Hm; [|done]. intros [= <-]. by exists [], [].
  - destruct (m (c :: s)) eqn:Hm.
    + intros [= <-]. by exists [], (c :: s).
    + intros E. destruct (IH E) as (sk & rest & -> & Hr).
      by exists (c :: sk), rest.
Qed.

Lemma line_and_char_spec s l c rest :
  Regex.line_and_char s = Some (l, c, rest) ->
  s = [COLON] ++ l ++ [COLON] ++ c ++ rest
  /\ Forall (fun x => is_digit x = true) l
  /\ Forall (fun x => is_digit x = true) c.
Proof.
  unfold Regex.line_and_char.
  destruct (strip_prefix [COLON] s) as [s1|] eqn:H1; [|done].
  destruct (Regex.digits s1) as [l' s2] eqn:H2.
  destruct (strip_prefix [COLON] s2) as [s3|] eqn:H3; [|done].
  destruct (Regex.digits s3) as [c' s4] eqn:H4.
  intros [= <- <- <-].
  apply strip_prefix_Some in H1, H3.
  apply digits_spec in H2 as [-> ?], H4 as [-> ?]. subst.
  simpl. rewrite <- ?app_assoc. by repeat split.
Qed.

(** What a match of the strict pattern says about the text. *)
Lemma strict_spec clean n p l c :
  Regex.strict clean = Some (n, p, l, c) ->
  exists rest,
    clean = [SPACE] ++ n ++ [SPACE; LPAREN] ++ p ++ [COLON] ++ l
            ++ [COLON] ++ c ++ [RPAREN] ++ rest
    /\ Forall (fun x => is_digit x = true) l
    /\ Forall (fun x => is_digit x = true) c.
Proof.
  unfold Regex.strict.
  destruct (strip_prefix [SPACE] clean) as [s0|] eqn:H0; [|done].
  match goal with
  | |- context [Regex.lazy_dots ?k [] s0] =>
      destruct (Regex.lazy_dots k [] s0) as [[n' [p' [l' c']]]|] eqn:Hn
  end; [|done].
  intros [= <- <- <- <-].
  apply strip_prefix_Some in H0.
  apply lazy_dots_spec in Hn as (run & r1 & -> & -> & Hk & _).
  destruct (strip_prefix [SPACE; LPAREN] r1) as [r2|] eqn:H2; [|done].
  apply strip_prefix_Some in H2.
  apply lazy_dots_spec in Hk as (run2 & r3 & -> & -> & Hk & _).
  destruct (Regex.line_and_char r3) as [[[l2 c2] r4]|] eqn:H3; [|done].
  destruct (strip_prefix [RPAREN] r4) as [r5|] eqn:H4; [|done].
  injection Hk as <- <-.
  apply strip_prefix_Some in H4.
  apply line_and_char_spec in H3 as (-> & ? & ?). subst.
  exists r5. simpl. rewrite <- ?app_assoc. by repeat split.
Qed.

(** What a match of the loose pattern says about the text. *)
Lemma loose_spec clean p l c :
  Regex.loose clean = Some (p, l, c) ->
  exists skipped rest,
    clean = skipped ++ p ++ [COLON] ++ l ++ [COLON] ++ c ++ rest
    /\ Forall (fun x => is_digit x = true) l
    /\ Forall (fun x => is_digit x = true) c.
Proof.
  unfold Regex.loose.
  destruct (Regex.search _ clean) as [[p' [[l' c'] r]]|] eqn:Hs; [|done].
  intros [= <- <- <-].
  apply search_spec in Hs as (sk & rest & -> & Hm).
  apply lazy_dots_spec in Hm as (run & r1 & -> & -> & Hk & _).
  apply line_and_char_spec in Hk as (-> & ? & ?).
  exists sk, r. simpl. rewrite <- ?app_assoc. by repeat split.
Qed.

End RegexFacts.

(** C9.  [extractLineInfo] is a total function: every string gets a
    record, and nothing is raised.  The strict pattern is tried first:
    when it matches the text after ["at"], that text reads
    [" name (path:line:char)"] and the record holds these four parts.
    When it does not, the name is ['anonymous'], and the loose pattern
    gives the path, the line and the column.  When that fails too, every
    field holds a placeholder: the name is ['anonymous'], and the path,
    the file, the line and the column are ['unknown'].  In every case
    the file is the last segment of the path. *)
Theorem extractLineInfo_fallbacks (caller_line : jsstring) :
  let clean :=
    slice_from (indexOf (lit "at ") caller_line + 2) caller_line in
  let info := extractLineInfo caller_line in
  LineInfo.file info = last_segment (LineInfo.path info)
  /\ match Regex.strict clean with
     | Some (n, p, l, c) =>
         info = LineInfo.mk n p (last_segment p) l c
         /\ exists rest,
              clean = [SPACE] ++ n ++ [SPACE; LPAREN] ++ p ++ [COLON] ++ l
                      ++ [COLON] ++ c ++ [RPAREN] ++ rest
     | None =>
         LineInfo.name info = anonymous
         /\ match Regex.loose clean with
            | Some (p, l, c) =>
                LineInfo.path info = p /\ LineInfo.line info = l
                /\ LineInfo.char info = c
                /\ exists skipped rest,
                     clean = skipped ++ p ++ [COLON] ++ l ++ [COLON] ++ c
                             ++ rest
            | None =>
                LineInfo.path info = unknown /\ LineInfo.file info = unknown
                /\ LineInfo.line info = unknown
                /\ LineInfo.char info = unknown
            end
     end.
Proof.
  intros clean info. subst info. unfold extractLineInfo. fold clean.
  destruct (Regex.strict clean) as [[[[n p] l] c]|] eqn:Hs.
  - split; [done|]. split; [done|].
    apply strict_spec in Hs as (rest & E & _). by exists rest.
  - destruct (Regex.loose clean) as [[[p l] c]|] eqn:Hl; simpl.
    + repeat split; try done.
      apply loose_spec in Hl as (sk & rest & E & _). by exists sk, rest.
    + by repeat split.
Qed.

(** A run on the empty stack line: neither pattern matches, and every
    field holds its placeholder. *)
Example extractLineInfo_of_the_empty_line :
  Regex.strict (slice_from (indexOf (lit "at ") [] + 2) []) = None
  /\ Regex.loose (slice_from (indexOf (lit "at ") [] + 2) []) = None
  /\ extractLineInfo []
     = LineInfo.mk anonymous unknown unknown unknown unknown.
Proof. repeat split; reflexivity. Qed.

(** ** scroll and clearScreen *)

(** What [scroll] does, for every box.  [scroll(direction)] first scrolls
    the box by [direction].  It then scrolls it back by [0 - direction]
    when the scroll percentage was 0 before the move and is 0 after it,
    and only then: with any other pair of percentages, equal or not, the
    move is kept.  Nothing but the box changes, and a call without
    argument scrolls by one line. *)
Lemma scroll_reverts_only_at_zero {B : Type} `{Box B}
    (direction : Z) (s : State B) :
  let before := box_getScrollPerc (this_box s) in
  let moved := box_scroll direction (this_box s) in
  let after := box_getScrollPerc moved in
  (before = 0 /\ after = 0 ->
     this_box (scroll (Some direction) s) = box_scroll (0 - direction) moved)
  /\ (before <> 0 \/ after <> 0 ->
        this_box (scroll (Some direction) s) = moved)
  /\ scroll (Some direction) s
     = set_box (this_box (scroll (Some direction) s)) s
  /\ scroll None s = scroll (Some 1) s.
Proof.
  intros before moved after. unfold scroll. simpl.
  fold before. fold moved. fold after.
  destruct (Z.eqb_spec before 0) as [Hb|Hb];
    destruct (Z.eqb_spec after 0) as [Ha|Ha]; simpl;
    repeat split; try done; intros; lia.
Qed.

(** A run: an empty box reports 0 before and after, and the box is
    scrolled back. *)
Lemma scroll_reverts_only_at_zero_witness :
  this_box (scroll (Some 1) Examples.s0)
  = box_scroll (0 - 1) (box_scroll 1 (this_box Examples.s0)).
Proof.
  apply (proj1 (scroll_reverts_only_at_zero 1 Examples.s0)).
  split; reflexivity.
Defined.

(** C6 on the code.  The comment in [scroll] reads "Undo scroll if
    nothing changed", and the test is [before == 0 && after == 0].  On
    a box of five rows in a viewport of two that clamps its scrolling:
    with the viewport on the first row the percentage is 0 before and
    after [scroll(-20)], the call of the page-up key, and after
    [scroll(-1)]; the box has clamped the move, the undoing [scroll(20)]
    and [scroll(1)] are issued all the same, and the viewport ends on
    row 3 and on row 1 instead of row 0.  With the viewport on the last
    row the percentage is 100 before and after [scroll(1)], so nothing
    has changed, and no undoing scroll is issued: the box has received
    [scroll(1)] and nothing else. *)
Theorem scroll_misses_the_undo_at_the_edges :
  let b := this_box Examples.at_bottom in
  let t := this_box Examples.at_top in
  (box_getScrollPerc t = 0
   /\ box_getScrollPerc (box_scroll (-20) t) = 0
   /\ box_getScrollPerc (box_scroll (-1) t) = 0
   /\ TextBox.base t = 0
   /\ TextBox.base (this_box (scroll (Some (-20)) Examples.at_top)) = 3
   /\ TextBox.base (this_box (scroll (Some (-1)) Examples.at_top)) = 1)
  /\ (box_getScrollPerc b = 100
      /\ box_getScrollPerc (box_scroll 1 b) = 100
      /\ this_box (scroll (Some 1) Examples.at_bottom) = box_scroll 1 b
      /\ this_box (scroll (Some 1) Examples.at_bottom)
         <> box_scroll (0 - 1) (box_scroll 1 b)).
Proof. repeat split; try reflexivity. discriminate. Qed.

Section ClearScreenFacts.
Context {B : Type} `{Box B}.

(** [clearScreen] looks for the selected line in a property of the
    array, which is not where the [LogList] keeps it.  With that
    property unset, no object is touched. *)
Lemma clearScreen_without_list_property (s : State B) :
  list_selectedLine s = None ->
  objects (clearScreen s) = objects s
  /\ this_selectedLine (clearScreen s) = this_selectedLine s
  /\ this_list (clearScreen s) = []
  /\ this_box (clearScreen s) = box_setContent [] (this_box s)
  /\ render_calls (clearScreen s) = S (render_calls s).
Proof. unfold clearScreen. by intros ->. Qed.

End ClearScreenFacts.

(** C5 on the code: the buffer is [[A]] and [A] is the selected line.
    After [clearScreen()] the list is empty, the box has been given the
    empty content and a render has been asked for, but [A] still has
    [selected == true] and the [LogList] still points to it. *)
Theorem clearScreen_keeps_the_selection :
  let s := Examples.sA_selected in
  this_list s = [Some 0%nat]
  /\ this_selectedLine s = Some 0%nat
  /\ LogLine.selected (objects s 0%nat) = true
  /\ this_list (clearScreen s) = []
  /\ this_box (clearScreen s) = box_setContent [] (this_box s)
  /\ render_calls (clearScreen s) = S (render_calls s)
  /\ LogLine.selected (objects (clearScreen s) 0%nat) = true
  /\ this_selectedLine (clearScreen s) = Some 0%nat.
Proof. repeat split; reflexivity. Qed.

(** ** Loops over the list *)

Section LoopFacts.

(** A loop whose body writes the object it visits, and no other: on a
    list without holes and without repetition it completes, and each
    object has been written once. *)
Lemma for_slots_writes (f : Z -> LogLine.t -> LogLine.t) rs i (h : heap) :
  NoDup rs ->
  exists h',
    for_slots (fun r j (h : heap) => <[r := f j (h r)]> h) i (Some <$> rs) h
    = Done h'
    /\ (forall (j : nat) r,
          rs !! j = Some r -> h' r = f (i + Z.of_nat j) (h r))
    /\ (forall r, r ∉ rs -> h' r = h r).
Proof.
  revert i h. induction rs as [|r0 rs IH]; intros i h Hnd.
  - exists h. split; [done|]. split; [|done].
    intros j r. by rewrite lookup_nil.
  - apply NoDup_cons in Hnd as [Hr0 Hnd]. simpl.
    destruct (IH (i + 1) (<[r0 := f i (h r0)]> h) Hnd)
      as (h' & E & Hin & Hout).
    exists h'. split; [exact E|]. split.
    + intros [|j] r Hj; simpl in Hj.
      * injection Hj as <-. rewrite Hout by done.
        rewrite fn_lookup_insert. f_equal. lia.
      * rewrite (Hin j r Hj).
        assert (r0 <> r).
        { intros <-. apply Hr0. by eapply list_elem_of_lookup_2. }
        rewrite fn_lookup_insert_ne by done. f_equal. lia.
    + intros r [Hne Hr]%not_elem_of_cons. rewrite Hout by done.
      by rewrite fn_lookup_insert_ne.
Qed.

Lemma lookup_drop_NoDup (rs : list ref) (m i : nat) r :
  NoDup rs -> rs !! i = Some r -> (i < m)%nat -> r ∉ drop m rs.
Proof.
  intros Hnd Hi Hlt [j Hj]%list_elem_of_lookup_1.
  rewrite lookup_drop in Hj.
  pose proof (NoDup_lookup _ _ _ _ Hnd Hi Hj). lia.
Qed.

Lemma elem_of_drop_inv (rs : list ref) (m : nat) r :
  r ∈ drop m rs -> r ∈ rs.
Proof.
  intros [j Hj]%list_elem_of_lookup_1. rewrite lookup_drop in Hj.
  by eapply list_elem_of_lookup_2.
Qed.

Lemma all_slots_filled (l : list (option ref)) :
  (forall i : nat, (i < length l)%nat -> exists r, l !! i = Some (Some r)) ->
  exists rs, l = Some <$> rs.
Proof.
  induction l as [|x l IH]; intros Hall.
  - by exists [].
  - destruct (Hall 0%nat) as [r Hr]; [simpl; lia|].
    injection Hr as ->.
    destruct IH as [rs ->].
    { intros i Hi. apply (Hall (S i)). simpl. lia. }
    by exists (r :: rs).
Qed.

End LoopFacts.

(** ** The invariant, read on the lines *)

Section InvariantFacts.
Context {B : Type} `{Box B}.

(** Under the invariant the list has no hole and no line twice. *)
Lemma index_inv_lines (s : State B) :
  index_inv s ->
  exists rs,
    this_list s = Some <$> rs /\ NoDup rs
    /\ forall (i : nat) r,
         rs !! i = Some r -> LogLine.index (objects s r) = Z.of_nat i.
Proof.
  intros Hinv.
  destruct (all_slots_filled (this_list s)) as [rs Hrs].
  { intros i Hi. destruct (Hinv i Hi) as (r & Hr & _). by exists r. }
  assert (Hidx : forall (i : nat) r,
             rs !! i = Some r -> LogLine.index (objects s r) = Z.of_nat i).
  { intros i r Hi.
    destruct (Hinv i) as (r' & Hr' & Hindex).
    { rewrite Hrs, length_fmap. by eapply lookup_lt_Some. }
    rewrite Hrs, list_lookup_fmap, Hi in Hr'. simpl in Hr'.
    by injection Hr' as <-. }
  exists rs. split; [done|]. split; [|done].
  apply NoDup_alt. intros i j r Hi Hj.
  apply Hidx in Hi, Hj. lia.
Qed.

Lemma lines_index_inv (s : State B) rs :
  this_list s = Some <$> rs ->
  (forall (i : nat) r,
     rs !! i = Some r -> LogLine.index (objects s r) = Z.of_nat i) ->
  index_inv s.
Proof.
  intros Hrs Hidx i Hi. rewrite Hrs, length_fmap in Hi.
  destruct (lookup_lt_is_Some_2 rs i Hi) as [r Hr].
  exists r. split; [|by apply Hidx].
  by rewrite Hrs, list_lookup_fmap, Hr.
Qed.

(** The invariant as an equation that can be computed. *)
Lemma index_inv_indices_of (s : State B) :
  indices_of s
  = (fun i : nat => Some (Z.of_nat i)) <$> seq 0 (length (this_list s)) ->
  index_inv s.
Proof.
  unfold indices_of. intros E i Hi.
  assert (Hlook := f_equal (fun l => l !! i) E). simpl in Hlook.
  rewrite !list_lookup_fmap in Hlook.
  rewrite lookup_seq_lt in Hlook by done. simpl in Hlook.
  destruct (this_list s !! i) as [[r|]|] eqn:Hr; simpl in Hlook;
    try discriminate.
  exists r. split; [done|]. by injection Hlook.
Qed.

(** Under the invariant the indices read through the list are
    [0, 1, ..., length - 1]: contiguous from 0, without gap or repetition. *)
Lemma index_inv_contiguous (s : State B) :
  index_inv s ->
  indices_of s
  = (fun i : nat => Some (Z.of_nat i)) <$> seq 0 (length (this_list s)).
Proof.
  intros Hinv. unfold indices_of. apply list_eq. intros i.
  rewrite !list_lookup_fmap.
  destruct (decide (i < length (this_list s))%nat) as [Hi|Hi].
  - destruct (Hinv i Hi) as (r & -> & Hindex).
    rewrite lookup_seq_lt by done. simpl. by rewrite Hindex.
  - rewrite lookup_seq_ge by lia.
    by rewrite lookup_ge_None_2 by lia.
Qed.

(** [reIndex(start)] on a list without holes and without repetition
    completes; the lines from [start] on get their position as index,
    and nothing else changes. *)
Lemma reIndex_lines (s : State B) rs (start : Z) :
  this_list s = Some <$> rs -> NoDup rs -> 0 <= start ->
  exists h',
    reIndex (Some start) s = Done (set_objects h' s)
    /\ (forall (i : nat) r,
          rs !! i = Some r -> start <= Z.of_nat i ->
          h' r = LogLine.set_index (Z.of_nat i) (objects s r))
    /\ (forall (i : nat) r,
          rs !! i = Some r -> Z.of_nat i < start -> h' r = objects s r)
    /\ (forall r, r ∉ rs -> h' r = objects s r).
Proof.
  intros Hrs Hnd Hstart. unfold reIndex, for_from.
  destruct (Z.ltb_spec start 0) as [?|_]; [lia|].
  rewrite Hrs, <- fmap_drop.
  destruct (for_slots_writes (fun j l => LogLine.set_index j l)
              (drop (Z.to_nat start) rs) start (objects s))
    as (h' & E & Hin & Hout).
  { eapply sublist_NoDup; [exact Hnd | apply sublist_drop]. }
  exists h'. rewrite E. split; [done|]. split; [|split].
  - intros i r Hi Hle.
    rewrite (Hin (i - Z.to_nat start)%nat r).
    + f_equal. lia.
    + rewrite lookup_drop. rewrite <- Hi. f_equal. lia.
  - intros i r Hi Hlt. apply Hout.
    eapply lookup_drop_NoDup; [done.. | lia].
  - intros r Hr. apply Hout. intros Hin'. apply Hr.
    by eapply elem_of_drop_inv.
Qed.

(** [reIndex(start)] restores the invariant when the lines before
    [start] satisfy it. *)
Lemma reIndex_restores (s : State B) rs (start : Z) :
  this_list s = Some <$> rs -> NoDup rs -> 0 <= start ->
  (forall (i : nat) r,
     rs !! i = Some r -> Z.of_nat i < start ->
     LogLine.index (objects s r) = Z.of_nat i) ->
  exists s',
    reIndex (Some start) s = Done s'
    /\ index_inv s'
    /\ this_list s' = this_list s
    /\ this_box s' = this_box s
    /\ same_bookkeeping s s'
    /\ (forall r, LogLine.selected (objects s' r) = LogLine.selected (objects s r)
                  /\ LogLine.text (objects s' r) = LogLine.text (objects s r))
    /\ (forall (i : nat) r,
          rs !! i = Some r -> Z.of_nat i < start ->
          objects s' r = objects s r)
    /\ (forall r, r ∉ rs -> objects s' r = objects s r).
Proof.
  intros Hrs Hnd Hstart Hbefore.
  destruct (reIndex_lines s rs start Hrs Hnd Hstart)
    as (h' & E & Hfrom & Hkeep & Hout).
  exists (set_objects h' s). split; [done|]. split; [|split; [done|]].
  - apply (lines_index_inv _ rs); [done|]. simpl.
    intros i r Hi. destruct (Z.lt_ge_cases (Z.of_nat i) start).
    + rewrite (Hkeep i r Hi) by done. by apply Hbefore.
    + by rewrite (Hfrom i r Hi).
  - split; [done|]. split; [by repeat split|].
    split; [|split; [exact Hkeep | exact Hout]].
    intros r. simpl.
    destruct (decide (r ∈ rs)) as [[i Hi]%list_elem_of_lookup_1|Hr].
    + destruct (Z.lt_ge_cases (Z.of_nat i) start).
      * by rewrite (Hkeep i r Hi).
      * by rewrite (Hfrom i r Hi).
    + by rewrite Hout.
Qed.

End InvariantFacts.

(** ** insertAfter *)

Section InsertAfterFacts.
Context {B : Type} `{Box B}.

(** With [0 <= index <= length] the array is not extended and [splice]
    puts the element at [index]. *)
Lemma insert_within (rs : list ref) (index : Z) (line : ref) :
  0 <= index <= Z.of_nat (length rs) ->
  JsArray.insert (Some <$> rs) index line
  = Some <$> (take (Z.to_nat index) rs ++ line :: drop (Z.to_nat index) rs).
Proof.
  intros Hrange. unfold JsArray.insert. rewrite length_fmap.
  destruct (Z.ltb_spec (Z.of_nat (length rs)) (index - 1)) as [?|_]; [lia|].
  unfold JsArray.splice_insert, JsArray.relative_start.
  rewrite length_fmap.
  destruct (Z.ltb_spec index 0) as [?|_]; [lia|].
  rewrite Z.min_l by lia.
  by rewrite fmap_app, fmap_cons, fmap_take, fmap_drop.
Qed.

Lemma drop_past_inserted (rs : list ref) (n : nat) (line : ref) :
  (n <= length rs)%nat ->
  drop (S n) (take n rs ++ line :: drop n rs) = drop n rs.
Proof.
  intros Hn. replace (S n) with (length (take n rs) + 1)%nat
    by (rewrite length_take; lia).
  rewrite <- drop_drop. by rewrite drop_app_length.
Qed.

(** [insertAfter(line, k)] for [-1 <= k < length], on a list without
    holes and without repetition that does not hold [line]. *)
Lemma insertAfter_lines (s : State B) rs (line : ref) (k : Z) :
  this_list s = Some <$> rs -> NoDup rs -> line ∉ rs ->
  -1 <= k < Z.of_nat (length rs) ->
  let n := Z.to_nat (k + 1) in
  exists s',
    insertAfter line k s = Done s'
    /\ this_list s' = Some <$> (take n rs ++ line :: drop n rs)
    /\ objects s' line = LogLine.set_index (k + 1) (objects s line)
    /\ (forall r, r ∈ take n rs -> objects s' r = objects s r)
    /\ (forall r, r ∈ drop n rs ->
          objects s' r
          = LogLine.set_index (LogLine.index (objects s r) + 1) (objects s r))
    /\ (forall r, r <> line -> r ∉ rs -> objects s' r = objects s r)
    /\ this_box s'
       = box_insertLine (k + 1) (sanitize (toString (objects s) line))
                        (this_box s)
    /\ same_bookkeeping s s'.
Proof.
  intros Hrs Hnd Hline Hk n.
  assert (Hn : (n <= length rs)%nat) by lia.
  unfold insertAfter. rewrite Hrs, insert_within by lia. fold n.
  unfold for_from. simpl.
  destruct (Z.ltb_spec (k + 1 + 1) 0) as [?|_]; [lia|].
  replace (Z.to_nat (k + 1 + 1)) with (S n) by lia.
  rewrite <- fmap_drop, drop_past_inserted by done.
  set (h1 := <[line := LogLine.set_index (k + 1) (objects s line)]> (objects s)).
  destruct (for_slots_writes
              (fun _ l => LogLine.set_index (LogLine.index l + 1) l)
              (drop n rs) (k + 1 + 1) h1) as (h2 & E & Hin & Hout).
  { eapply sublist_NoDup; [exact Hnd | apply sublist_drop]. }
  cbv beta in E. rewrite E. simpl.
  assert (Hline_drop : line ∉ drop n rs).
  { intros Hd. apply Hline. by eapply elem_of_drop_inv. }
  assert (Hh2_line : h2 line = LogLine.set_index (k + 1) (objects s line)).
  { rewrite Hout by done. unfold h1. by rewrite fn_lookup_insert. }
  eexists. split; [reflexivity|]. simpl.
  split; [done|]. split; [done|]. split; [|split; [|split; [|split]]].
  - intros r Hr. apply elem_of_take in Hr as (i & Hi & Hlt).
    rewrite Hout by (eapply lookup_drop_NoDup; eauto).
    unfold h1. rewrite fn_lookup_insert_ne; [done|].
    intros <-. apply Hline. by eapply list_elem_of_lookup_2.
  - intros r Hr. destruct (list_elem_of_lookup_1 _ _ Hr) as [j Hj].
    rewrite (Hin j r Hj). unfold h1.
    rewrite fn_lookup_insert_ne; [done|].
    intros <-. by apply Hline_drop.
  - intros r Hne Hr. rewrite Hout.
    + unfold h1. by rewrite fn_lookup_insert_ne.
    + intros Hd. apply Hr. by eapply elem_of_drop_inv.
  - unfold toString. by rewrite Hh2_line.
  - by repeat split.
Qed.

(** The invariant after such a call. *)
Lemma insertAfter_lines_inv (s : State B) rs (line : ref) (k : Z) s' :
  this_list s = Some <$> rs -> NoDup rs -> line ∉ rs ->
  -1 <= k < Z.of_nat (length rs) ->
  (forall (i : nat) r,
     rs !! i = Some r -> LogLine.index (objects s r) = Z.of_nat i) ->
  insertAfter line k s = Done s' ->
  index_inv s'.
Proof.
  intros Hrs Hnd Hline Hk Hidx Hrun.
  destruct (insertAfter_lines s rs line k Hrs Hnd Hline Hk)
    as (s2 & E & Hlist & Hl & Htake & Hdrop & _).
  rewrite E in Hrun. injection Hrun as <-.
  set (n := Z.to_nat (k + 1)) in *.
  assert (Hn : (n <= length rs)%nat) by lia.
  apply (lines_index_inv _ _ Hlist). intros i r Hi.
  destruct (decide (i < n)%nat) as [Hlt|Hge].
  - rewrite lookup_app_l in Hi by (rewrite length_take; lia).
    rewrite lookup_take_lt in Hi by done.
    rewrite Htake by (apply elem_of_take; eauto). by apply Hidx.
  - rewrite lookup_app_r in Hi by (rewrite length_take; lia).
    rewrite length_take, Nat.min_l in Hi by done.
    destruct (i - n)%nat as [|j] eqn:Hj; simpl in Hi.
    + injection Hi as <-. rewrite Hl. simpl. lia.
    + rewrite lookup_drop in Hi.
      rewrite Hdrop.
      * simpl. rewrite (Hidx _ _ Hi). lia.
      * eapply list_elem_of_lookup_2. rewrite lookup_drop. exact Hi.
Qed.

End InsertAfterFacts.

(** C2.  On a buffer of length [N] that satisfies the invariant, with [k]
    an existing index and [line] a line that is not in the buffer,
    [insertAfter(line, k)] completes and gives a buffer of length [N + 1]
    with [line] at position [k + 1] and [line.index == k + 1]; a line that
    was at a position [<= k] is at the same position and is unchanged; a
    line that was at a position [> k] is one position further and its
    index is one more, its other fields being unchanged; and the box has
    been given the sanitized text of the line for row [k + 1]. *)
Theorem insertAfter_shifts_later_lines {B : Type} `{Box B}
    (s : State B) (line : ref) (k : Z) :
  index_inv s ->
  Some line ∉ this_list s ->
  0 <= k < Z.of_nat (length (this_list s)) ->
  exists s',
    insertAfter line k s = Done s'
    /\ length (this_list s') = S (length (this_list s))
    /\ this_list s' !! Z.to_nat (k + 1) = Some (Some line)
    /\ LogLine.index (objects s' line) = k + 1
    /\ (forall (i : nat) r,
          this_list s !! i = Some (Some r) -> Z.of_nat i <= k ->
          this_list s' !! i = Some (Some r) /\ objects s' r = objects s r)
    /\ (forall (i : nat) r,
          this_list s !! i = Some (Some r) -> k < Z.of_nat i ->
          this_list s' !! S i = Some (Some r)
          /\ LogLine.index (objects s' r) = LogLine.index (objects s r) + 1
          /\ LogLine.selected (objects s' r) = LogLine.selected (objects s r)
          /\ LogLine.text (objects s' r) = LogLine.text (objects s r))
    /\ this_box s'
       = box_insertLine (k + 1) (sanitize (LogLine.text (objects s line)))
                        (this_box s).
Proof.
  intros Hinv Hline Hk.
  destruct (index_inv_lines s Hinv) as (rs & Hrs & Hnd & Hidx).
  rewrite Hrs, length_fmap in Hk.
  assert (Hline' : line ∉ rs).
  { intros Hin. apply Hline. rewrite Hrs. by apply list_elem_of_fmap_2. }
  destruct (insertAfter_lines s rs line k Hrs Hnd Hline')
    as (s' & E & Hlist & Hl & Htake & Hdrop & _ & Hbox & _); [lia|].
  set (n := Z.to_nat (k + 1)) in *.
  assert (Hn : (n <= length rs)%nat) by lia.
  exists s'. split; [done|]. rewrite Hlist, Hrs.
  split; [|split; [|split; [|split; [|split]]]].
  - rewrite !length_fmap, length_app, length_take. simpl.
    rewrite length_drop. lia.
  - rewrite list_lookup_fmap, lookup_app_r by (rewrite length_take; lia).
    rewrite length_take, Nat.min_l, Nat.sub_diag by done. done.
  - by rewrite Hl.
  - intros i r Hi Hle. rewrite list_lookup_fmap in Hi.
    destruct (rs !! i) as [r'|] eqn:Hr; [|done]. injection Hi as ->.
    split.
    + rewrite list_lookup_fmap, lookup_app_l by (rewrite length_take; lia).
      rewrite lookup_take_lt by lia. by rewrite Hr.
    + apply Htake. apply elem_of_take. exists i. split; [done|lia].
  - intros i r Hi Hlt. rewrite list_lookup_fmap in Hi.
    destruct (rs !! i) as [r'|] eqn:Hr; [|done]. injection Hi as ->.
    assert (Hd : drop n rs !! (i - n)%nat = Some r).
    { rewrite lookup_drop. rewrite <- Hr. f_equal. lia. }
    split.
    + rewrite list_lookup_fmap, lookup_app_r by (rewrite length_take; lia).
      rewrite length_take, Nat.min_l by done.
      replace (S i - n)%nat with (S (i - n)) by lia. simpl. by rewrite Hd.
    + rewrite Hdrop by (by eapply list_elem_of_lookup_2). done.
  - exact Hbox.
Qed.

(** A run of C2: the scenario of the spec, [insertAfter(X, 0)] on the
    buffer [[A]]. *)
Lemma insertAfter_shifts_later_lines_witness :
  exists s',
    insertAfter 3%nat 0 Examples.sA = Done s'
    /\ this_list s' = [Some 0%nat; Some 3%nat]
    /\ LogLine.index (objects s' 3%nat) = 1
    /\ TextBox.rows (this_box s')
       = [lit "A"; [120; RETURN_SYMBOL; SPACE; 121]%N].
Proof.
  destruct (insertAfter_shifts_later_lines Examples.sA 3%nat 0)
    as (s' & E & _ & _ & Hi & _ & _ & Hbox).
  - apply index_inv_indices_of. vm_compute. reflexivity.
  - not_in_literal.
  - simpl. lia.
  - exists s'. split; [exact E|]. split; [|split; [exact Hi|]].
    + vm_compute in E. injection E as <-. reflexivity.
    + rewrite Hbox. vm_compute. reflexivity.
Defined.

Section InsertAfterOutside.
Context {B : Type} `{Box B}.

(** Past the end, the array is extended with holes up to [index - 1]
    and the element is appended: it lands at position [index - 1]. *)
Lemma insert_past_the_end (l : list (option ref)) (index : Z) (line : ref) :
  Z.of_nat (length l) < index ->
  JsArray.insert l index line
  = l ++ replicate (Z.to_nat (index - 1) - length l) None ++ [Some line].
Proof.
  intros Hlen. unfold JsArray.insert.
  set (arr1 := if Z.of_nat (length l) <? index - 1
               then JsArray.set_length (index - 1) l else l).
  assert (Harr1 : arr1 = l ++ replicate (Z.to_nat (index - 1) - length l) None).
  { unfold arr1, JsArray.set_length.
    destruct (Z.ltb_spec (Z.of_nat (length l)) (index - 1)) as [Hlt|Hge].
    - by rewrite take_ge by lia.
    - replace (Z.to_nat (index - 1) - length l)%nat with 0%nat by lia.
      by rewrite app_nil_r. }
  assert (Hlen1 : length arr1 = Z.to_nat (index - 1)).
  { rewrite Harr1, length_app, length_replicate. lia. }
  unfold JsArray.splice_insert, JsArray.relative_start.
  destruct (Z.ltb_spec index 0) as [?|_]; [lia|].
  rewrite Z.min_r by lia.
  rewrite take_ge, drop_ge by lia.
  by rewrite Harr1, <- app_assoc.
Qed.

(** A loop over a list without holes completes. *)
Lemma for_slots_completes {S : Type} (body : ref -> Z -> S -> S)
    (i : Z) (rs : list ref) (s : S) :
  exists s', for_slots body i (Some <$> rs) s = Done s'.
Proof.
  revert i s. induction rs as [|r rs IH]; intros i s; simpl; eauto.
Qed.

Lemma no_hole_lines (l : list (option ref)) :
  None ∉ l -> exists rs, l = Some <$> rs.
Proof.
  intros Hl. apply all_slots_filled. intros i Hi.
  destruct (lookup_lt_is_Some_2 l i Hi) as [[r|] Hr]; [by exists r|].
  destruct Hl. by eapply list_elem_of_lookup_2.
Qed.

End InsertAfterOutside.

(** C4, as the code has it.  [insertAfter] does not look at [afterIndex]
    before it changes the list.
    - With [afterIndex >= length] the call completes: the list is extended
      with holes up to position [afterIndex], [line] is stored there as
      the last entry, [line.index] is [afterIndex + 1], which is not its
      position, no other line is written, and the box is given the row
      [afterIndex + 1].
    - With [afterIndex <= -3] the loop that shifts the indices raises, but
      [line] is in the list by then; the box is not written.
    - With [afterIndex] equal to [-1] or [-2] the call completes on a list
      without holes. *)
Theorem insertAfter_does_not_check_the_index {B : Type} `{Box B}
    (s : State B) (line : ref) (afterIndex : Z) :
  let N := length (this_list s) in
  (Z.of_nat N <= afterIndex ->
     exists s',
       insertAfter line afterIndex s = Done s'
       /\ this_list s'
          = this_list s ++ replicate (Z.to_nat afterIndex - N) None
            ++ [Some line]
       /\ this_list s' !! Z.to_nat afterIndex = Some (Some line)
       /\ length (this_list s') = S (Z.to_nat afterIndex)
       /\ LogLine.index (objects s' line) = afterIndex + 1
       /\ (forall r, r <> line -> objects s' r = objects s r)
       /\ this_box s'
          = box_insertLine (afterIndex + 1)
              (sanitize (LogLine.text (objects s line))) (this_box s))
  /\ (afterIndex <= -3 ->
        exists s',
          insertAfter line afterIndex s = Raised s'
          /\ this_list s'
             = JsArray.splice_insert (afterIndex + 1) line (this_list s)
          /\ Some line ∈ this_list s'
          /\ this_box s' = this_box s)
  /\ ((None ∉ this_list s) -> -2 <= afterIndex <= -1 ->
        exists s',
          insertAfter line afterIndex s = Done s'
          /\ length (this_list s') = S N).
Proof.
  intros N. split; [|split].
  - intros Hk. unfold insertAfter.
    rewrite insert_past_the_end by (fold N; lia). fold N.
    replace (Z.to_nat (afterIndex + 1 - 1)) with (Z.to_nat afterIndex) by lia.
    set (l' := this_list s ++ replicate (Z.to_nat afterIndex - N) None
               ++ [Some line]).
    assert (Hlen : length l' = S (Z.to_nat afterIndex)).
    { unfold l'. rewrite !length_app, length_replicate. simpl. fold N. lia. }
    unfold for_from. simpl.
    destruct (Z.ltb_spec (afterIndex + 1 + 1) 0) as [?|_]; [lia|].
    rewrite drop_ge by lia. simpl.
    eexists. split; [reflexivity|]. simpl.
    split; [done|]. split; [|split; [done|split; [|split]]].
    + unfold l'. rewrite app_assoc, lookup_app_r
        by (rewrite length_app, length_replicate; fold N; lia).
      rewrite length_app, length_replicate. fold N.
      by replace (Z.to_nat afterIndex - (N + (Z.to_nat afterIndex - N)))%nat
        with 0%nat by lia.
    + by rewrite fn_lookup_insert.
    + intros r Hr. by rewrite fn_lookup_insert_ne.
    + unfold toString. by rewrite fn_lookup_insert.
  - intros Hk. unfold insertAfter, for_from. simpl.
    destruct (Z.ltb_spec (afterIndex + 1 + 1) 0) as [_|?]; [|lia]. simpl.
    assert (E : JsArray.insert (this_list s) (afterIndex + 1) line
                = JsArray.splice_insert (afterIndex + 1) line (this_list s)).
    { unfold JsArray.insert.
      by destruct (Z.ltb_spec (Z.of_nat (length (this_list s)))
                              (afterIndex + 1 - 1)) as [?|_]; [lia|]. }
    rewrite E. eexists. split; [reflexivity|]. simpl.
    split; [done|]. split; [|done].
    unfold JsArray.splice_insert. rewrite elem_of_app, elem_of_cons. tauto.
  - intros Hholes Hk. destruct (no_hole_lines _ Hholes) as [rs Hrs].
    unfold insertAfter, for_from. simpl.
    destruct (Z.ltb_spec (afterIndex + 1 + 1) 0) as [?|_]; [lia|].
    assert (E : exists rs', JsArray.insert (this_list s) (afterIndex + 1) line
                            = Some <$> rs' /\ length rs' = S N).
    { unfold JsArray.insert.
      destruct (Z.ltb_spec (Z.of_nat (length (this_list s)))
                           (afterIndex + 1 - 1)) as [?|_]; [lia|].
      unfold JsArray.splice_insert.
      set (m := JsArray.relative_start _ _).
      exists (take m rs ++ line :: drop m rs). split.
      - by rewrite Hrs, fmap_app, fmap_cons, fmap_take, fmap_drop.
      - rewrite length_app. simpl. rewrite length_take, length_drop.
        unfold N. rewrite Hrs, length_fmap. lia. }
    destruct E as (rs' & -> & Hlen). rewrite <- fmap_drop.
    match goal with
    | |- context [for_slots ?body ?i (Some <$> ?l) ?h] =>
        destruct (for_slots_completes body i l h) as [h' ->]
    end.
    simpl. eexists. split; [reflexivity|]. simpl.
    by rewrite length_fmap.
Qed.

(** A run of C4: [insertAfter(X, 1)] on the buffer [[A]]. *)
Lemma insertAfter_does_not_check_the_index_witness :
  exists s',
    insertAfter 3%nat 1 Examples.sA = Done s'
    /\ this_list s' !! 1%nat = Some (Some 3%nat)
    /\ LogLine.index (objects s' 3%nat) = 2.
Proof.
  destruct (proj1 (insertAfter_does_not_check_the_index Examples.sA 3%nat 1))
    as (s' & E & _ & Hat & _ & Hi & _).
  - simpl. lia.
  - exists s'. repeat split; [exact E | exact Hat | exact Hi].
Defined.

(** C4 as the spec words it fails: on the buffer [[A]], where the only
    index is 0, [insertAfter(X, 1)] is not rejected.  It completes, and
    [X] is the second entry of the list with [index == 2]. *)
Lemma insertAfter_past_the_end_is_not_rejected :
  exists s',
    insertAfter 3%nat 1 Examples.sA = Done s'
    /\ this_list s' = [Some 0%nat; Some 3%nat]
    /\ LogLine.index (objects s' 3%nat) = 2
    /\ ~ index_inv s'.
Proof.
  eexists. split; [reflexivity|]. split; [reflexivity|].
  split; [reflexivity|].
  intros Hinv. destruct (Hinv 1%nat) as (r & Hr & Hindex); [simpl; lia|].
  injection Hr as <-. discriminate Hindex.
Qed.

(** ** Deleting positions *)

Section DeleteFacts.
Context {A : Type}.
Implicit Types l : list A.

Lemma delete_past_the_end l (i : nat) :
  (length l <= i)%nat -> delete i l = l.
Proof.
  intros Hi. rewrite delete_take_drop, take_ge, drop_ge by lia.
  by rewrite app_nil_r.
Qed.

Lemma take_delete_later l (m p : nat) :
  (m <= p)%nat -> take m (delete p l) = take m l.
Proof.
  intros Hmp. apply list_eq. intros i. rewrite !lookup_take.
  case_decide; [|done]. apply list_lookup_delete_lt. lia.
Qed.

Lemma foldl_reverse_foldr {S T : Type} (f : S -> T -> S) (a : S)
    (ds : list T) :
  foldl f a (reverse ds) = foldr (fun d acc => f acc d) a ds.
Proof.
  induction ds as [|d ds IH]; [done|].
  rewrite reverse_cons, foldl_app. simpl. by rewrite IH.
Qed.

Lemma survivors_from_app (i : Z) removed l1 l2 :
  survivors_from i removed (l1 ++ l2)
  = survivors_from i removed l1
    ++ survivors_from (i + Z.of_nat (length l1)) removed l2.
Proof.
  revert i. induction l1 as [|x l1 IH]; intros i; simpl.
  - by rewrite Z.add_0_r.
  - rewrite IH. replace (i + 1 + Z.of_nat (length l1))
      with (i + Z.pos (Pos.of_succ_nat (length l1))) by lia.
    by case_decide.
Qed.

Lemma survivors_from_ext (i : Z) r1 r2 l :
  (forall x, i <= x < i + Z.of_nat (length l) -> x ∈ r1 <-> x ∈ r2) ->
  survivors_from i r1 l = survivors_from i r2 l.
Proof.
  revert i. induction l as [|x l IH]; intros i Hext; simpl; [done|].
  simpl in Hext. rewrite IH by (intros; apply Hext; lia).
  assert (Hi : i ∈ r1 <-> i ∈ r2) by (apply Hext; lia).
  repeat case_decide; tauto || done.
Qed.

Lemma survivors_from_all (i : Z) removed l :
  (forall x, x ∈ removed -> x < i \/ i + Z.of_nat (length l) <= x) ->
  survivors_from i removed l = l.
Proof.
  revert i. induction l as [|x l IH]; intros i Hout; simpl; [done|].
  simpl in Hout. rewrite IH.
  - case_decide as Hi; [|done]. apply Hout in Hi. lia.
  - intros y Hy. apply Hout in Hy. lia.
Qed.

Lemma survivors_from_fmap {T : Type} (f : A -> T) (i : Z) removed l :
  f <$> survivors_from i removed l = survivors_from i removed (f <$> l).
Proof.
  revert i. induction l as [|x l IH]; intros i; simpl; [done|].
  case_decide; simpl; by rewrite IH.
Qed.

Lemma elem_of_survivors_from (x : A) (i : Z) removed l :
  x ∈ survivors_from i removed l ->
  exists j : nat, l !! j = Some x /\ (i + Z.of_nat j) ∉ removed.
Proof.
  revert i. induction l as [|y l IH]; intros i; simpl.
  - intros Hx. by apply elem_of_nil in Hx.
  - assert (Hlater : x ∈ survivors_from (i + 1) removed l ->
                     exists j : nat, (y :: l) !! j = Some x
                                     /\ (i + Z.of_nat j) ∉ removed).
    { intros (j & Hj & Hout)%IH. exists (S j). split; [done|].
      by replace (i + Z.of_nat (S j)) with (i + 1 + Z.of_nat j) by lia. }
    case_decide as Hi; [done|].
    intros [->|Hx]%elem_of_cons; [|by apply Hlater].
    exists 0%nat. split; [done|]. by rewrite Z.add_0_r.
Qed.

(** Deleting the position [a], which lies before every position of
    [rest], from what survives [rest]. *)
Lemma delete_first_survivor (a : Z) rest l :
  0 <= a < Z.of_nat (length l) ->
  Forall (fun d => a < d) rest ->
  delete (Z.to_nat a) (survivors rest l) = survivors (a :: rest) l
  /\ (length (survivors rest l)
      = S (length (survivors (a :: rest) l)))%nat.
Proof.
  intros Ha Hrest. rewrite Forall_forall in Hrest.
  destruct (lookup_lt_is_Some_2 l (Z.to_nat a)) as [x Hx]; [lia|].
  rewrite <- (take_drop_middle l _ x Hx).
  set (l1 := take (Z.to_nat a) l). set (l2 := drop (S (Z.to_nat a)) l).
  assert (Hl1 : Z.of_nat (length l1) = a).
  { unfold l1. rewrite length_take. lia. }
  unfold survivors. rewrite !survivors_from_app. simpl. rewrite Hl1.
  rewrite !Z.add_0_l.
  rewrite (survivors_from_all 0 rest l1)
    by (intros y Hy; apply Hrest in Hy; lia).
  rewrite (survivors_from_all 0 (a :: rest) l1)
    by (intros y [->|Hy]%elem_of_cons; [|apply Hrest in Hy]; lia).
  rewrite decide_False by (intros Hin; apply Hrest in Hin; lia).
  rewrite decide_True by apply list_elem_of_here.
  rewrite (survivors_from_ext (a + 1) (a :: rest) rest l2).
  - replace (Z.to_nat a) with (length l1) by lia.
    rewrite delete_middle. split; [done|].
    rewrite !length_app. simpl. lia.
  - intros y Hy. rewrite elem_of_cons. split; [|tauto].
    intros [->|?]; [lia|done].
Qed.

(** Deleted from the last to the first, distinct positions of the list
    take with them the entries that were there. *)
Lemma delete_in_descending_order (asc : list Z) l :
  StronglySorted Z.lt asc ->
  (forall d, d ∈ asc -> 0 <= d < Z.of_nat (length l)) ->
  foldr (fun d acc => delete (Z.to_nat d) acc) l asc = survivors asc l
  /\ (length (survivors asc l) + length asc = length l)%nat.
Proof.
  induction asc as [|a rest IH]; intros Hsorted Hrange; simpl.
  - unfold survivors. rewrite survivors_from_all; [split; [done|lia]|].
    intros x Hx. by apply elem_of_nil in Hx.
  - apply StronglySorted_inv in Hsorted as [Hsorted Hlt].
    destruct IH as [-> Hlen]; [done | |].
    { intros d Hd. apply Hrange. by apply list_elem_of_further. }
    destruct (delete_first_survivor a rest l) as [-> Hlen'].
    { apply Hrange, list_elem_of_here. }
    { done. }
    split; [done|]. lia.
Qed.

Lemma strictly_ascending (ds : list Z) :
  StronglySorted Z.le ds -> NoDup ds -> StronglySorted Z.lt ds.
Proof.
  induction 1 as [|d ds Hs IH Hle]; intros Hnd; [constructor|].
  apply NoDup_cons in Hnd as [Hd Hnd]. constructor; [by apply IH|].
  rewrite Forall_forall in Hle |- *. intros x Hx.
  specialize (Hle x Hx). assert (d <> x) by (by intros ->). lia.
Qed.

End DeleteFacts.

(** ** clearLines *)

Section ClearLinesFacts.
Context {B : Type} `{Box B}.

Lemma set_index_same (l : LogLine.t) :
  LogLine.set_index (LogLine.index l) l = l.
Proof. by destruct l. Qed.

(** With a start that is not negative, [splice(start, 1)] deletes the
    element at [start], if there is one. *)
Lemma splice_delete_at {A : Type} (d : Z) (l : list (option A)) :
  0 <= d -> JsArray.splice_delete d l = delete (Z.to_nat d) l.
Proof.
  intros Hd. unfold JsArray.splice_delete, JsArray.relative_start.
  destruct (Z.ltb_spec d 0) as [?|_]; [lia|].
  destruct (Z.le_gt_cases d (Z.of_nat (length l))).
  - by rewrite Z.min_l by lia.
  - rewrite Z.min_r by lia. by rewrite !delete_past_the_end by lia.
Qed.

(** The loop of [clearLines], field by field. *)
Lemma foldl_clearLine (s : State B) (ds : list Z) :
  this_list (foldl clearLine s ds)
  = foldl (fun l d => JsArray.splice_delete d l) (this_list s) ds
  /\ this_box (foldl clearLine s ds)
     = foldl (fun b d => box_deleteLine d b) (this_box s) ds
  /\ objects (foldl clearLine s ds) = objects s
  /\ same_bookkeeping s (foldl clearLine s ds).
Proof.
  revert s. induction ds as [|d ds IH]; intros s; simpl.
  - by repeat split.
  - destruct (IH (clearLine s d)) as (-> & -> & -> & Hb).
    repeat split; try done; apply Hb.
Qed.

Lemma foldl_splice_delete_lines (rs : list ref) (ds : list Z) :
  (forall d, d ∈ ds -> 0 <= d) ->
  foldl (fun l d => JsArray.splice_delete d l) (Some <$> rs) ds
  = Some <$> foldl (fun l d => delete (Z.to_nat d) l) rs ds.
Proof.
  revert rs. induction ds as [|d ds IH]; intros rs Hds; simpl; [done|].
  rewrite splice_delete_at by (apply Hds, list_elem_of_here).
  rewrite <- list_fmap_delete. apply IH.
  intros d' Hd'. by apply Hds, list_elem_of_further.
Qed.

Lemma foldl_delete_sublist (rs : list ref) (ds : list Z) :
  foldl (fun l d => delete (Z.to_nat d) l) rs ds `sublist_of` rs.
Proof.
  revert rs. induction ds as [|d ds IH]; intros rs; simpl; [done|].
  etrans; [apply IH | apply sublist_delete].
Qed.

Lemma foldl_delete_take (m : nat) (rs : list ref) (ds : list Z) :
  (forall d, d ∈ ds -> Z.of_nat m <= d) ->
  take m (foldl (fun l d => delete (Z.to_nat d) l) rs ds) = take m rs.
Proof.
  revert rs. induction ds as [|d ds IH]; intros rs Hds; simpl; [done|].
  rewrite IH by (intros d' Hd'; by apply Hds, list_elem_of_further).
  apply take_delete_later.
  specialize (Hds d (list_elem_of_here _ _)). lia.
Qed.

Lemma flashsort_elem_of (indices : list Z) (d : Z) :
  d ∈ JsArray.flashsort indices <-> d ∈ indices.
Proof. unfold JsArray.flashsort. by rewrite merge_sort_Permutation. Qed.

(** After [flashsort] the first element is the least one. *)
Lemma flashsort_head (indices : list Z) (m : Z) :
  head (JsArray.flashsort indices) = Some m ->
  m ∈ indices /\ forall d, d ∈ indices -> m <= d.
Proof.
  intros Hm.
  pose proof (StronglySorted_merge_sort Z.le indices) as Hsorted.
  fold (JsArray.flashsort indices) in Hsorted.
  setoid_rewrite <- flashsort_elem_of.
  destruct (JsArray.flashsort indices) as [|m' rest]; [done|].
  injection Hm as ->.
  apply StronglySorted_inv in Hsorted as [_ Hle].
  rewrite Forall_forall in Hle.
  split; [apply list_elem_of_here|].
  intros d [->|Hd]%elem_of_cons; [lia | by apply Hle].
Qed.

Lemma flashsort_head_None (indices : list Z) :
  head (JsArray.flashsort indices) = None -> indices = [].
Proof.
  intros Hm. destruct (JsArray.flashsort indices) eqn:E; [|done].
  apply Permutation_nil_r. rewrite <- E. unfold JsArray.flashsort.
  by rewrite merge_sort_Permutation.
Qed.

(** [clearLines(indices)] with indices that are not negative, on a
    buffer that satisfies the invariant: the call completes, the
    invariant holds again, and only the lines from the least index on
    have been written. *)
Lemma clearLines_lines (s : State B) rs (indices : list Z) :
  this_list s = Some <$> rs -> NoDup rs ->
  (forall (i : nat) r,
     rs !! i = Some r -> LogLine.index (objects s r) = Z.of_nat i) ->
  (forall d, d ∈ indices -> 0 <= d) ->
  let ds := reverse (JsArray.flashsort indices) in
  let rs' := foldl (fun l d => delete (Z.to_nat d) l) rs ds in
  exists s',
    clearLines indices s = Done s'
    /\ index_inv s'
    /\ this_list s' = Some <$> rs'
    /\ this_box s' = foldl (fun b d => box_deleteLine d b) (this_box s) ds
    /\ same_bookkeeping s s'
    /\ (forall r,
          LogLine.selected (objects s' r) = LogLine.selected (objects s r)
          /\ LogLine.text (objects s' r) = LogLine.text (objects s r))
    /\ (forall (i : nat) r,
          rs !! i = Some r -> (forall d, d ∈ indices -> Z.of_nat i < d) ->
          objects s' r = objects s r)
    /\ (forall r, r ∉ rs -> objects s' r = objects s r).
Proof.
  intros Hrs Hnd Hidx Hpos ds rs'. unfold clearLines. fold ds.
  set (s1 := foldl clearLine s ds).
  destruct (foldl_clearLine s ds) as (Hlist & Hbox & Hobj & Hbook).
  fold s1 in Hlist, Hbox, Hobj, Hbook.
  assert (Hds : forall d, d ∈ ds -> d ∈ indices).
  { intros d. unfold ds. by rewrite elem_of_reverse, flashsort_elem_of. }
  rewrite Hrs, foldl_splice_delete_lines in Hlist
    by (intros d Hd; by apply Hpos, Hds).
  fold rs' in Hlist.
  assert (Hnd' : NoDup rs').
  { eapply sublist_NoDup; [exact Hnd | apply foldl_delete_sublist]. }
  set (start := match head (JsArray.flashsort indices) with
                | Some m => m | None => 0 end).
  assert (Hstart : 0 <= start
                   /\ (forall d, d ∈ indices -> start <= d)
                   /\ (indices = [] \/ start ∈ indices)).
  { unfold start. destruct (head (JsArray.flashsort indices)) as [m|] eqn:Hm.
    - destruct (flashsort_head _ _ Hm) as [Hin Hle]. auto.
    - apply flashsort_head_None in Hm as ->. split; [lia|].
      split; [|by left]. intros d Hd. by apply elem_of_nil in Hd. }
  destruct Hstart as (Hstart & Hleast & Hwhich).
  assert (Hprefix : take (Z.to_nat start) rs' = take (Z.to_nat start) rs).
  { apply foldl_delete_take. intros d Hd.
    specialize (Hleast d (Hds d Hd)). lia. }
  assert (Hsame : forall (i : nat) r,
             Z.of_nat i < start -> rs' !! i = Some r <-> rs !! i = Some r).
  { intros i r Hi.
    rewrite <- (lookup_take_lt rs' (Z.to_nat start) i) by lia.
    rewrite <- (lookup_take_lt rs (Z.to_nat start) i) by lia.
    by rewrite Hprefix. }
  assert (Erun : reIndex (head (JsArray.flashsort indices)) s1
                 = reIndex (Some start) s1).
  { unfold start. by destruct (head (JsArray.flashsort indices)). }
  rewrite Erun.
  destruct (reIndex_restores s1 rs' start Hlist Hnd' Hstart)
    as (s' & E & Hinv & Hl' & Hb' & Hbook' & Hfields & Hkeep & Hout).
  { intros i r Hi Hlt. rewrite Hobj. apply Hidx. by apply Hsame. }
  exists s'. split; [done|]. split; [done|].
  split; [by rewrite Hl'|]. split; [by rewrite Hb'|].
  split.
  { destruct Hbook as (?&?&?&?&?&?), Hbook' as (?&?&?&?&?&?).
    repeat split; congruence. }
  split.
  { intros r. rewrite <- Hobj. apply Hfields. }
  split.
  - intros i r Hi Hbefore. rewrite <- Hobj.
    destruct Hwhich as [->|Hin].
    + (* nothing to remove: the line is written with its own index *)
      assert (rs' = rs) as Hrs' by done.
      destruct (index_inv_lines s' Hinv) as (rs2 & Hl2 & _ & Hidx2).
      rewrite Hl', Hlist, Hrs' in Hl2.
      apply (inj (fmap Some)) in Hl2 as <-.
      destruct (Hfields r) as [Hsel Htxt].
      specialize (Hidx2 i r Hi). specialize (Hidx i r Hi).
      rewrite <- Hobj in Hidx.
      destruct (objects s' r), (objects s1 r). simpl in *. congruence.
    + specialize (Hbefore start Hin).
      apply (Hkeep i); [by apply Hsame | done].
  - intros r Hr. rewrite <- Hobj. apply Hout. intros Hin. apply Hr.
    eapply elem_of_sublist; [exact Hin | apply foldl_delete_sublist].
Qed.

(** A call of [clearLines] that completes had no negative index. *)
Lemma clearLines_Done_nonneg (s s' : State B) (indices : list Z) :
  clearLines indices s = Done s' -> forall d, d ∈ indices -> 0 <= d.
Proof.
  unfold clearLines, reIndex, for_from. intros Hrun d Hd.
  destruct (head (JsArray.flashsort indices)) as [m|] eqn:Hm.
  - destruct (flashsort_head _ _ Hm) as [_ Hle].
    destruct (Z.ltb_spec m 0) as [?|?]; [done|].
    specialize (Hle d Hd). lia.
  - apply flashsort_head_None in Hm as ->. by apply elem_of_nil in Hd.
Qed.

Lemma clearLines_preserves (s s' : State B) (indices : list Z) :
  index_inv s -> clearLines indices s = Done s' -> index_inv s'.
Proof.
  intros Hinv Hrun.
  destruct (index_inv_lines s Hinv) as (rs & Hrs & Hnd & Hidx).
  destruct (clearLines_lines s rs indices Hrs Hnd Hidx)
    as (s2 & E & Hinv' & _).
  { by eapply clearLines_Done_nonneg. }
  rewrite E in Hrun. by injection Hrun as <-.
Qed.

(** Distinct positions of the list, deleted in the order of
    [clearLines]. *)
Lemma clearLines_survivors (rs : list ref) (indices : list Z) :
  NoDup indices ->
  (forall d, d ∈ indices -> 0 <= d < Z.of_nat (length rs)) ->
  foldl (fun l d => delete (Z.to_nat d) l) rs
        (reverse (JsArray.flashsort indices))
  = survivors indices rs
  /\ (length (survivors indices rs) + length indices = length rs)%nat.
Proof.
  intros Hnd Hrange. rewrite foldl_reverse_foldr.
  assert (Hperm : JsArray.flashsort indices ≡ₚ indices)
    by apply merge_sort_Permutation.
  destruct (delete_in_descending_order (JsArray.flashsort indices) rs)
    as [-> Hlen].
  - apply strictly_ascending; [apply StronglySorted_merge_sort; apply _|].
    by rewrite Hperm.
  - intros d Hd. apply Hrange. by apply flashsort_elem_of.
  - assert (E : survivors (JsArray.flashsort indices) rs
                = survivors indices rs).
    { apply survivors_from_ext. intros x _. apply flashsort_elem_of. }
    rewrite E in *. split; [done|].
    rewrite <- (Permutation_length Hperm). exact Hlen.
Qed.

End ClearLinesFacts.

(** C3.  On a buffer that satisfies the invariant, let [removeLine(index)]
    address a line whose traversal gives [C + 1] distinct indices of the
    buffer, its own among them (the line and its [C] descendants).  Then
    the call completes; exactly the [C + 1] entries at these indices are
    gone, the addressed line with them, and the others stay in their
    order; the box has been told to delete the same rows, from the
    greatest index down to the least; the lines before the least removed
    index are not written, the others are reindexed, and the invariant
    holds again; one render has been asked for. *)
Theorem removeLine_removes_the_subtree {B : Type} `{Box B}
    (getAllIndices : (ref -> LogLine.t) -> ref -> list Z)
    (s : State B) (indexToRemove : Z) (line : ref) (C : nat) :
  index_inv s ->
  JsArray.get (this_list s) indexToRemove = Some line ->
  let indices := getAllIndices (objects s) line in
  let descending := reverse (JsArray.flashsort indices) in
  length indices = S C ->
  NoDup indices ->
  indexToRemove ∈ indices ->
  (forall d, d ∈ indices -> 0 <= d < Z.of_nat (length (this_list s))) ->
  exists s',
    removeLine getAllIndices indexToRemove s = Done s'
    /\ (length (this_list s') + S C = length (this_list s))%nat
    /\ this_list s' = survivors indices (this_list s)
    /\ (Some line ∉ this_list s')
    /\ this_box s'
       = foldl (fun b d => box_deleteLine d b) (this_box s) descending
    /\ Sorted (flip Z.lt) descending
    /\ descending ≡ₚ indices
    /\ index_inv s'
    /\ (forall (i : nat) r,
          this_list s !! i = Some (Some r) ->
          (forall d, d ∈ indices -> Z.of_nat i < d) ->
          this_list s' !! i = Some (Some r) /\ objects s' r = objects s r)
    /\ (forall r,
          LogLine.selected (objects s' r) = LogLine.selected (objects s r)
          /\ LogLine.text (objects s' r) = LogLine.text (objects s r))
    /\ render_calls s' = S (render_calls s).
Proof.
  intros Hinv Hget indices descending HC Hnd Hown Hrange.
  destruct (index_inv_lines s Hinv) as (rs & Hrs & Hndrs & Hidx).
  rewrite Hrs, length_fmap in Hrange.
  destruct (clearLines_lines s rs indices Hrs Hndrs Hidx)
    as (s1 & E & Hinv1 & Hlist1 & Hbox1 & Hbook1 & Hfields1 & Hkeep1 & _).
  { intros d Hd. apply Hrange in Hd. lia. }
  destruct (clearLines_survivors rs indices Hnd Hrange) as [Hsurv Hlen].
  fold descending in Hsurv, Hlist1, Hbox1.
  assert (Hat : 0 <= indexToRemove
                /\ rs !! Z.to_nat indexToRemove = Some line).
  { unfold JsArray.get in Hget.
    destruct (Z.ltb_spec indexToRemove 0) as [?|?]; [done|].
    split; [done|]. rewrite Hrs, list_lookup_fmap in Hget.
    destruct (rs !! Z.to_nat indexToRemove) as [r|]; [|done].
    simpl in Hget. by injection Hget as ->. }
  unfold removeLine. rewrite Hget. fold indices. rewrite E. simpl.
  eexists. split; [reflexivity|]. simpl.
  rewrite Hlist1, Hsurv, Hrs, !length_fmap, <- HC.
  split; [exact Hlen|]. split; [apply survivors_from_fmap|].
  split.
  { rewrite list_elem_of_fmap. intros (r & [= <-] & Hin).
    apply elem_of_survivors_from in Hin as (j & Hj & Hout).
    destruct Hat as [Hpos Hline].
    pose proof (NoDup_lookup _ _ _ _ Hndrs Hj Hline) as ->.
    apply Hout. by replace (0 + Z.of_nat (Z.to_nat indexToRemove))
                     with indexToRemove by lia. }
  split; [exact Hbox1|]. split; [|split; [|split; [|split; [|split]]]].
  - apply Sorted_reverse, StronglySorted_Sorted, strictly_ascending.
    + apply StronglySorted_merge_sort; apply _.
    + unfold JsArray.flashsort. by rewrite merge_sort_Permutation.
  - unfold descending, JsArray.flashsort.
    by rewrite reverse_Permutation, merge_sort_Permutation.
  - intros i Hi. apply (Hinv1 i Hi).
  - intros i r Hi Hbefore. rewrite list_lookup_fmap in Hi.
    destruct (rs !! i) as [r'|] eqn:Hr; [|done]. injection Hi as ->.
    split; [|by apply (Hkeep1 i)].
    rewrite <- Hsurv, list_lookup_fmap.
    rewrite <- (lookup_take_lt _ (S i) i) by lia.
    rewrite foldl_delete_take.
    + rewrite lookup_take_lt by lia. by rewrite Hr.
    + intros d Hd. unfold descending in Hd.
      rewrite elem_of_reverse, flashsort_elem_of in Hd.
      specialize (Hbefore d Hd). lia.
  - exact Hfields1.
  - destruct Hbook1 as (_ & _ & -> & _). done.
Qed.

(** A run of C3: in [[A, B, C]], where [B] is the child of [A],
    [removeLine(0)] leaves [[C]], with [C.index == 0]. *)
Lemma removeLine_removes_the_subtree_witness :
  exists s',
    removeLine Examples.children_of_A 0 Examples.sABC = Done s'
    /\ this_list s' = [Some 2%nat]
    /\ index_inv s'.
Proof.
  assert (Hidx : Examples.children_of_A (objects Examples.sABC) 0%nat = [0; 1])
    by (vm_compute; reflexivity).
  destruct (removeLine_removes_the_subtree
              Examples.children_of_A Examples.sABC 0 0%nat 1%nat)
    as (s' & E & _ & Hlist & _ & _ & _ & _ & Hinv & _).
  - apply index_inv_indices_of. vm_compute. reflexivity.
  - vm_compute. reflexivity.
  - rewrite Hidx. reflexivity.
  - rewrite Hidx. apply NoDup_cons. split; [not_in_literal|].
    apply NoDup_cons. split; [not_in_literal|]. apply NoDup_nil_2.
  - rewrite Hidx. apply list_elem_of_here.
  - rewrite Hidx. intros d Hd.
    apply elem_of_cons in Hd as [->|Hd];
      [vm_compute; split; [discriminate|reflexivity]|].
    apply elem_of_cons in Hd as [->|Hd];
      [vm_compute; split; [discriminate|reflexivity]|].
    apply elem_of_nil in Hd as [].
  - exists s'. split; [exact E|]. split; [|exact Hinv].
    rewrite Hlist. vm_compute. reflexivity.
Defined.

(** The scenario of the spec: in [[A, B, C]], where no line has
    children, [removeLine(1)] leaves [[A, C]] with [A.index == 0] and
    [C.index == 1]. *)
Example removeLine_scenario :
  exists s',
    removeLine (fun h r => [LogLine.index (h r)]) 1 Examples.sABC = Done s'
    /\ this_list s' = [Some 0%nat; Some 2%nat]
    /\ LogLine.index (objects s' 0%nat) = 0
    /\ LogLine.index (objects s' 2%nat) = 1.
Proof.
  eexists. split; [vm_compute; reflexivity|].
  repeat split; vm_compute; reflexivity.
Qed.

(** C10.  On a buffer that satisfies the invariant, [clearLines([])]
    completes and changes nothing: the list is the same, every object is
    the same (its index with it), the box has received no call, and the
    other fields are the same. *)
Theorem clearLines_of_nothing_changes_nothing {B : Type} `{Box B}
    (s : State B) :
  index_inv s ->
  exists s',
    clearLines [] s = Done s'
    /\ this_list s' = this_list s
    /\ (forall r, objects s' r = objects s r)
    /\ this_box s' = this_box s
    /\ same_bookkeeping s s'.
Proof.
  intros Hinv.
  destruct (index_inv_lines s Hinv) as (rs & Hrs & Hnd & Hidx).
  destruct (clearLines_lines s rs [] Hrs Hnd Hidx)
    as (s' & E & _ & Hlist & Hbox & Hbook & _ & Hin & Hout).
  { intros d Hd. by apply elem_of_nil in Hd. }
  exists s'. split; [exact E|]. split; [by rewrite Hlist, Hrs|].
  split; [|by split].
  intros r. destruct (decide (r ∈ rs)) as [[i Hi]%list_elem_of_lookup_1|Hr].
  - apply (Hin i r Hi). intros d Hd. by apply elem_of_nil in Hd.
  - by apply Hout.
Qed.

(** A run of C10, on the buffer [[A, B, C]]. *)
Lemma clearLines_of_nothing_changes_nothing_witness :
  exists s',
    clearLines [] Examples.sABC = Done s'
    /\ this_list s' = this_list Examples.sABC
    /\ this_box s' = this_box Examples.sABC.
Proof.
  destruct (clearLines_of_nothing_changes_nothing Examples.sABC)
    as (s' & E & Hlist & _ & Hbox & _).
  - apply index_inv_indices_of. vm_compute. reflexivity.
  - exists s'. split; [exact E|]. split; [exact Hlist | exact Hbox].
Defined.

(** ** The invariant in every reachable state *)

Section PreservationFacts.
Context {B : Type} `{Box B}.

(** What [scrollAlong] and [_setLine] change is the box and the count
    of renders. *)
Lemma scrollAlong_lines (or_render : option bool) (s : State B) :
  this_list (scrollAlong or_render s) = this_list s
  /\ objects (scrollAlong or_render s) = objects s
  /\ list_selectedLine (scrollAlong or_render s) = list_selectedLine s.
Proof.
  unfold scrollAlong, scroll, render.
  destruct (scrollDown s), (scrolledManually s), or_render as [[]|];
    simpl; repeat case_match; done.
Qed.

Lemma pushLine_lines (line : ref) (defer : bool) (s : State B) :
  this_list (pushLine line defer s) = this_list s ++ [Some line]
  /\ objects (pushLine line defer s)
     = <[line := LogLine.set_index (Z.of_nat (length (this_list s)))
                                   (objects s line)]> (objects s)
  /\ list_selectedLine (pushLine line defer s) = list_selectedLine s.
Proof.
  unfold pushLine, JsArray.push. rewrite Z.add_simpl_r.
  destruct defer; [done|]. cbn [negb].
  set (s3 := _setLine _ _ _).
  destruct (scrollAlong_lines (Some false) s3) as (Hl & Ho & Hs).
  destruct (scrollDown s3); [rewrite Hl, Ho, Hs|]; done.
Qed.

Lemma runImmediate_lines (s : State B) :
  this_list (runImmediate s) = this_list s
  /\ objects (runImmediate s) = objects s
  /\ list_selectedLine (runImmediate s) = list_selectedLine s.
Proof.
  unfold runImmediate, deferAndRenderLine.
  destruct (immediates s) as [|line q]; [done|].
  match goal with
  | |- context [scrollAlong ?o ?s1] =>
      destruct (scrollAlong_lines o s1) as (-> & -> & ->)
  end.
  done.
Qed.

Lemma pushLine_preserves (line : ref) (defer : bool) (s : State B) :
  index_inv s -> Some line ∉ this_list s ->
  index_inv (pushLine line defer s).
Proof.
  intros Hinv Hline.
  destruct (index_inv_lines s Hinv) as (rs & Hrs & Hnd & Hidx).
  destruct (pushLine_lines line defer s) as (Hl & Ho & _).
  apply (lines_index_inv _ (rs ++ [line])).
  { by rewrite Hl, Hrs, fmap_app. }
  rewrite Ho, Hrs, length_fmap. intros i r Hi.
  apply lookup_app_Some in Hi as [Hi|[Hlen Hi]].
  - rewrite fn_lookup_insert_ne; [by apply Hidx|].
    intros <-. apply Hline. rewrite Hrs.
    apply list_elem_of_fmap_2. by eapply list_elem_of_lookup_2.
  - apply list_lookup_singleton_Some in Hi as [Hi <-].
    rewrite fn_lookup_insert. simpl. lia.
Qed.

Lemma environment_preserves (s s' : State B) :
  index_inv s -> environment s s' -> index_inv s'.
Proof.
  intros Hinv (Hl & Hi) i Hlt. rewrite Hl in *.
  destruct (Hinv i Hlt) as (r & Hr & Hindex).
  exists r. by rewrite Hi.
Qed.

Lemma reIndex_preserves (start : option Z) (s s' : State B) :
  index_inv s -> reIndex start s = Done s' -> index_inv s'.
Proof.
  intros Hinv Hrun.
  destruct (index_inv_lines s Hinv) as (rs & Hrs & Hnd & Hidx).
  set (n := match start with Some n => n | None => 0 end).
  assert (E : reIndex start s = reIndex (Some n) s) by (by destruct start).
  rewrite E in Hrun.
  destruct (Z.lt_ge_cases n 0) as [Hneg|Hpos].
  - unfold reIndex, for_from in Hrun.
    by destruct (Z.ltb_spec n 0) as [_|?]; [|lia].
  - destruct (reIndex_restores s rs n Hrs Hnd) as (s2 & E2 & Hinv2 & _);
      [lia | by intros; apply Hidx |].
    rewrite E2 in Hrun. by injection Hrun as <-.
Qed.

Lemma removeLine_preserves getAllIndices (k : Z) (s s' : State B) :
  index_inv s -> removeLine getAllIndices k s = Done s' -> index_inv s'.
Proof.
  intros Hinv. unfold removeLine.
  destruct (JsArray.get (this_list s) k) as [line|]; [|by intros [= <-]].
  destruct (clearLines _ s) as [s1|s1] eqn:E; [|done].
  intros [= <-]. by apply (clearLines_preserves _ _ _ Hinv E).
Qed.

End PreservationFacts.

(** C1.  In every state of a [LogList], that is, after any sequence of
    completed calls of [pushLine], [insertAfter] with an existing index,
    [removeLine], [clearLines], [clearScreen] and [reIndex] (and of what
    the rest of the program does in between), [list[i].index == i] for
    every [i] below the length: read through the list, the indices are
    [0, 1, ..., length - 1]. *)
Theorem reachable_index_inv {B : Type} `{Box B}
    (getAllIndices : (ref -> LogLine.t) -> ref -> list Z) (s : State B) :
  reachable getAllIndices s ->
  index_inv s
  /\ indices_of s
     = (fun i : nat => Some (Z.of_nat i)) <$> seq 0 (length (this_list s)).
Proof.
  intros Hreach.
  assert (Hinv : index_inv s); [|by split; [|apply index_inv_contiguous]].
  induction Hreach as [h box | s s' _ IH Henv
                 | s line defer _ IH Hline | s _ IH
                 | s line k s' _ IH Hline Hk Hrun
                 | s k s' _ IH Hrun | s indices s' _ IH Hrun
                 | s _ IH | s start s' _ IH Hrun].
  - intros i Hi. simpl in Hi. lia.
  - by eapply environment_preserves.
  - by apply pushLine_preserves.
  - destruct (runImmediate_lines s) as (Hl & Ho & _).
    intros i Hi. rewrite Hl in *. rewrite Ho. by apply IH.
  - destruct (index_inv_lines s IH) as (rs & Hrs & Hnd & Hidx).
    rewrite Hrs, length_fmap in Hk.
    eapply (insertAfter_lines_inv s rs line k); eauto; [|lia].
    intros Hin. apply Hline. rewrite Hrs. by apply list_elem_of_fmap_2.
  - by eapply removeLine_preserves.
  - by eapply clearLines_preserves.
  - intros i Hi. simpl in Hi. lia.
  - by eapply reIndex_preserves.
Qed.

(** A run of C1: the buffer [[A, B, C]] built by three calls of
    [pushLine]. *)
Lemma reachable_index_inv_witness :
  indices_of Examples.sABC = [Some 0; Some 1; Some 2].
Proof.
  apply (reachable_index_inv Examples.children_of_A).
  unfold Examples.sABC.
  apply reach_pushLine; [apply reach_pushLine; [apply reach_pushLine|]|].
  - apply reach_new.
  - not_in_literal.
  - vm_compute. not_in_literal.
  - vm_compute. not_in_literal.
Defined.

(* ===================================================================== *)
(** * More of the code                                                    *)
(* ===================================================================== *)

(** Membership in a list of named characters. *)
Ltac not_in_characters :=
  let H := fresh "H" in
  intros H;
  repeat (apply elem_of_cons in H as [H|H];
          [by (vm_compute in H; discriminate H)|]);
  by apply elem_of_nil in H.

(** ** esc and stripEsc *)

Section EscapeFacts.

(** The two functions, one step at a time. *)
Lemma sgr_params_digit (seen : bool) c c' s :
  is_digit c = true ->
  sgr_params seen (c :: c' :: s)
  = if (c' =? SEMICOLON)%N then sgr_params true s
    else sgr_params true (c' :: s).
Proof. intros Hc. simpl. by rewrite Hc. Qed.

Lemma sgr_params_other (seen : bool) c s :
  is_digit c = false ->
  sgr_params seen (c :: s)
  = if seen && (c =? LETTER_m)%N then Some s else None.
Proof. intros Hc. simpl. by rewrite Hc. Qed.

Lemma is_sgr_code_step c c' s :
  is_sgr_code (c :: c' :: s)
  = is_digit c
    && (if (c' =? SEMICOLON)%N
        then match s with [] => true | _ => is_sgr_code s end
        else is_sgr_code (c' :: s)).
Proof. done. Qed.

(** What [(\d\;?)+m] matches is a run of characters that is not empty. *)
Lemma sgr_params_Some (seen : bool) s rest :
  sgr_params seen s = Some rest ->
  exists run, s = run ++ rest /\ (0 < length run)%nat.
Proof.
  remember (length s) as n eqn:Hn. revert seen s rest Hn.
  induction n as [n IH] using lt_wf_ind. intros seen [|c s1] rest Hn; [done|].
  destruct (is_digit c) eqn:Hc.
  - destruct s1 as [|c1 s2]; [by simpl; rewrite Hc|].
    rewrite sgr_params_digit by done.
    destruct (c1 =? SEMICOLON)%N.
    + intros (run & -> & _)%(IH (length s2)); [|simpl in *; lia|done].
      exists (c :: c1 :: run). split; [done|simpl; lia].
    + intros (run & E & _)%(IH (length (c1 :: s2))); [|simpl in *; lia|done].
      exists (c :: run). rewrite E. split; [done|simpl; lia].
  - rewrite sgr_params_other by done.
    destruct (seen && (c =? LETTER_m)%N); [|done].
    intros [= <-]. exists [c]. split; [done|simpl; lia].
Qed.

(** A code that [(\d\;?)+] matches wholly, followed by [m], is matched
    up to the [m]. *)
Lemma sgr_params_code (seen : bool) code rest :
  is_sgr_code code = true ->
  sgr_params seen (code ++ LETTER_m :: rest) = Some rest.
Proof.
  remember (length code) as n eqn:Hn. revert seen code Hn.
  induction n as [n IH] using lt_wf_ind. intros seen [|c code1] Hn; [done|].
  destruct code1 as [|c1 code2].
  - simpl. destruct (is_digit c); [done|]. by rewrite andb_false_l.
  - rewrite is_sgr_code_step. intros [Hc Hrest]%andb_prop.
    rewrite <- !app_comm_cons, sgr_params_digit by done.
    destruct (c1 =? SEMICOLON)%N.
    + destruct code2 as [|c2 code3]; [done|].
      apply (IH (length (c2 :: code3))); [simpl in *; lia|done|done].
    + rewrite app_comm_cons.
      apply (IH (length (c1 :: code2))); [simpl in *; lia|done|done].
Qed.

(** Such a code holds digits and semicolons only. *)
Lemma sgr_code_characters code :
  is_sgr_code code = true ->
  Forall (fun c => is_digit c = true \/ c = SEMICOLON) code.
Proof.
  remember (length code) as n eqn:Hn. revert code Hn.
  induction n as [n IH] using lt_wf_ind. intros [|c code1] Hn; [done|].
  destruct code1 as [|c1 code2].
  - simpl. rewrite andb_true_r. intros Hc. constructor; [by left|constructor].
  - rewrite is_sgr_code_step. intros [Hc Hrest]%andb_prop.
    constructor; [by left|].
    destruct (N.eqb_spec c1 SEMICOLON) as [->|Hc1].
    + constructor; [by right|]. destruct code2 as [|c2 code3]; [done|].
      apply (IH (length (c2 :: code3))); [simpl in *; lia|done|done].
    + apply (IH (length (c1 :: code2))); [simpl in *; lia|done|done].
Qed.

Lemma sgr_code_no_ESC code : is_sgr_code code = true -> ESC ∉ code.
Proof.
  intros Hall%sgr_code_characters Hin.
  rewrite Forall_forall in Hall. by destruct (Hall _ Hin) as [?| ?].
Qed.

(** An escape character stops the match: what comes after it plays no
    part. *)
Lemma sgr_params_before_ESC (seen : bool) t y :
  sgr_params seen (t ++ ESC :: y)
  = (fun rest => rest ++ ESC :: y) <$> sgr_params seen t.
Proof.
  remember (length t) as n eqn:Hn. revert seen t Hn.
  induction n as [n IH] using lt_wf_ind. intros seen [|c t1] Hn.
  - simpl. by rewrite andb_false_r.
  - destruct (is_digit c) eqn:Hc.
    + destruct t1 as [|c1 t2].
      * simpl. by rewrite Hc.
      * rewrite <- !app_comm_cons, !sgr_params_digit by done.
        destruct (c1 =? SEMICOLON)%N.
        -- apply (IH (length t2)); [simpl in *; lia|done].
        -- rewrite app_comm_cons.
           apply (IH (length (c1 :: t2))); [simpl in *; lia|done].
    + rewrite <- app_comm_cons, !sgr_params_other by done.
      by destruct (seen && (c =? LETTER_m)%N).
Qed.

Lemma sequence_at_before_ESC c s y :
  sequence_at ((c :: s) ++ ESC :: y)
  = (fun rest => rest ++ ESC :: y) <$> sequence_at (c :: s).
Proof.
  unfold sequence_at. rewrite <- app_comm_cons. cbn [strip_prefix].
  destruct (ESC =? c)%N; [|done].
  destruct s as [|c1 t]; cbn [app strip_prefix]; [done|].
  destruct (LBRACKET =? c1)%N; [|done].
  apply sgr_params_before_ESC.
Qed.

Lemma sequence_at_Some s rest :
  sequence_at s = Some rest ->
  exists run, s = ESC :: run ++ rest /\ (0 < length run)%nat.
Proof.
  unfold sequence_at.
  destruct (strip_prefix [ESC; LBRACKET] s) as [t|] eqn:Ht; [|done].
  apply strip_prefix_Some in Ht as ->.
  intros (run & -> & _)%sgr_params_Some.
  exists (LBRACKET :: run). split; [done|simpl; lia].
Qed.

Lemma sequence_at_no_ESC c s : c <> ESC -> sequence_at (c :: s) = None.
Proof.
  intros Hc. unfold sequence_at. cbn [strip_prefix].
  by destruct (N.eqb_spec ESC c) as [<-|_].
Qed.

Lemma remove_sequences_skip l1 l2 :
  remove_sequences (length l1) (l1 ++ l2) = remove_sequences 0 l2.
Proof. induction l1 as [|c l1 IH]; [done|]. simpl. exact IH. Qed.

(** A match at the head is dropped and the scan goes on after it. *)
Lemma remove_sequences_match s rest :
  sequence_at s = Some rest ->
  remove_sequences 0 s = remove_sequences 0 rest.
Proof.
  intros Hs. destruct (sequence_at_Some _ _ Hs) as (run & -> & _).
  cbn [remove_sequences]. rewrite Hs.
  replace (length (run ++ rest) - length rest)%nat with (length run)
    by (rewrite length_app; lia).
  apply remove_sequences_skip.
Qed.

Lemma remove_sequences_before_ESC (k : nat) s y :
  (k <= length s)%nat ->
  remove_sequences k (s ++ ESC :: y)
  = remove_sequences k s ++ remove_sequences 0 (ESC :: y).
Proof.
  revert k. induction s as [|c s IH]; intros k Hk.
  - by replace k with 0%nat by (simpl in Hk; lia).
  - destruct k as [|k].
    + change ((c :: s) ++ ESC :: y) with (c :: (s ++ ESC :: y)).
      cbn [remove_sequences].
      change (c :: (s ++ ESC :: y)) with ((c :: s) ++ ESC :: y).
      rewrite sequence_at_before_ESC.
      destruct (sequence_at (c :: s)) as [rest|] eqn:Hs; simpl.
      * destruct (sequence_at_Some _ _ Hs) as (run & [= _ ->] & _).
        rewrite <- IH by (rewrite length_app; lia).
        f_equal. rewrite !length_app. simpl. lia.
      * by rewrite IH by lia.
    + simpl. apply IH. simpl in Hk. lia.
Qed.

Lemma remove_sequences_no_ESC s rest :
  (ESC ∉ s) ->
  remove_sequences 0 (s ++ rest) = s ++ remove_sequences 0 rest.
Proof.
  induction s as [|c s IH]; intros Hs; [done|].
  apply not_elem_of_cons in Hs as [Hc Hs].
  change ((c :: s) ++ rest) with (c :: (s ++ rest)).
  cbn [remove_sequences]. rewrite sequence_at_no_ESC by done.
  by rewrite IH.
Qed.

Lemma remove_sequences_sublist (k : nat) s :
  remove_sequences k s `sublist_of` s.
Proof.
  remember (length s) as n eqn:Hn. revert k s Hn.
  induction n as [n IH] using lt_wf_ind. intros k [|c s] Hn; [done|].
  destruct k as [|k]; cbn [remove_sequences].
  - destruct (sequence_at (c :: s)) as [rest|].
    + apply sublist_cons. apply (IH (length s)); [simpl in *; lia|done].
    + apply sublist_skip. apply (IH (length s)); [simpl in *; lia|done].
  - apply sublist_cons. apply (IH (length s)); [simpl in *; lia|done].
Qed.

Lemma remove_first_literal_sublist s :
  remove_first_literal s `sublist_of` s.
Proof.
  induction s as [|c s IH]; simpl.
  - by destruct (literal_at []).
  - destruct (literal_at (c :: s)) as [rest|] eqn:Hl; [|by apply sublist_skip].
    unfold literal_at in Hl.
    destruct (strip_prefix _ (c :: s)) as [[|c0 t]|] eqn:Hp; try done.
    apply strip_prefix_Some in Hp.
    destruct ((c0 =? LETTER_b) || (c0 =? LETTER_B))%N; [|done].
    destruct (strip_prefix [LBRACKET] t) as [t'|] eqn:Hp'; [|done].
    apply strip_prefix_Some in Hp' as ->.
    apply sgr_params_Some in Hl as (run & -> & _).
    rewrite Hp. simpl.
    do 7 apply sublist_cons. apply sublist_inserts_l. done.
Qed.

Lemma remove_first_literal_no_backslash s :
  (BACKSLASH ∉ s) -> remove_first_literal s = s.
Proof.
  induction s as [|c s IH]; intros Hs; [done|].
  apply not_elem_of_cons in Hs as [Hc Hs]. cbn [remove_first_literal].
  unfold literal_at. cbn [strip_prefix].
  destruct (N.eqb_spec BACKSLASH c) as [<-|_]; [done|].
  by rewrite IH.
Qed.

(** The text that spells the escape with [code] in source text, as the
    second pattern of [stripEsc] looks for it. *)
Lemma literal_at_code (b : char16) code rest :
  b = LETTER_b \/ b = LETTER_B ->
  is_sgr_code code = true ->
  literal_at ([BACKSLASH; LETTER_u; DIGIT_0; DIGIT_0; DIGIT_1; b; LBRACKET]
              ++ code ++ LETTER_m :: rest)
  = Some rest.
Proof.
  intros Hb Hcode. unfold literal_at. simpl.
  assert (((b =? LETTER_b) || (b =? LETTER_B))%N = true) as ->.
  { by destruct Hb as [-> | ->]. }
  by apply sgr_params_code.
Qed.

(** What [esc] wraps around a text is removed, wherever it stands. *)
Lemma remove_sequences_esc before code endcode str rest :
  is_sgr_code code = true ->
  is_sgr_code (match endcode with Some e => e | None => [DIGIT_0] end) = true ->
  remove_sequences 0 (before ++ esc code (Some str) endcode ++ rest)
  = remove_sequences 0 before ++ remove_sequences 0 str
    ++ remove_sequences 0 rest.
Proof.
  intros Hcode Hend. unfold esc. rewrite <- !app_assoc. cbn [app].
  rewrite remove_sequences_before_ESC by lia. f_equal.
  rewrite (remove_sequences_match _ (str ++
     ESC :: LBRACKET :: match endcode with Some e => e | None => [DIGIT_0] end
     ++ LETTER_m :: rest)).
  2:{ unfold sequence_at. cbn [strip_prefix]. rewrite !N.eqb_refl.
      by apply sgr_params_code. }
  rewrite remove_sequences_before_ESC by lia. f_equal.
  apply remove_sequences_match. unfold sequence_at. cbn [strip_prefix].
  rewrite !N.eqb_refl. by apply sgr_params_code.
Qed.

End EscapeFacts.

(** X1.  With a code and an end code that [(\d\;?)+] matches (the end code
    being [0] when none is given), [stripEsc] undoes [esc]: the escape
    alone strips to nothing, and a text wrapped by [esc] strips to what
    the text itself strips to, whatever the text is; so a text without
    escape character comes back as it was, also when it has been wrapped
    twice. *)
Theorem stripEsc_undoes_esc (code : jsstring) (endcode : option jsstring)
    (str : jsstring) :
  is_sgr_code code = true ->
  is_sgr_code (match endcode with Some e => e | None => [DIGIT_0] end) = true ->
  stripEsc (esc code None None) false = []
  /\ stripEsc (esc code (Some str) endcode) false = stripEsc str false
  /\ ((ESC ∉ str) ->
      stripEsc (esc code (Some str) endcode) false = str
      /\ stripEsc (esc code (Some (esc code (Some str) endcode)) endcode)
                  false = str).
Proof.
  intros Hcode Hend.
  assert (Hopen : forall rest,
             remove_sequences 0 (ESC :: LBRACKET :: code ++ LETTER_m :: rest)
             = remove_sequences 0 rest).
  { intros rest. apply remove_sequences_match. unfold sequence_at.
    cbn [strip_prefix]. rewrite !N.eqb_refl. by apply sgr_params_code. }
  assert (Hclose :
            remove_sequences 0
              (ESC :: LBRACKET
               :: match endcode with Some e => e | None => [DIGIT_0] end
               ++ [LETTER_m])
            = []).
  { rewrite (remove_sequences_match _ []); [done|].
    unfold sequence_at. cbn [strip_prefix]. rewrite !N.eqb_refl.
    by apply sgr_params_code. }
  assert (Hwrap : forall text,
             stripEsc (esc code (Some text) endcode) false
             = stripEsc text false).
  { intros text. unfold stripEsc, esc. rewrite <- !app_assoc. cbn [app].
    rewrite Hopen. rewrite remove_sequences_before_ESC by lia.
    match goal with
    | |- _ ++ ?x = _ => replace x with (@nil char16) by (symmetry; exact Hclose)
    end.
    by rewrite app_nil_r. }
  assert (Hplain : (ESC ∉ str) -> stripEsc str false = str).
  { intros Hstr. unfold stripEsc.
    rewrite <- (app_nil_r str) at 1.
    rewrite remove_sequences_no_ESC by done. by rewrite app_nil_r. }
  split; [|split; [apply Hwrap|]].
  - unfold stripEsc, esc. cbn [app]. apply (Hopen []).
  - intros Hstr. rewrite !Hwrap. by split; apply Hplain.
Qed.

(** A run of the round trip: [stripEsc(esc('38;5;74', 'hello'))]. *)
Lemma stripEsc_undoes_esc_witness :
  stripEsc (esc (lit "38;5;74") (Some (lit "hello")) None) false = lit "hello".
Proof.
  assert (Hfree : ESC ∉ lit "hello") by not_in_characters.
  exact (proj1 (proj2 (proj2
           (stripEsc_undoes_esc (lit "38;5;74") None (lit "hello")
              eq_refl eq_refl)) Hfree)).
Defined.

(** X2.  [stripEsc] only deletes: with or without the flag, what it returns is
    the input with some characters left out, in the same order.  A text
    with neither an escape character nor a backslash comes back whole. *)
Theorem stripEsc_only_deletes (str : jsstring) (literal : bool) :
  stripEsc str literal `sublist_of` str
  /\ ((length (stripEsc str literal) <= length str)%nat)
  /\ ((ESC ∉ str) -> (BACKSLASH ∉ str) -> stripEsc str literal = str).
Proof.
  assert (Hsub : stripEsc str literal `sublist_of` str).
  { unfold stripEsc. destruct literal; [|apply remove_sequences_sublist].
    etrans; [apply remove_first_literal_sublist|].
    apply remove_sequences_sublist. }
  split; [done|]. split; [by apply sublist_length|].
  intros Hesc Hback. unfold stripEsc.
  assert (E : remove_sequences 0 str = str).
  { rewrite <- (app_nil_r str) at 1.
    rewrite remove_sequences_no_ESC by done. by rewrite app_nil_r. }
  rewrite E. destruct literal; [|done].
  by apply remove_first_literal_no_backslash.
Qed.

(** A run: a plain text goes through [stripEsc] unchanged. *)
Lemma stripEsc_only_deletes_witness :
  stripEsc (lit "plain text") true = lit "plain text".
Proof.
  apply (stripEsc_only_deletes (lit "plain text") true); not_in_literal.
Defined.

(** X3.  With the flag set, [stripEsc] takes out the first spelled-out escape
    and no other: the second pattern has no [g] flag.  When the text
    starts with one (backslash, [u001b] or [u001B], bracket, a code, [m])
    and holds no escape character, what follows it is returned as it is,
    further spelled-out escapes included. *)
Theorem stripEsc_literal_first_only (b : char16) (code rest : jsstring) :
  b = LETTER_b \/ b = LETTER_B ->
  is_sgr_code code = true ->
  (ESC ∉ rest) ->
  stripEsc ([BACKSLASH; LETTER_u; DIGIT_0; DIGIT_0; DIGIT_1; b; LBRACKET]
            ++ code ++ LETTER_m :: rest) true
  = rest.
Proof.
  intros Hb Hcode Hrest. unfold stripEsc.
  set (s := _ ++ code ++ LETTER_m :: rest).
  assert (E : remove_sequences 0 s = s).
  { rewrite <- (app_nil_r s) at 1.
    rewrite remove_sequences_no_ESC; [by rewrite app_nil_r|].
    unfold s. rewrite !elem_of_app.
    intros [Hin|[Hin|Hin]].
    - destruct Hb as [-> | ->]; revert Hin; not_in_characters.
    - by apply (sgr_code_no_ESC code).
    - apply elem_of_cons in Hin as [Hin|Hin]; [by vm_compute in Hin|done]. }
  rewrite E. assert (Hl := literal_at_code b code rest Hb Hcode).
  fold s in Hl. destruct s as [|c s']; [done|].
  cbn [remove_first_literal]. by rewrite Hl.
Qed.

(** A run: two spelled-out escapes, the second one stays. *)
Lemma stripEsc_literal_first_only_witness :
  stripEsc (lit "\u001b[1m\u001b[0m") true = lit "\u001b[0m".
Proof.
  apply (stripEsc_literal_first_only LETTER_b (lit "1") (lit "\u001b[0m")).
  - by left.
  - reflexivity.
  - not_in_literal.
Defined.

(** X4.  Stripped of its escapes, what [print] writes when the terminal has no
    colours reads ["[type] [file:line] message"]: the five escapes of the
    trace are removed, and the type, the location and the message are
    themselves stripped. *)
Theorem stripEsc_print_trace (type : jsstring) (info : LineInfo.t)
    (message : jsstring) :
  stripEsc (print_trace type info ++ message) false
  = lit "[" ++ stripEsc type false ++ lit "] " ++ lit "["
    ++ stripEsc (LineInfo.file info ++ lit ":" ++ LineInfo.line info) false
    ++ lit "] " ++ stripEsc message false.
Proof.
  assert (H := remove_sequences_esc []). cbn [app remove_sequences] in H.
  unfold stripEsc, print_trace.
  repeat rewrite <- app_assoc.
  rewrite H by done.
  rewrite (remove_sequences_esc type) by done.
  by rewrite !H.
Qed.

(* ===================================================================== *)
(** ** The deferred write of pushLine                                     *)
(* ===================================================================== *)

(** X5.  A line pushed with [defer] is written by the next callback as it
    would have been written at once: with an empty queue, the deferred
    push followed by its callback leaves the [LogList] in the state the
    immediate push gives when [scrollDown] is set, and in that state
    with one more call of [render] when it is not. *)
Theorem pushLine_deferred_then_run {B : Type} `{Box B}
    (line : ref) (s : State B) :
  immediates s = [] ->
  runImmediate (pushLine line true s)
  = if scrollDown s then pushLine line false s
    else render (pushLine line false s).
Proof.
  intros Hq. destruct s as [h l ls ts b n im sd sm]. cbn in Hq. subst im.
  unfold runImmediate, pushLine, deferAndRenderLine, _setLine, scrollAlong,
    scroll, render. cbn.
  destruct sd, sm; cbn; done.
Qed.

(** A run on a new list. *)
Lemma pushLine_deferred_then_run_witness :
  runImmediate (pushLine 0%nat true Examples.s0)
  = pushLine 0%nat false Examples.s0.
Proof. exact (pushLine_deferred_then_run 0%nat Examples.s0 eq_refl). Defined.

(** X6.  The callback of a deferred push writes the row the line has when the
    callback runs, not the one it had when it was pushed: on a list that
    satisfies the invariant, for the line found at position [i], the
    callback sets row [i] to the sanitized text of the line and then
    scrolls along. *)
Theorem runImmediate_writes_the_current_row {B : Type} `{Box B}
    (s : State B) (line : ref) (q : list ref) (i : nat) :
  index_inv s ->
  this_list s !! i = Some (Some line) ->
  immediates s = line :: q ->
  runImmediate s
  = scrollAlong None
      (set_box (box_setLine (Z.of_nat i)
                            (sanitize (LogLine.text (objects s line)))
                            (this_box s))
               (set_immediates q s)).
Proof.
  intros Hinv Hi Hq. unfold runImmediate. rewrite Hq.
  unfold deferAndRenderLine, _setLine, toString. cbn.
  destruct (Hinv i) as (r & Hr & Hidx); [by eapply lookup_lt_Some|].
  rewrite Hi in Hr. injection Hr as <-. by rewrite Hidx.
Qed.

(** A run: [A] pushed at once, [B] pushed with [defer]. *)
Lemma runImmediate_writes_the_current_row_witness :
  TextBox.rows (this_box (runImmediate
     (pushLine 1%nat true (pushLine 0%nat false Examples.s0))))
  = [lit "A"; lit "B"].
Proof.
  rewrite (runImmediate_writes_the_current_row
             (pushLine 1%nat true (pushLine 0%nat false Examples.s0))
             1%nat [] 1%nat).
  - vm_compute. reflexivity.
  - apply index_inv_indices_of. vm_compute. reflexivity.
  - reflexivity.
  - reflexivity.
Defined.

(** X7.  [clearScreen] does not cancel a deferred write: the callback queued
    by a push before the clearing still runs after it, and sets the row
    of the line's index on the emptied box, while the list stays empty. *)
Theorem clearScreen_keeps_queued_writes {B : Type} `{Box B}
    (s : State B) (line : ref) (q : list ref) :
  immediates s = line :: q ->
  let s' := runImmediate (clearScreen s) in
  this_list s' = []
  /\ immediates s' = q
  /\ this_box s'
     = this_box
         (scrollAlong None
            (set_box (box_setLine (LogLine.index (objects s line))
                                  (sanitize (LogLine.text (objects s line)))
                                  (box_setContent [] (this_box s)))
                     s)).
Proof.
  intros Hq. destruct s as [h l ls ts b n im sd sm]. cbn in Hq. subst im.
  unfold runImmediate, clearScreen, deferAndRenderLine, _setLine, scrollAlong,
    scroll, render, toString, unselect. cbn.
  assert (Hidx : forall sel,
             LogLine.index
               ((<[sel := LogLine.set_selected false (h sel)]> h) line)
             = LogLine.index (h line)
             /\ LogLine.text
                  ((<[sel := LogLine.set_selected false (h sel)]> h) line)
                = LogLine.text (h line)).
  { intros sel. destruct (decide (sel = line)) as [->|Hne].
    - by rewrite fn_lookup_insert.
    - by rewrite fn_lookup_insert_ne. }
  destruct ls as [sel|]; cbn;
    [destruct (Hidx sel) as [-> ->]|];
    destruct sd, sm; cbn; try destruct (_ && _); cbn; done.
Qed.

(** A run: [A] is pushed with [defer], the screen is cleared, the
    callback runs. *)
Lemma clearScreen_keeps_queued_writes_witness :
  let s' := runImmediate (clearScreen (pushLine 0%nat true Examples.s0)) in
  this_list s' = [] /\ TextBox.rows (this_box s') = [lit "A"].
Proof.
  destruct (clearScreen_keeps_queued_writes
              (pushLine 0%nat true Examples.s0) 0%nat [] eq_refl)
    as (Hl & _ & Hb).
  split; [exact Hl|]. rewrite Hb. vm_compute. reflexivity.
Defined.
(* ===================================================================== *)
(** ** reIndex and clearLines on lists and indices of any kind            *)
(* ===================================================================== *)

Section ReIndexFacts.
Context {B : Type} `{Box B}.

Lemma for_slots_Done_iff {S : Type} (body : ref -> Z -> S -> S) (i : Z)
    (slots : list (option ref)) (s : S) :
  (exists s', for_slots body i slots s = Done s') <-> None ∉ slots.
Proof.
  revert i s. induction slots as [|[r|] slots IH]; intros i s; cbn.
  - split; [intros _; apply not_elem_of_nil|by eexists].
  - rewrite IH, not_elem_of_cons. intuition congruence.
  - split; [by intros [s' Hs']|].
    intros Hn. exfalso. apply Hn. by left.
Qed.

Lemma no_hole_NoDup (rs : list ref) :
  NoDup (Some <$> rs : list (option ref)) -> NoDup rs.
Proof. intros Hnd. by apply (NoDup_fmap (@Some ref)). Qed.

End ReIndexFacts.

(** X8.  [reIndex(start)] completes exactly when [start] is not negative and
    no slot from [start] on is a hole; a negative [start] raises even on
    an empty list, since [list[start]] is read before the length is
    looked at again. *)
Theorem reIndex_completes_iff {B : Type} `{Box B} (start : Z) (s : State B) :
  (exists s', reIndex (Some start) s = Done s')
  <-> 0 <= start /\ None ∉ drop (Z.to_nat start) (this_list s).
Proof.
  unfold reIndex, for_from. destruct (Z.ltb_spec start 0) as [Hneg|Hpos].
  - split; [by intros [s' Hs']|lia].
  - split.
    + intros [s' Hs']. split; [done|].
      apply (for_slots_Done_iff
               (fun r i (h : ref -> LogLine.t) => <[r := LogLine.set_index i (h r)]> h)
               start _ (objects s)).
      destruct (for_slots _ _ _ _) as [h|h]; [by eexists|done].
    + intros [_ Hn].
      apply (for_slots_Done_iff
               (fun r i (h : ref -> LogLine.t) => <[r := LogLine.set_index i (h r)]> h)
               start _ (objects s)) in Hn as [h Hh].
      rewrite Hh. by eexists.
Qed.

(** A run: on a new list [reIndex(-1)] does not complete, [reIndex(0)]
    does. *)
Lemma reIndex_completes_iff_witness :
  ~ (exists s', reIndex (Some (-1)) Examples.s0 = Done s')
  /\ exists s', reIndex (Some 0) Examples.s0 = Done s'.
Proof.
  split.
  - intros Hdone. apply (reIndex_completes_iff (-1) Examples.s0) in Hdone.
    lia.
  - apply (reIndex_completes_iff 0 Examples.s0). split; [lia|].
    apply not_elem_of_nil.
Defined.

(** X9.  [reIndex()] repairs the indices whatever they were: on a list
    without holes that holds no line twice it completes and leaves
    [list[i].index == i] for every [i], without touching the list, the
    box, the text or the selection of a line, or any object that is not
    in the list. *)
Theorem reIndex_repairs {B : Type} `{Box B} (s : State B) :
  (None ∉ this_list s) ->
  NoDup (this_list s) ->
  exists s',
    reIndex None s = Done s'
    /\ index_inv s'
    /\ this_list s' = this_list s
    /\ this_box s' = this_box s
    /\ (forall r,
          LogLine.selected (objects s' r) = LogLine.selected (objects s r)
          /\ LogLine.text (objects s' r) = LogLine.text (objects s r))
    /\ (forall r, Some r ∉ this_list s -> objects s' r = objects s r).
Proof.
  intros Hholes Hnd.
  destruct (no_hole_lines _ Hholes) as [rs Hrs].
  assert (Hnd' : NoDup rs) by (apply no_hole_NoDup; by rewrite <- Hrs).
  destruct (reIndex_restores s rs 0 Hrs Hnd' ltac:(lia)) as
    (s' & Hrun & Hinv & Hl & Hb & _ & Hst & _ & Hout); [intros; lia|].
  exists s'. repeat split; try done; try apply Hst.
  intros r Hr. apply Hout. intros Hin. apply Hr. rewrite Hrs.
  by apply list_elem_of_fmap_2.
Qed.

(** A run on the list [[A, X]] in which [X.index] is 2. *)
Lemma reIndex_repairs_witness :
  exists s',
    reIndex None MoreExamples.past_the_end = Done s' /\ index_inv s'.
Proof.
  destruct (reIndex_repairs MoreExamples.past_the_end)
    as (s' & Hrun & Hinv & _).
  - vm_compute. intros Hin.
    repeat (apply elem_of_cons in Hin as [Hin|Hin]; [discriminate Hin|]).
    by apply elem_of_nil in Hin.
  - vm_compute. repeat constructor.
    + intros Hin.
      repeat (apply elem_of_cons in Hin as [Hin|Hin]; [discriminate Hin|]).
      by apply elem_of_nil in Hin.
    + apply not_elem_of_nil.
  - by exists s'.
Defined.
Section ClearLinesEdges.
Context {B : Type} `{Box B}.

Lemma foldl_splice_delete_past_the_end (l : list (option ref)) (ds : list Z) :
  (forall d, d ∈ ds -> Z.of_nat (length l) <= d) ->
  foldl (fun l d => JsArray.splice_delete d l) l ds = l.
Proof.
  induction ds as [|d ds IH]; intros Hds; [done|]. cbn [foldl].
  assert (Hd : Z.of_nat (length l) <= d) by (apply Hds; by left).
  assert (E : JsArray.splice_delete d l = l).
  { unfold JsArray.splice_delete, JsArray.relative_start.
    destruct (Z.ltb_spec d 0); [lia|].
    apply delete_past_the_end. lia. }
  rewrite E. apply IH. intros d' Hd'. apply Hds. by right.
Qed.

Lemma flashsort_twice (k : Z) : JsArray.flashsort [k; k] = [k; k].
Proof.
  unfold JsArray.flashsort.
  assert (Hp := merge_sort_Permutation Z.le [k; k]).
  symmetry in Hp. apply Permutation_length_2_inv in Hp. by destruct Hp.
Qed.

End ClearLinesEdges.

(** X10.  [clearLines] does not look at the sign of an index.  When one of
    them is negative, every index is still given to the box and to
    [splice], which counts a negative one from the end of the list; then
    [reIndex] raises on the negative minimum, so that no line is
    renumbered.  For the single index [k < 0] the entry at
    [max(length + k, 0)] is the one removed. *)
Theorem clearLines_negative_index {B : Type} `{Box B}
    (indices : list Z) (d : Z) (s : State B) :
  d ∈ indices -> d < 0 ->
  let ds := reverse (JsArray.flashsort indices) in
  exists s',
    clearLines indices s = Raised s'
    /\ this_list s'
       = foldl (fun l d => JsArray.splice_delete d l) (this_list s) ds
    /\ this_box s' = foldl (fun b d => box_deleteLine d b) (this_box s) ds
    /\ objects s' = objects s
    /\ (forall k, indices = [k] ->
          this_list s'
          = delete (Z.to_nat (Z.max (Z.of_nat (length (this_list s)) + k) 0))
                   (this_list s)).
Proof.
  intros Hd Hneg ds. unfold clearLines. fold ds.
  destruct (foldl_clearLine s ds) as (Hlist & Hbox & Hobj & _).
  set (s1 := foldl clearLine s ds) in *.
  destruct (head (JsArray.flashsort indices)) as [m|] eqn:Hm.
  - destruct (flashsort_head _ _ Hm) as [_ Hmin].
    assert (m < 0) by (specialize (Hmin d Hd); lia).
    unfold reIndex, for_from. destruct (Z.ltb_spec m 0); [|lia]. cbn.
    eexists. split; [done|]. cbn. repeat split; try done.
    intros k ->. rewrite Hlist. unfold ds. 
    apply list_elem_of_singleton in Hd. subst k.
    change (JsArray.flashsort [d]) with [d]. cbn.
    unfold JsArray.splice_delete, JsArray.relative_start.
    by destruct (Z.ltb_spec d 0); [|lia].
  - apply flashsort_head_None in Hm. subst indices.
    by apply elem_of_nil in Hd.
Qed.

(** A run: [clearLines([-1, 0])] on [[A, B, C]] raises and leaves [[B]]
    with [B.index] still 1. *)
Lemma clearLines_negative_index_witness :
  exists s',
    clearLines [-1; 0] Examples.sABC = Raised s'
    /\ this_list s' = [Some 1%nat]
    /\ LogLine.index (objects s' 1%nat) = 1.
Proof.
  destruct (clearLines_negative_index [-1; 0] (-1) Examples.sABC)
    as (s' & Hrun & Hl & _ & Hobj & _).
  - apply list_elem_of_here.
  - lia.
  - exists s'. split; [exact Hrun|]. rewrite Hl, Hobj.
    split; vm_compute; reflexivity.
Defined.

(** X11.  Indices that are all past the end of the list remove no line and
    renumber none, but the box is still asked to delete each of those
    rows, the highest first. *)
Theorem clearLines_past_the_end {B : Type} `{Box B}
    (indices : list Z) (s : State B) :
  indices <> [] ->
  (forall d, d ∈ indices -> Z.of_nat (length (this_list s)) <= d) ->
  exists s',
    clearLines indices s = Done s'
    /\ this_list s' = this_list s
    /\ objects s' = objects s
    /\ this_box s'
       = foldl (fun b d => box_deleteLine d b) (this_box s)
               (reverse (JsArray.flashsort indices)).
Proof.
  intros Hne Hall. unfold clearLines.
  set (ds := reverse (JsArray.flashsort indices)).
  destruct (foldl_clearLine s ds) as (Hlist & Hbox & Hobj & _).
  set (s1 := foldl clearLine s ds) in *.
  assert (Hl : this_list s1 = this_list s).
  { rewrite Hlist. apply foldl_splice_delete_past_the_end.
    intros d Hd. apply Hall. apply flashsort_elem_of.
    by apply elem_of_reverse. }
  destruct (head (JsArray.flashsort indices)) as [m|] eqn:Hm.
  - destruct (flashsort_head _ _ Hm) as [Hin _].
    specialize (Hall m Hin).
    unfold reIndex, for_from. destruct (Z.ltb_spec m 0); [lia|].
    rewrite drop_ge by (rewrite Hl; lia). cbn.
    eexists. split; [done|]. by cbn.
  - by apply flashsort_head_None in Hm.
Qed.

(** A run: [clearLines([5])] on [[A, B, C]]. *)
Lemma clearLines_past_the_end_witness :
  exists s',
    clearLines [5] Examples.sABC = Done s'
    /\ this_list s' = this_list Examples.sABC
    /\ this_box s' = box_deleteLine 5 (this_box Examples.sABC).
Proof.
  destruct (clearLines_past_the_end [5] Examples.sABC)
    as (s' & Hrun & Hl & _ & Hb).
  - discriminate.
  - intros d Hd. apply list_elem_of_singleton in Hd as ->.
    vm_compute. discriminate.
  - exists s'. split; [exact Hrun|]. split; [exact Hl|]. exact Hb.
Defined.

(** X12.  [clearLines] does not expect an index twice: given [[k, k]] on a
    list that satisfies the invariant it removes the lines at [k] and
    at [k + 1], deletes row [k] of the box twice, and renumbers what is
    left. *)
Theorem clearLines_repeated_index {B : Type} `{Box B}
    (k : Z) (s : State B) :
  index_inv s ->
  0 <= k -> k + 1 < Z.of_nat (length (this_list s)) ->
  exists s',
    clearLines [k; k] s = Done s'
    /\ this_list s'
       = take (Z.to_nat k) (this_list s) ++ drop (Z.to_nat k + 2) (this_list s)
    /\ this_box s' = box_deleteLine k (box_deleteLine k (this_box s))
    /\ index_inv s'.
Proof.
  intros Hinv Hk0 Hk1.
  destruct (index_inv_lines s Hinv) as (rs & Hrs & Hnd & Hidx).
  destruct (clearLines_lines s rs [k; k] Hrs Hnd Hidx) as
    (s' & Hrun & Hinv' & Hl & Hb & _).
  { intros d Hd. apply elem_of_cons in Hd as [->|Hd]; [done|].
    by apply list_elem_of_singleton in Hd as ->. }
  rewrite flashsort_twice in Hl, Hb. cbn in Hl, Hb.
  exists s'. repeat split; try done.
  rewrite Hl, Hrs, <- fmap_take, <- fmap_drop, <- fmap_app. f_equal.
  rewrite Hrs, length_fmap in Hk1.
  rewrite !delete_take_drop.
  rewrite take_app_le by (rewrite length_take; lia).
  rewrite take_take, Nat.min_id. f_equal.
  rewrite drop_app_ge by (rewrite length_take; lia).
  rewrite length_take, drop_drop. f_equal. lia.
Qed.

(** A run: [clearLines([0, 0])] on [[A, B, C]] leaves [[C]]. *)
Lemma clearLines_repeated_index_witness :
  exists s',
    clearLines [0; 0] Examples.sABC = Done s'
    /\ this_list s' = [Some 2%nat].
Proof.
  destruct (clearLines_repeated_index 0 Examples.sABC)
    as (s' & Hrun & Hl & _).
  - apply index_inv_indices_of. vm_compute. reflexivity.
  - lia.
  - vm_compute. reflexivity.
  - exists s'. split; [exact Hrun|]. rewrite Hl. vm_compute. reflexivity.
Defined.
(* ===================================================================== *)
(** ** insertAfter at the ends, and undone by removeLine                  *)
(* ===================================================================== *)

(** X13.  [insertAfter(line, -1)] puts the line before every other one: on a
    list that satisfies the invariant the new line is the first entry
    with index 0, every line that was in the list has its index raised
    by one and nothing else changed, row 0 is inserted in the box, and
    the invariant holds again. *)
Theorem insertAfter_minus_one_prepends {B : Type} `{Box B}
    (s : State B) (line : ref) :
  index_inv s ->
  Some line ∉ this_list s ->
  exists s',
    insertAfter line (-1) s = Done s'
    /\ this_list s' = Some line :: this_list s
    /\ LogLine.index (objects s' line) = 0
    /\ (forall r, Some r ∈ this_list s ->
          LogLine.index (objects s' r) = LogLine.index (objects s r) + 1
          /\ LogLine.selected (objects s' r) = LogLine.selected (objects s r)
          /\ LogLine.text (objects s' r) = LogLine.text (objects s r))
    /\ this_box s'
       = box_insertLine 0 (sanitize (LogLine.text (objects s line)))
                        (this_box s)
    /\ index_inv s'.
Proof.
  intros Hinv Hfresh.
  destruct (index_inv_lines s Hinv) as (rs & Hrs & Hnd & Hidx).
  assert (Hline : line ∉ rs).
  { intros Hin. apply Hfresh. rewrite Hrs. by apply list_elem_of_fmap_2. }
  destruct (insertAfter_lines s rs line (-1) Hrs Hnd Hline ltac:(lia))
    as (s' & Hrun & Hl & Hobj & _ & Hlater & _ & Hb & _).
  cbn in Hl, Hlater. rewrite drop_0 in Hlater.
  exists s'. split; [done|]. split; [by rewrite Hl, Hrs|].
  split; [by rewrite Hobj|]. split; [|split; [done|]].
  - intros r Hr. rewrite Hrs in Hr.
    apply list_elem_of_fmap in Hr as (r2 & Heq & Hr2). injection Heq as ->.
    by rewrite (Hlater r2 Hr2).
  - apply (insertAfter_lines_inv s rs line (-1) s'); try done. lia.
Qed.

(** A run: [X] put before [A], [B], [C]. *)
Lemma insertAfter_minus_one_prepends_witness :
  exists s',
    insertAfter 3%nat (-1) Examples.sABC = Done s'
    /\ this_list s' = [Some 3%nat; Some 0%nat; Some 1%nat; Some 2%nat]
    /\ index_inv s'.
Proof.
  destruct (insertAfter_minus_one_prepends Examples.sABC 3%nat)
    as (s' & Hrun & Hl & _ & _ & _ & Hinv).
  - apply index_inv_indices_of. vm_compute. reflexivity.
  - vm_compute. intros Hin.
    repeat (apply elem_of_cons in Hin as [Hin|Hin]; [discriminate Hin|]).
    by apply elem_of_nil in Hin.
  - exists s'. split; [exact Hrun|]. split; [|exact Hinv].
    rewrite Hl. vm_compute. reflexivity.
Defined.

Section InsertAtTheEnd.
Context {B : Type} `{Box B}.

Lemma insertAfter_at_the_end (s : State B) (line : ref) :
  let N := Z.of_nat (length (this_list s)) in
  exists s',
    insertAfter line (N - 1) s = Done s'
    /\ this_list s' = this_list s ++ [Some line]
    /\ objects s' = <[line := LogLine.set_index N (objects s line)]> (objects s).
Proof.
  intros N.
  assert (HN : N = Z.of_nat (length (this_list s))) by done. clearbody N.
  assert (Hins : JsArray.insert (this_list s) N line
                 = this_list s ++ [Some line]).
  { unfold JsArray.insert, JsArray.splice_insert, JsArray.relative_start.
    destruct (Z.ltb_spec (Z.of_nat (length (this_list s))) (N - 1)); [lia|].
    destruct (Z.ltb_spec N 0); [lia|].
    replace (Z.to_nat (Z.min N (Z.of_nat (length (this_list s)))))
      with (length (this_list s)) by lia.
    by rewrite firstn_all, drop_all. }
  unfold insertAfter. cbn.
  replace (N - 1 + 1) with N by lia.
  rewrite Hins. unfold for_from.
  destruct (Z.ltb_spec (N + 1) 0); [lia|].
  rewrite drop_ge by (rewrite length_app; cbn; lia). cbn.
  eexists. split; [done|]. by cbn.
Qed.

End InsertAtTheEnd.

(** X14.  Inserting after the last line is a push as far as the list and the
    objects go: for a list of [N] entries, of any kind,
    [insertAfter(line, N - 1)] completes with the list and the objects
    that [pushLine(line, true)] gives, the line being last with index
    [N].  The box is treated differently: [insertAfter] inserts row [N]
    at once, the deferred push leaves the box to its callback. *)
Theorem insertAfter_the_last_line_is_a_push {B : Type} `{Box B}
    (s : State B) (line : ref) :
  let N := Z.of_nat (length (this_list s)) in
  exists s',
    insertAfter line (N - 1) s = Done s'
    /\ this_list s' = this_list (pushLine line true s)
    /\ objects s' = objects (pushLine line true s)
    /\ this_list s' = this_list s ++ [Some line]
    /\ LogLine.index (objects s' line) = N
    /\ this_box s'
       = box_insertLine N
           (sanitize (LogLine.text (objects s line))) (this_box s)
    /\ this_box (pushLine line true s) = this_box s.
Proof.
  intros N.
  assert (HN : N = Z.of_nat (length (this_list s))) by done. clearbody N.
  assert (Hins : JsArray.insert (this_list s) N line
                 = this_list s ++ [Some line]).
  { unfold JsArray.insert, JsArray.splice_insert, JsArray.relative_start.
    destruct (Z.ltb_spec (Z.of_nat (length (this_list s))) (N - 1)); [lia|].
    destruct (Z.ltb_spec N 0); [lia|].
    replace (Z.to_nat (Z.min N (Z.of_nat (length (this_list s)))))
      with (length (this_list s)) by lia.
    by rewrite firstn_all, drop_all. }
  unfold insertAfter, pushLine, JsArray.push. cbn.
  replace (N - 1 + 1) with N by lia.
  rewrite <- HN. replace (N + 1 - 1) with N by lia.
  rewrite Hins. unfold for_from.
  destruct (Z.ltb_spec (N + 1) 0); [lia|].
  rewrite drop_ge by (rewrite length_app; cbn; lia). cbn.
  eexists. split; [done|]. cbn. rewrite fn_lookup_insert.
  repeat split; try done.
  unfold toString. by rewrite fn_lookup_insert.
Qed.

Section RoundTrip.
Context {B : Type} `{Box B}.

Lemma delete_inserted (rs : list ref) (n : nat) (line : ref) :
  (n <= length rs)%nat ->
  delete n (take n rs ++ line :: drop n rs) = rs.
Proof.
  intros Hn. rewrite delete_take_drop.
  rewrite take_app_le by (rewrite length_take; lia).
  rewrite take_take, Nat.min_id.
  rewrite drop_app_ge by (rewrite length_take; lia).
  rewrite length_take.
  replace (S n - n `min` length rs)%nat with 1%nat by lia.
  cbn. by rewrite drop_0, take_drop.
Qed.

Lemma LogLine_eq (a b : LogLine.t) :
  LogLine.index a = LogLine.index b ->
  LogLine.selected a = LogLine.selected b ->
  LogLine.text a = LogLine.text b ->
  a = b.
Proof. destruct a, b. cbn. by intros -> -> ->. Qed.

End RoundTrip.

(** X15.  [removeLine] undoes [insertAfter]: on a list that satisfies the
    invariant, a line without children that is inserted after [k]
    (from [-1] to the last index) and then removed at [k + 1] leaves the
    list as it was and every other object as it was, index included;
    the box has had row [k + 1] inserted and deleted, one [render] has
    been asked for, and the invariant holds. *)
Theorem insertAfter_then_removeLine {B : Type} `{Box B}
    (getAllIndices : (ref -> LogLine.t) -> ref -> list Z)
    (s : State B) (line : ref) (k : Z) :
  index_inv s ->
  Some line ∉ this_list s ->
  -1 <= k < Z.of_nat (length (this_list s)) ->
  (forall h, getAllIndices h line = [LogLine.index (h line)]) ->
  exists s1 s2,
    insertAfter line k s = Done s1
    /\ removeLine getAllIndices (k + 1) s1 = Done s2
    /\ this_list s2 = this_list s
    /\ (forall r, r <> line -> objects s2 r = objects s r)
    /\ this_box s2
       = box_deleteLine (k + 1)
           (box_insertLine (k + 1) (sanitize (LogLine.text (objects s line)))
                           (this_box s))
    /\ render_calls s2 = S (render_calls s)
    /\ index_inv s2.
Proof.
  intros Hinv Hfresh Hk Hleaf.
  destruct (index_inv_lines s Hinv) as (rs & Hrs & Hnd & Hidx).
  assert (Hline : line ∉ rs).
  { intros Hin. apply Hfresh. rewrite Hrs. by apply list_elem_of_fmap_2. }
  assert (Hk' : -1 <= k < Z.of_nat (length rs))
    by (rewrite Hrs, length_fmap in Hk; lia).
  destruct (insertAfter_lines s rs line k Hrs Hnd Hline Hk')
    as (s1 & Hrun1 & Hl1 & Hobj1 & Hbefore & Hlater & Hother & Hb1 & Hbook1).
  set (n := Z.to_nat (k + 1)) in *.
  assert (Hn : (n <= length rs)%nat) by lia.
  set (rs1 := take n rs ++ line :: drop n rs) in *.
  assert (Hinv1 : index_inv s1)
    by (by apply (insertAfter_lines_inv s rs line k s1)).
  destruct (index_inv_lines s1 Hinv1) as (rs1' & Hrs1 & Hnd1 & Hidx1).
  assert (rs1' = rs1) as ->.
  { rewrite Hl1 in Hrs1. symmetry. by apply (inj (fmap Some)) in Hrs1. }
  assert (Hget : JsArray.get (this_list s1) (k + 1) = Some line).
  { unfold JsArray.get. destruct (Z.ltb_spec (k + 1) 0); [lia|].
    fold n. rewrite Hl1, list_lookup_fmap. unfold rs1.
    rewrite lookup_app_r by (rewrite length_take; lia).
    rewrite length_take.
    by replace (n - n `min` length rs)%nat with 0%nat by lia. }
  assert (Hindices : getAllIndices (objects s1) line = [k + 1]).
  { rewrite Hleaf, Hobj1. done. }
  destruct (clearLines_lines s1 rs1 [k + 1] Hrs1 Hnd1 Hidx1)
    as (s2 & Hrun2 & Hinv2 & Hl2 & Hb2 & Hbook2 & Hfields2 & _ & Hout2).
  { intros d Hd. apply list_elem_of_singleton in Hd as ->. lia. }
  change (JsArray.flashsort [k + 1]) with [k + 1] in Hl2, Hb2.
  cbn in Hl2, Hb2. fold n in Hl2. unfold rs1 in Hl2.
  rewrite delete_inserted in Hl2 by done.
  exists s1, (render s2). split; [done|]. split.
  { unfold removeLine. rewrite Hget, Hindices, Hrun2. done. }
  split; [by rewrite Hrs|]. split; [|split; [|split]].
  - intros r Hne. cbn. destruct (decide (r ∈ rs)) as [Hin|Hnin].
    + apply list_elem_of_lookup in Hin as [i Hi].
      destruct (Hfields2 r) as [Hsel2 Htxt2].
      assert (Hs1 : LogLine.selected (objects s1 r)
                    = LogLine.selected (objects s r)
                    /\ LogLine.text (objects s1 r) = LogLine.text (objects s r)).
      { destruct (decide (i < n)%nat).
        - rewrite Hbefore; [done|].
          apply list_elem_of_lookup. exists i. by rewrite lookup_take_lt.
        - rewrite Hlater; [done|].
          apply list_elem_of_lookup. exists (i - n)%nat.
          rewrite lookup_drop. by replace (n + (i - n))%nat with i by lia. }
      destruct Hs1 as [Hsel1 Htxt1].
      apply LogLine_eq; [|congruence|congruence].
      rewrite (Hidx i r Hi).
      destruct (Hinv2 i) as (r' & Hr' & Hi').
      { rewrite Hl2, length_fmap. by eapply lookup_lt_Some. }
      rewrite Hl2, list_lookup_fmap, Hi in Hr'. by injection Hr' as <-.
    + rewrite Hout2.
      * by apply Hother.
      * unfold rs1. rewrite elem_of_app, elem_of_cons.
        intros [Hin|[->|Hin]]; [|done|].
        -- apply Hnin. eapply elem_of_sublist; [done|apply sublist_take].
        -- apply Hnin. by eapply elem_of_drop_inv.
  - cbn. by rewrite Hb2, Hb1.
  - cbn. destruct Hbook1 as (_ & _ & Hr1 & _).
    destruct Hbook2 as (_ & _ & Hr2 & _). by rewrite Hr2, Hr1.
  - intros i Hi. cbn in Hi |- *. by apply Hinv2.
Qed.

(** A run: [X] inserted after [A] in [[A, B, C]], then removed. *)
Lemma insertAfter_then_removeLine_witness :
  exists s1 s2,
    insertAfter 3%nat 0 Examples.sABC = Done s1
    /\ removeLine MoreExamples.leaf 1 s1 = Done s2
    /\ this_list s2 = this_list Examples.sABC
    /\ index_inv s2.
Proof.
  destruct (insertAfter_then_removeLine MoreExamples.leaf
              Examples.sABC 3%nat 0)
    as (s1 & s2 & Hrun1 & Hrun2 & Hl & _ & _ & _ & Hinv).
  - apply index_inv_indices_of. vm_compute. reflexivity.
  - vm_compute. intros Hin.
    repeat (apply elem_of_cons in Hin as [Hin|Hin]; [discriminate Hin|]).
    by apply elem_of_nil in Hin.
  - vm_compute. split; [discriminate|reflexivity].
  - reflexivity.
  - exists s1, s2. split; [exact Hrun1|]. split; [exact Hrun2|].
    split; [exact Hl|exact Hinv].
Defined.

(* ===================================================================== *)
(** ** A command and its result                                           *)
(* ===================================================================== *)

(** X16.  What [onKeypress] does to the list for a command: on a list of [N]
    lines that satisfies the invariant, given two new lines, the line of
    the command is pushed and the line of the result inserted after it,
    so that the two are the last entries, with indices [N] and [N + 1],
    the earlier lines are untouched, and the invariant holds. *)
Theorem run_command_appends_two_lines {B : Type} `{Box B}
    (s : State B) (commandLine resultLine : ref) :
  index_inv s ->
  Some commandLine ∉ this_list s ->
  Some resultLine ∉ this_list s ->
  commandLine <> resultLine ->
  let N := Z.of_nat (length (this_list s)) in
  exists s',
    run_command commandLine resultLine s = Done s'
    /\ this_list s' = this_list s ++ [Some commandLine; Some resultLine]
    /\ LogLine.index (objects s' commandLine) = N
    /\ LogLine.index (objects s' resultLine) = N + 1
    /\ (forall r, r <> commandLine -> r <> resultLine ->
          objects s' r = objects s r)
    /\ index_inv s'.
Proof.
  intros Hinv Hc Hr Hne N. unfold run_command.
  set (s1 := pushLine commandLine false s).
  destruct (pushLine_lines commandLine false s) as (Hl1 & Hobj1 & _).
  fold s1 in Hl1, Hobj1.
  assert (Hidx : LogLine.index (objects s1 commandLine) = N)
    by (by rewrite Hobj1, fn_lookup_insert).
  assert (Hlen : Z.of_nat (length (this_list s1)) = N + 1)
    by (rewrite Hl1, length_app; cbn; lia).
  rewrite Hidx.
  destruct (insertAfter_at_the_end s1 resultLine)
    as (s' & Hrun & Hl & Hobj).
  rewrite Hlen in Hrun, Hobj. replace (N + 1 - 1) with N in Hrun by lia.
  exists s'. split; [done|].
  split; [by rewrite Hl, Hl1, <- app_assoc|].
  split; [by rewrite Hobj, fn_lookup_insert_ne|].
  split; [by rewrite Hobj, fn_lookup_insert|].
  split.
  - intros r Hrc Hrr.
    by rewrite Hobj, fn_lookup_insert_ne, Hobj1, fn_lookup_insert_ne.
  - assert (Hinv1 : index_inv s1) by (by apply pushLine_preserves).
    destruct (index_inv_lines s1 Hinv1) as (rs1 & Hrs1 & Hnd1 & Hidx1).
    apply (lines_index_inv s' (rs1 ++ [resultLine])).
    + by rewrite Hl, Hrs1, fmap_app.
    + intros i r Hi. rewrite Hobj.
      assert (Hlen1 : Z.of_nat (length rs1) = N + 1)
        by (rewrite Hrs1, length_fmap in Hlen; lia).
      destruct (decide (i < length rs1)%nat) as [Hlt|Hge].
      * rewrite lookup_app_l in Hi by done.
        rewrite fn_lookup_insert_ne; [by apply Hidx1|].
        intros <-. apply Hr.
        assert (Hin : Some resultLine ∈ this_list s1).
        { rewrite Hrs1. apply list_elem_of_fmap_2.
          by eapply list_elem_of_lookup_2. }
        rewrite Hl1 in Hin. apply elem_of_app in Hin as [Hin|Hin]; [done|].
        apply list_elem_of_singleton in Hin. by injection Hin as <-.
      * rewrite lookup_app_r in Hi by lia.
        destruct (i - length rs1)%nat as [|j] eqn:Hj; [|done].
        injection Hi as <-. rewrite fn_lookup_insert. cbn. lia.
Qed.

(** A run: a command and its result on the list [[A]]. *)
Lemma run_command_appends_two_lines_witness :
  exists s',
    run_command 1%nat 2%nat Examples.sA = Done s'
    /\ this_list s' = [Some 0%nat; Some 1%nat; Some 2%nat]
    /\ index_inv s'.
Proof.
  destruct (run_command_appends_two_lines Examples.sA 1%nat 2%nat)
    as (s' & Hrun & Hl & _ & _ & _ & Hinv).
  - apply index_inv_indices_of. vm_compute. reflexivity.
  - vm_compute. intros Hin.
    repeat (apply elem_of_cons in Hin as [Hin|Hin]; [discriminate Hin|]).
    by apply elem_of_nil in Hin.
  - vm_compute. intros Hin.
    repeat (apply elem_of_cons in Hin as [Hin|Hin]; [discriminate Hin|]).
    by apply elem_of_nil in Hin.
  - discriminate.
  - exists s'. split; [exact Hrun|]. split; [|exact Hinv].
    rewrite Hl. vm_compute. reflexivity.
Defined.
(* ===================================================================== *)
(** ** extractLineInfo on the lines of a stack                            *)
(* ===================================================================== *)

Section FrameFacts.

(** A lazy group stops at the first place where the rest matches. *)
Lemma lazy_dots_first {R : Type} (k : jsstring -> option R)
    (acc run rest : jsstring) (r : R) :
  Forall (fun c => is_line_terminator c = false) run ->
  (forall a b, run = a ++ b -> b <> [] -> k (b ++ rest) = None) ->
  k rest = Some r ->
  Regex.lazy_dots k acc (run ++ rest) = Some (rev acc ++ run, r).
Proof.
  revert acc. induction run as [|c run IH]; intros acc Hlt Hfirst Hk.
  - cbn [app]. destruct rest; cbn; rewrite Hk; by rewrite app_nil_r.
  - cbn [app Regex.lazy_dots].
    assert (Hc := Hfirst [] (c :: run) eq_refl ltac:(done)).
    cbn [app] in Hc. rewrite Hc.
    apply Forall_cons in Hlt as [-> Hlt].
    rewrite IH; [|done| |done].
    + cbn. by rewrite <- app_assoc.
    + intros a b -> Hb. by apply (Hfirst (c :: a) b).
Qed.

(** A lazy group fails when the rest matches nowhere. *)
Lemma lazy_dots_None {R : Type} (k : jsstring -> option R)
    (acc s : jsstring) :
  (forall a b, s = a ++ b -> k b = None) ->
  Regex.lazy_dots k acc s = None.
Proof.
  revert acc. induction s as [|c s IH]; intros acc Hnone.
  - cbn. by rewrite (Hnone [] []).
  - cbn [Regex.lazy_dots]. rewrite (Hnone [] (c :: s) eq_refl).
    destruct (is_line_terminator c); [done|].
    apply IH. intros a b ->. by apply (Hnone (c :: a) b).
Qed.

Lemma digits_all (d rest : jsstring) :
  Forall (fun c => is_digit c = true) d ->
  match rest with [] => True | c :: _ => is_digit c = false end ->
  Regex.digits (d ++ rest) = (d, rest).
Proof.
  intros Hd Hrest. induction Hd as [|c d Hc Hd IH].
  - cbn [app]. destruct rest as [|c rest]; [done|]. cbn. by rewrite Hrest.
  - cbn [app Regex.digits]. by rewrite Hc, IH.
Qed.

Lemma line_and_char_at (l c rest : jsstring) :
  Forall (fun x => is_digit x = true) l ->
  Forall (fun x => is_digit x = true) c ->
  match rest with [] => True | x :: _ => is_digit x = false end ->
  Regex.line_and_char (COLON :: l ++ COLON :: c ++ rest) = Some (l, c, rest).
Proof.
  intros Hl Hc Hrest. unfold Regex.line_and_char. cbn [strip_prefix].
  rewrite N.eqb_refl. rewrite (digits_all l) by done.
  cbn [strip_prefix]. rewrite N.eqb_refl. by rewrite (digits_all c).
Qed.

Lemma line_and_char_needs_a_colon (s : jsstring) :
  match s with c :: _ => c <> COLON | [] => True end ->
  Regex.line_and_char s = None.
Proof.
  destruct s as [|c s]; [done|]. intros Hc. unfold Regex.line_and_char.
  cbn [strip_prefix]. by destruct (N.eqb_spec COLON c) as [<-|].
Qed.

Lemma indexOf_at (n : nat) (x : jsstring) (i : Z) :
  indexOf_from (lit "at ") (replicate n SPACE ++ lit "at " ++ x) i
  = i + Z.of_nat n.
Proof.
  revert i. induction n as [|n IH]; intros i.
  - change (lit "at ") with [97; 116; 32]%N.
    cbn [replicate app indexOf_from strip_prefix]. rewrite !N.eqb_refl. lia.
  - change (lit "at ") with [97; 116; 32]%N in *.
    cbn [replicate app indexOf_from strip_prefix].
    change (97 =? SPACE)%N with false. cbn iota.
    rewrite IH. lia.
Qed.

Lemma clean_of_frame (n : nat) (x : jsstring) :
  slice_from (indexOf (lit "at ") (replicate n SPACE ++ lit "at " ++ x) + 2)
             (replicate n SPACE ++ lit "at " ++ x)
  = SPACE :: x.
Proof.
  unfold indexOf. rewrite indexOf_at. unfold slice_from.
  rewrite !length_app, length_replicate.
  change (length (lit "at ")) with 3%nat.
  destruct (Z.ltb_spec (0 + Z.of_nat n + 2) 0); [lia|].
  replace (Z.to_nat _) with (n + 2)%nat by lia.
  rewrite drop_app_ge by (rewrite length_replicate; lia).
  rewrite length_replicate. by replace (n + 2 - n)%nat with 2%nat by lia.
Qed.

End FrameFacts.
(** X17.  A frame with a function name is read back whole.  For a line made
    of an indentation, [at], a name, and between brackets a path, a line
    and a column, where the name holds no opening bracket, the path no
    colon, and neither a line terminator, [extractLineInfo] returns that
    name, that path, that line and that column, and as file what
    follows the last slash of the path. *)
Theorem extractLineInfo_named_frame (n : nat)
    (name path l c rest : jsstring) :
  Forall (fun x => is_line_terminator x = false) name ->
  Forall (fun x => is_line_terminator x = false) path ->
  (LPAREN ∉ name) ->
  (COLON ∉ path) ->
  Forall (fun x => is_digit x = true) l ->
  Forall (fun x => is_digit x = true) c ->
  extractLineInfo
    (replicate n SPACE ++ lit "at " ++ name ++ lit " (" ++ path ++ lit ":"
     ++ l ++ lit ":" ++ c ++ lit ")" ++ rest)
  = LineInfo.mk name path (last_segment path) l c.
Proof.
  intros Hname Hpath Hparen Hcolon Hl Hc.
  unfold extractLineInfo. rewrite clean_of_frame.
  change (lit " (") with [SPACE; LPAREN]. change (lit ":") with [COLON].
  change (lit ")") with [RPAREN]. cbn [app].
  assert (Hclosing :
    (fun s =>
       match Regex.line_and_char s with
       | Some (l, c, s') =>
           match strip_prefix [RPAREN] s' with
           | Some _ => Some (l, c)
           | None => None
           end
       | None => None
       end) (COLON :: l ++ COLON :: c ++ RPAREN :: rest) = Some (l, c)).
  { cbn beta. rewrite line_and_char_at by done.
    cbn [strip_prefix]. by rewrite N.eqb_refl. }
  unfold Regex.strict. cbn [strip_prefix]. rewrite N.eqb_refl.
  rewrite (lazy_dots_first _ [] name _ (path, (l, c))); [reflexivity|done| |].
  - intros a b -> Hb. destruct b as [|x [|y b]]; [done| |].
    + cbn [app strip_prefix]. destruct (SPACE =? x)%N; [|done].
      by change (LPAREN =? SPACE)%N with false.
    + cbn [app strip_prefix]. destruct (SPACE =? x)%N; [|done].
      destruct (N.eqb_spec LPAREN y) as [<-|]; [|done].
      exfalso. apply Hparen. rewrite elem_of_app. right.
      apply list_elem_of_further, list_elem_of_here.
  - cbn [app strip_prefix]. rewrite !N.eqb_refl.
    rewrite (lazy_dots_first _ [] path _ (l, c)); [reflexivity|done| |exact Hclosing].
    intros a b -> Hb. destruct b as [|x b]; [done|].
    cbn [app]. rewrite line_and_char_needs_a_colon; [done|].
    intros ->. apply Hcolon. rewrite elem_of_app. right. apply list_elem_of_here.
Qed.

(** A run on a frame as the engine prints it. *)
Lemma extractLineInfo_named_frame_witness :
  extractLineInfo (lit "    at foo (/a/b.js:10:5)")
  = LineInfo.mk (lit "foo") (lit "/a/b.js") (lit "b.js") (lit "10") (lit "5").
Proof.
  apply (extractLineInfo_named_frame 4 (lit "foo") (lit "/a/b.js")
           (lit "10") (lit "5") []).
  - by repeat constructor.
  - by repeat constructor.
  - not_in_characters.
  - not_in_characters.
  - by repeat constructor.
  - by repeat constructor.
Defined.

(** X18.  A frame without a function name: [at], a path, a line and a column,
    with no bracket.  The name is [anonymous], the line and the column
    are read back, and the path comes with the blank that follows [at]
    in front of it: the text is cut two characters after the start of
    [at], and the looser pattern takes everything up to the colon. *)
Theorem extractLineInfo_anonymous_frame (n : nat)
    (path l c rest : jsstring) :
  Forall (fun x => is_line_terminator x = false) path ->
  (COLON ∉ path) ->
  (LPAREN ∉ path) ->
  (LPAREN ∉ rest) ->
  Forall (fun x => is_digit x = true) l ->
  Forall (fun x => is_digit x = true) c ->
  match rest with [] => True | x :: _ => is_digit x = false end ->
  extractLineInfo
    (replicate n SPACE ++ lit "at " ++ path ++ lit ":" ++ l ++ lit ":" ++ c
     ++ rest)
  = LineInfo.mk anonymous (SPACE :: path) (last_segment (SPACE :: path)) l c.
Proof.
  intros Hpath Hcolon Hparen Hrest Hl Hc Hnext.
  unfold extractLineInfo. rewrite clean_of_frame.
  change (lit ":") with [COLON]. cbn [app].
  set (clean := SPACE :: path ++ COLON :: l ++ COLON :: c ++ rest).
  assert (Hdigit : forall d, Forall (fun x => is_digit x = true) d ->
                             LPAREN ∉ d).
  { intros d Hd Hin. rewrite Forall_forall in Hd.
    by specialize (Hd _ Hin). }
  assert (Hno : LPAREN ∉ clean).
  { unfold clean. rewrite not_elem_of_cons, !not_elem_of_app.
    split; [done|]. split; [done|].
    rewrite not_elem_of_cons, not_elem_of_app. split; [done|].
    split; [by apply Hdigit|].
    rewrite not_elem_of_cons, not_elem_of_app. split; [done|].
    split; [by apply Hdigit|done]. }
  assert (Hstrict : Regex.strict clean = None).
  { unfold Regex.strict, clean. cbn [strip_prefix]. rewrite N.eqb_refl.
    rewrite lazy_dots_None; [done|].
    intros a b Hab.
    assert (Hb : LPAREN ∉ b).
    { intros Hin. apply Hno. unfold clean. rewrite Hab.
      apply list_elem_of_further. rewrite elem_of_app. by right. }
    destruct b as [|x [|y b]]; [done| |].
    - cbn [strip_prefix]. by destruct (SPACE =? x)%N.
    - cbn [strip_prefix]. destruct (SPACE =? x)%N; [|done].
      destruct (N.eqb_spec LPAREN y) as [<-|]; [|done].
      exfalso. apply Hb. apply list_elem_of_further, list_elem_of_here. }
  assert (Hloose : Regex.loose clean = Some (SPACE :: path, l, c)).
  { unfold Regex.loose, clean.
    assert (Hfirst :
      Regex.lazy_dots Regex.line_and_char []
        ((SPACE :: path) ++ COLON :: l ++ COLON :: c ++ rest)
      = Some (rev [] ++ SPACE :: path, (l, c, rest))).
    { apply lazy_dots_first.
      - by constructor.
      - intros a b Hab Hb. destruct b as [|x b]; [done|].
        cbn [app]. apply line_and_char_needs_a_colon. intros ->.
        assert (Hin : COLON ∈ SPACE :: path).
        { rewrite Hab, elem_of_app. right. apply list_elem_of_here. }
        apply elem_of_cons in Hin as [Hin|Hin]; [discriminate Hin|done].
      - by apply line_and_char_at. }
    cbn [app] in Hfirst.
    destruct path; cbn [Regex.search app]; cbn [app] in Hfirst;
      by rewrite Hfirst. }
  by rewrite Hstrict, Hloose.
Qed.

(** A run: the path starts with a blank. *)
Lemma extractLineInfo_anonymous_frame_witness :
  extractLineInfo (lit "    at /a/b.js:10:5")
  = LineInfo.mk (lit "anonymous") (lit " /a/b.js") (lit "b.js")
                (lit "10") (lit "5").
Proof.
  apply (extractLineInfo_anonymous_frame 4 (lit "/a/b.js")
           (lit "10") (lit "5") []).
  - by repeat constructor.
  - not_in_characters.
  - not_in_characters.
  - apply not_elem_of_nil.
  - by repeat constructor.
  - by repeat constructor.
  - exact I.
Defined.

Section BasenameFacts.

Lemma last_segment_from_spec (s cur pre seen full : jsstring) :
  full = pre ++ cur ->
  cur = seen ++ s ->
  (SLASH ∉ seen) ->
  (pre = [] \/ exists d, pre = d ++ [SLASH]) ->
  exists dir,
    full = dir ++ last_segment_from cur s
    /\ (SLASH ∉ last_segment_from cur s)
    /\ (dir = [] \/ exists d, dir = d ++ [SLASH]).
Proof.
  revert cur pre seen. induction s as [|c s IH]; intros cur pre seen Hfull Hcur Hseen Hpre.
  - cbn. rewrite app_nil_r in Hcur. subst cur. by exists pre.
  - cbn [last_segment_from]. destruct (N.eqb_spec c SLASH) as [->|Hc].
    + apply (IH s (pre ++ seen ++ [SLASH]) []).
      * rewrite Hfull, Hcur. by rewrite <- !app_assoc.
      * done.
      * apply not_elem_of_nil.
      * right. exists (pre ++ seen). by rewrite <- app_assoc.
    + apply (IH cur pre (seen ++ [c])); [done| | |done].
      * by rewrite Hcur, <- app_assoc.
      * rewrite not_elem_of_app. split; [done|].
        intros Hin. apply list_elem_of_singleton in Hin. by subst.
Qed.

End BasenameFacts.

(** X19.  Whatever the line, the [file] that [extractLineInfo] returns is the
    base name of the [path] it returns: it holds no slash, the path is
    the file preceded by nothing or by a text that ends with a slash,
    and a path without slash is its own file. *)
Theorem extractLineInfo_file_is_the_base_name (caller_line : jsstring) :
  let info := extractLineInfo caller_line in
  (SLASH ∉ LineInfo.file info)
  /\ (exists dir,
        LineInfo.path info = dir ++ LineInfo.file info
        /\ (dir = [] \/ exists d, dir = d ++ [SLASH]))
  /\ ((SLASH ∉ LineInfo.path info) ->
      LineInfo.file info = LineInfo.path info).
Proof.
  intros info.
  assert (Hfile : LineInfo.file info = last_segment (LineInfo.path info)).
  { unfold info, extractLineInfo.
    destruct (Regex.strict _) as [[[[r1 r2] r3] r4]|]; [done|].
    by destruct (Regex.loose _) as [[[t1 t2] t3]|]. }
  destruct (last_segment_from_spec (LineInfo.path info) (LineInfo.path info)
              [] [] (LineInfo.path info)) as (dir & Hdir & Hfree & Hend);
    [done|done|apply not_elem_of_nil|by left|].
  fold (last_segment (LineInfo.path info)) in Hdir, Hfree.
  rewrite <- Hfile in Hdir, Hfree.
  split; [done|]. split; [by exists dir|].
  intros Hno. destruct Hend as [->|[d ->]]; [done|].
  exfalso. apply Hno. rewrite Hdir, !elem_of_app. left. right.
  apply list_elem_of_here.
Qed.

(** A run: a path without slash is the file. *)
Lemma extractLineInfo_file_is_the_base_name_witness :
  LineInfo.file (extractLineInfo (lit "at b.js:1:2"))
  = LineInfo.path (extractLineInfo (lit "at b.js:1:2")).
Proof.
  apply (extractLineInfo_file_is_the_base_name (lit "at b.js:1:2")).
  vm_compute. not_in_characters.
Defined.
(* ===================================================================== *)
(** ** getCallerInfo and the lines of the stack                           *)
(* ===================================================================== *)

Section SplitFacts.

Lemma split_on_not_empty (sep : char16) (s : jsstring) :
  split_on sep s <> [].
Proof.
  induction s as [|c s IH]; [done|]. cbn.
  destruct (c =? sep)%N; [done|]. by destruct (split_on sep s).
Qed.


Lemma join_with_cons (sep : char16) piece pieces :
  pieces <> [] ->
  join_with sep (piece :: pieces) = piece ++ sep :: join_with sep pieces.
Proof. by destruct pieces. Qed.

Lemma join_split (sep : char16) (s : jsstring) :
  join_with sep (split_on sep s) = s.
Proof.
  induction s as [|c s IH]; [done|]. cbn [split_on].
  destruct (N.eqb_spec c sep) as [->|Hc].
  - rewrite join_with_cons by apply split_on_not_empty. by rewrite IH.
  - destruct (split_on sep s) as [|piece pieces] eqn:E;
      [by destruct (split_on_not_empty sep s)|].
    destruct pieces as [|p pieces].
    + cbn in *. by rewrite IH.
    + rewrite join_with_cons by done. rewrite join_with_cons in IH by done.
      rewrite <- app_comm_cons. by rewrite IH.
Qed.

Lemma split_on_pieces (sep : char16) (s : jsstring) piece :
  piece ∈ split_on sep s -> sep ∉ piece.
Proof.
  revert piece. induction s as [|c s IH]; intros piece.
  - cbn. intros Hin. apply list_elem_of_singleton in Hin as ->.
    apply not_elem_of_nil.
  - cbn [split_on]. destruct (N.eqb_spec c sep) as [->|Hc].
    + intros Hin. apply elem_of_cons in Hin as [->|Hin];
        [apply not_elem_of_nil|by apply IH].
    + destruct (split_on sep s) as [|p pieces] eqn:E.
      * intros Hin. apply list_elem_of_singleton in Hin as ->.
        rewrite not_elem_of_cons. split; [done|apply not_elem_of_nil].
      * intros Hin. apply elem_of_cons in Hin as [->|Hin].
        -- rewrite not_elem_of_cons. split; [done|]. apply IH. by left.
        -- apply IH. by right.
Qed.

End SplitFacts.


(* ===================================================================== *)
(** ** indent                                                             *)
(* ===================================================================== *)

Section IndentFacts.
Variable multiply : jsstring -> nat -> option jsstring.
Variable consoleWidth : nat.

Lemma split_on_one_line (sep : char16) (s : jsstring) :
  (sep ∉ s) -> split_on sep s = [s].
Proof.
  induction s as [|c s IH]; [done|]. intros Hs.
  apply not_elem_of_cons in Hs as [Hc Hs]. cbn [split_on].
  destruct (N.eqb_spec c sep) as [->|_]; [done|]. by rewrite IH.
Qed.

Lemma split_on_several_lines (sep : char16) (s : jsstring) :
  sep ∈ s -> exists l1 l2 ls, split_on sep s = l1 :: l2 :: ls.
Proof.
  induction s as [|c s IH]; intros Hs; [by apply elem_of_nil in Hs|].
  cbn [split_on]. destruct (N.eqb_spec c sep) as [->|Hc].
  - destruct (split_on sep s) as [|l2 ls] eqn:E;
      [by destruct (split_on_not_empty sep s)|].
    by exists [], l2, ls.
  - apply elem_of_cons in Hs as [->|Hs]; [done|].
    destruct (IH Hs) as (l1 & l2 & ls & ->). by exists (c :: l1), l2, ls.
Qed.

Lemma indent_line_sublist (visibleCount : nat) (difference : Z)
    (first : bool) (line l : jsstring) :
  indent_line multiply consoleWidth visibleCount difference first line
  = Some l ->
  line `sublist_of` l.
Proof.
  unfold indent_line.
  assert (Hwrap : forall (line0 : jsstring) (maxWidth : Z),
    line `sublist_of` line0 ->
    (if (consoleWidth <? length (stripEsc line0 false))%nat
     then match multiply [SPACE] visibleCount with
          | Some pad =>
              Some (take (Z.to_nat maxWidth) line0
                    ++ LF :: pad ++ drop (Z.to_nat maxWidth) line0)
          | None => None
          end
     else Some line0) = Some l ->
    line `sublist_of` l).
  { intros line0 maxWidth Hsub Hl.
    destruct (_ <? _)%nat; [|by injection Hl as <-].
    destruct (multiply [SPACE] visibleCount) as [pad|]; [|done].
    injection Hl as <-. etrans; [exact Hsub|].
    rewrite <- (take_drop (Z.to_nat maxWidth) line0) at 1.
    apply sublist_app; [done|]. apply sublist_cons.
    by apply sublist_inserts_l. }
  destruct first.
  - by apply Hwrap.
  - destruct (multiply [SPACE] visibleCount) as [pad|]; [|done].
    apply Hwrap. by apply sublist_inserts_l.
Qed.

Lemma indent_lines_sublist (visibleCount : nat) (difference : Z)
    (skipFirstLine : bool) (i : nat) (lines ls : list jsstring) :
  indent_lines multiply consoleWidth visibleCount difference skipFirstLine
               i lines = Some ls ->
  Forall2 sublist lines ls.
Proof.
  revert i ls. induction lines as [|line lines IH]; intros i ls Hls.
  - injection Hls as <-. constructor.
  - cbn [indent_lines] in Hls.
    destruct (indent_line _ _ _ _ _ _) as [l|] eqn:Hl; [|done].
    destruct (indent_lines _ _ _ _ _ _ _) as [ls'|] eqn:Hls'; [|done].
    injection Hls as <-. constructor.
    + by eapply indent_line_sublist.
    + by eapply IH.
Qed.

Lemma join_with_sublist (sep : char16) (lines ls : list jsstring) :
  Forall2 sublist lines ls ->
  join_with sep lines `sublist_of` join_with sep ls.
Proof.
  induction 1 as [|line l lines ls Hl Hrest IH]; [done|].
  destruct Hrest as [|line2 l2 lines ls Hl2 Hrest]; [done|].
  rewrite !join_with_cons by done.
  apply sublist_app; [done|]. by apply sublist_skip.
Qed.

End IndentFacts.

(** X21.  A text of one line that fits the terminal goes through [indent]
    unchanged, whatever the text to skip and whatever [multiply] is: it
    is not called. *)
Theorem indent_keeps_a_line_that_fits
    (multiply : jsstring -> nat -> option jsstring) (consoleWidth : nat)
    (text skipText : jsstring) :
  (LF ∉ text) ->
  (length (stripEsc text false) <= consoleWidth)%nat ->
  indent multiply consoleWidth text skipText None = Some text.
Proof.
  intros Hone Hfits. unfold indent. rewrite split_on_one_line by done.
  cbn [indent_lines Nat.eqb andb]. unfold indent_line.
  destruct (Nat.ltb_spec consoleWidth (length (stripEsc text false)));
    [lia|done].
Qed.

(** A run on a terminal of 80 columns. *)
Lemma indent_keeps_a_line_that_fits_witness :
  indent MoreExamples.no_multiply 80 (lit "hello") (lit "[info] ") None
  = Some (lit "hello").
Proof.
  apply (indent_keeps_a_line_that_fits MoreExamples.no_multiply 80
           (lit "hello") (lit "[info] ")).
  - not_in_characters.
  - vm_compute. lia.
Defined.

(** X22.  When [indent] returns, it has only added characters: the text is
    what is returned with some characters left out, in the same order,
    so that the result is not shorter and has no fewer line feeds.
    This holds for every [multiply], every width and every text to
    skip. *)
Theorem indent_only_adds
    (multiply : jsstring -> nat -> option jsstring) (consoleWidth : nat)
    (text skipText : jsstring) (skipFirstLine : option bool)
    (result : jsstring) :
  indent multiply consoleWidth text skipText skipFirstLine = Some result ->
  text `sublist_of` result
  /\ (length text <= length result)%nat
  /\ (occurrences LF text <= occurrences LF result)%nat.
Proof.
  unfold indent. intros Hres.
  destruct (indent_lines _ _ _ _ _ _ _) as [ls|] eqn:Hls; [|done].
  injection Hres as <-.
  assert (Hsub : text `sublist_of` join_with LF ls).
  { rewrite <- (join_split LF text) at 1.
    apply join_with_sublist. by eapply indent_lines_sublist. }
  split; [done|]. split; [by apply sublist_length|].
  clear Hls. induction Hsub as [|c l1 l2 Hsub IH|c l1 l2 Hsub IH]; cbn.
  - done.
  - destruct (c =? LF)%N; lia.
  - destruct (c =? LF)%N; lia.
Qed.

(** A run: two lines, a terminal of 3 columns, a [multiply] that
    repeats its text. *)
Lemma indent_only_adds_witness :
  exists result,
    indent MoreExamples.repeat_text 3 (lit "abcd" ++ LF :: lit "e")
           (lit "> ") None = Some result
    /\ (lit "abcd" ++ LF :: lit "e") `sublist_of` result.
Proof.
  eexists. split; [vm_compute; reflexivity|].
  apply (indent_only_adds MoreExamples.repeat_text 3
           (lit "abcd" ++ LF :: lit "e") (lit "> ") None).
  vm_compute. reflexivity.
Defined.

(** X23.  Without a [multiply], that is when every call of it raises,
    [indent] returns exactly for a text of one line that fits the
    terminal, the first line being skipped; for a text of several
    lines, for a line wider than the terminal, and when
    [skipFirstLine] is false, it raises. *)
Theorem indent_without_multiply
    (multiply : jsstring -> nat -> option jsstring) (consoleWidth : nat)
    (text skipText : jsstring) (skipFirstLine : option bool) :
  (forall s n, multiply s n = None) ->
  (exists result,
     indent multiply consoleWidth text skipText skipFirstLine = Some result)
  <-> (LF ∉ text)
      /\ skipFirstLine <> Some false
      /\ (length (stripEsc text false) <= consoleWidth)%nat.
Proof.
  intros Hraise.
  assert (Hline : forall v d first line l,
    indent_line multiply consoleWidth v d first line = Some l
    <-> first = true
        /\ (length (stripEsc line false) <= consoleWidth)%nat /\ l = line).
  { intros v d first line l. unfold indent_line. rewrite Hraise.
    destruct first; [|by split; [|intros (? & _)]].
    destruct (Nat.ltb_spec consoleWidth (length (stripEsc line false))).
    - split; [done|]. intros (_ & ? & _). lia.
    - split; [by intros [= <-]|]. by intros (_ & _ & ->). }
  unfold indent. split.
  - intros [result Hres].
    destruct (decide (LF ∈ text)) as [Hin|Hout].
    + destruct (split_on_several_lines LF text Hin) as (l1 & l2 & ls & E).
      rewrite E in Hres. cbn [indent_lines] in Hres.
      destruct (indent_line _ _ _ _ _ l1); [|done].
      destruct (indent_line _ _ _ _ _ l2) as [l|] eqn:El; [|done].
      apply Hline in El as (Hfirst & _). done.
    + rewrite split_on_one_line in Hres by done.
      cbn [indent_lines] in Hres.
      destruct (indent_line _ _ _ _ _ text) as [l|] eqn:El; [|done].
      apply Hline in El as (Hfirst & Hfits & _).
      split; [done|]. split; [|done].
      intros ->. done.
  - intros (Hone & Hskip & Hfits). exists text.
    rewrite split_on_one_line by done. cbn [indent_lines].
    assert (El : indent_line multiply consoleWidth
                   (length (stripEsc skipText false))
                   (Z.of_nat (length skipText)
                    - Z.of_nat (length (stripEsc skipText false)))
                   ((0 =? 0)%nat
                    && match skipFirstLine with Some b => b | None => true end)
                   text = Some text).
    { apply Hline. split; [|done]. by destruct skipFirstLine as [[]|]. }
    by rewrite El.
Qed.

(** A run: a text of two lines. *)
Lemma indent_without_multiply_witness :
  indent MoreExamples.no_multiply 80 (lit "a" ++ LF :: lit "b") [] None
  = None.
Proof.
  destruct (indent MoreExamples.no_multiply 80 (lit "a" ++ LF :: lit "b")
              [] None) as [result|] eqn:E; [|reflexivity].
  assert (Hret : exists result,
             indent MoreExamples.no_multiply 80 (lit "a" ++ LF :: lit "b")
                    [] None = Some result) by (by exists result).
  apply (indent_without_multiply MoreExamples.no_multiply 80) in Hret
    as [Hone _]; [|reflexivity].
  exfalso. apply Hone. apply list_elem_of_further, list_elem_of_here.
Defined.
(* ===================================================================== *)
(** ** The history of the command line                                    *)
(* ===================================================================== *)

Section HistoryFacts.
Variable trim : jsstring -> jsstring.

Lemma arrow_history (up : bool) (c : Cli.t) :
  Cli.history (onKeypress_arrow up c) = Cli.history c.
Proof.
  unfold onKeypress_arrow.
  destruct (_ =? -1); [done|].
  by destruct (if _ <? 0 then None else _).
Qed.

Lemma arrow_index (up : bool) (c : Cli.t) :
  -1 <= Cli.history_index c < Z.of_nat (length (Cli.history c)) ->
  -1 <= Cli.history_index (onKeypress_arrow up c)
     < Z.of_nat (length (Cli.history c)).
Proof.
  intros Hc. unfold onKeypress_arrow.
  set (id := Cli.history_index c + (if up then 1 else -1)).
  destruct (Z.eqb_spec id (-1)); [cbn; lia|].
  destruct (Z.ltb_spec id 0); [done|].
  destruct (Cli.history c !! Z.to_nat id) eqn:E; [|done].
  cbn. apply lookup_lt_Some in E. lia.
Qed.

End HistoryFacts.

(** X24.  Whatever is typed and whichever of the arrows and [enter] is
    pressed, the history index stays between [-1] and the last index of
    the history, so that a non-negative index always points to an entry;
    the history holds no empty command, and no command twice in a row. *)
Theorem cli_history_invariant (trim : jsstring -> jsstring) (c : Cli.t) :
  cli_reachable trim c ->
  -1 <= Cli.history_index c < Z.of_nat (length (Cli.history c))
  /\ Forall (fun cmd => cmd <> []) (Cli.history c)
  /\ (forall (i : nat) cmd,
        Cli.history c !! i = Some cmd -> Cli.history c !! S i <> Some cmd).
Proof.
  induction 1 as [|c v Hc IH|c up Hc IH|c Hc IH].
  - cbn. split; [lia|]. split; [constructor|]. by intros i cmd.
  - done.
  - rewrite arrow_history. destruct IH as (Hidx & Hne & Hadj).
    split; [by apply arrow_index|split; [exact Hne|exact Hadj]].
  - destruct IH as (Hidx & Hne & Hadj). unfold onKeypress_enter.
    destruct (trim (Cli.value c)) as [|x cmd] eqn:Hcmd; cbn.
    + split; [lia|split; [exact Hne|exact Hadj]].
    + case_bool_decide as Hhead; cbn.
      * split; [lia|split; [exact Hne|exact Hadj]].
      * split; [lia|]. split; [by constructor|].
        intros [|i] cmd'; cbn.
        -- intros [= <-] Hnext. apply Hhead.
           by destruct (Cli.history c).
        -- apply Hadj.
Qed.

(** A run: two commands entered, a third one typed. *)
Lemma cli_history_invariant_witness :
  -1 <= Cli.history_index MoreExamples.typing
     < Z.of_nat (length (Cli.history MoreExamples.typing)).
Proof.
  apply (cli_history_invariant MoreExamples.no_trim MoreExamples.typing).
  unfold MoreExamples.typing. repeat constructor.
Defined.

(** X25.  The up arrow reaches every entry of the history, the newest first:
    from a command line that is at no entry, [k + 1] presses bring entry
    [k] into the text area and set the index to [k]; what had been
    typed, if anything, is in the stash. *)
Theorem arrows_walk_the_history (c : Cli.t) (k : nat) (cmd : jsstring) :
  Cli.history_index c = -1 ->
  Cli.history c !! k = Some cmd ->
  Nat.iter (S k) (onKeypress_arrow true) c
  = Cli.mk (Cli.history c) (Z.of_nat k)
           (if truthy (Cli.value c) then Cli.value c else Cli.stash c)
           cmd.
Proof.
  destruct c as [history index stash value]. cbn [Cli.history_index
    Cli.history Cli.value Cli.stash]. intros ->. unfold jsstring in *.
  revert cmd. induction k as [|k IH]; intros cmd Hk.
  - cbn [Nat.iter nat_rect]. unfold onKeypress_arrow.
    cbn [Cli.history_index Cli.history Cli.value Cli.stash].
    change (-1 + 1) with 0. change (Z.to_nat 0) with 0%nat.
    cbn [Z.eqb Z.ltb Z.compare andb]. unfold jsstring in *. by rewrite Hk.
  - assert (Hprev : is_Some (history !! k)).
    { apply lookup_lt_is_Some. apply lookup_lt_Some in Hk. lia. }
    destruct Hprev as [prev Hprev].
    change (Nat.iter (S (S k)) (onKeypress_arrow true) ?c)
      with (onKeypress_arrow true (Nat.iter (S k) (onKeypress_arrow true) c)).
    rewrite (IH prev Hprev). unfold onKeypress_arrow.
    cbn [Cli.history_index Cli.history Cli.value Cli.stash].
    destruct (Z.eqb_spec (Z.of_nat k) (-1)); [lia|]. cbn [andb].
    destruct (Z.eqb_spec (Z.of_nat k + 1) (-1)); [lia|].
    destruct (Z.ltb_spec (Z.of_nat k + 1) 0); [lia|].
    replace (Z.to_nat (Z.of_nat k + 1)) with (S k) by lia.
    unfold jsstring in *. rewrite Hk. f_equal. lia.
Qed.

(** A run: two presses bring back the first command. *)
Lemma arrows_walk_the_history_witness :
  Cli.value (Nat.iter 2 (onKeypress_arrow true) MoreExamples.typing)
  = lit "first".
Proof.
  by rewrite (arrows_walk_the_history MoreExamples.typing 1 (lit "first")
                eq_refl eq_refl).
Defined.

Section ArrowSteps.

Lemma arrow_up_step (history : list jsstring) (index : Z)
    (stash value next : jsstring) :
  -1 <= index ->
  history !! Z.to_nat (index + 1) = Some next ->
  onKeypress_arrow true (Cli.mk history index stash value)
  = Cli.mk history (index + 1)
           (if (index =? -1) && truthy value then value else stash) next.
Proof.
  intros Hlow Hnext. unfold onKeypress_arrow.
  cbn [Cli.history_index Cli.history Cli.value Cli.stash].
  destruct (Z.eqb_spec (index + 1) (-1)); [lia|].
  destruct (Z.ltb_spec (index + 1) 0); [lia|].
  unfold jsstring in *. by rewrite Hnext.
Qed.

Lemma arrow_down_step (history : list jsstring) (index : Z)
    (stash value : jsstring) :
  0 <= index < Z.of_nat (length history) ->
  onKeypress_arrow false (Cli.mk history index stash value)
  = if index =? 0 then Cli.mk history (-1) stash stash
    else Cli.mk history (index - 1) stash
           (default [] (history !! Z.to_nat (index - 1))).
Proof.
  intros Hidx. unfold onKeypress_arrow.
  cbn [Cli.history_index Cli.history Cli.value Cli.stash].
  destruct (Z.eqb_spec index (-1)); [lia|]. cbn [andb].
  replace (index + -1) with (index - 1) by lia.
  destruct (Z.eqb_spec (index - 1) (-1)) as [E|E];
    destruct (Z.eqb_spec index 0); try lia; [done|].
  destruct (Z.ltb_spec (index - 1) 0); [lia|].
  assert (Hprev : is_Some (history !! Z.to_nat (index - 1)))
    by (apply lookup_lt_is_Some; lia).
  destruct Hprev as [prev Hprev]. unfold jsstring in *. by rewrite Hprev.
Qed.

End ArrowSteps.

(** X26.  The down arrow undoes the up arrow as far as the index goes, not
    always as far as the text goes.  When there is an older entry to go
    to, up followed by down leaves the history and the index as they
    were.  From no entry (index [-1]) the text area gets back what had
    been typed if that was not empty, and otherwise whatever the stash
    held; from an entry it gets the entry itself, so that changes made
    to the text of an entry are lost. *)
Theorem arrow_down_undoes_up (c : Cli.t) :
  -1 <= Cli.history_index c ->
  Cli.history_index c + 1 < Z.of_nat (length (Cli.history c)) ->
  let c' := onKeypress_arrow false (onKeypress_arrow true c) in
  Cli.history c' = Cli.history c
  /\ Cli.history_index c' = Cli.history_index c
  /\ (Cli.history_index c = -1 ->
      Cli.value c'
      = (if truthy (Cli.value c) then Cli.value c else Cli.stash c)
      /\ Cli.stash c' = Cli.value c')
  /\ (0 <= Cli.history_index c ->
      Cli.history c !! Z.to_nat (Cli.history_index c) = Some (Cli.value c')
      /\ Cli.stash c' = Cli.stash c).
Proof.
  intros Hlow Hhigh c'. unfold c'. clear c'.
  destruct c as [history index stash value].
  cbn [Cli.history_index Cli.history Cli.value Cli.stash] in *.
  assert (Hnext : is_Some (history !! Z.to_nat (index + 1)))
    by (apply lookup_lt_is_Some; lia).
  destruct Hnext as [next Hnext].
  rewrite (arrow_up_step history index stash value next Hlow Hnext).
  rewrite arrow_down_step by lia.
  replace (index + 1 - 1) with index by lia.
  destruct (Z.eqb_spec (index + 1) 0) as [E|E].
  - assert (index = -1) as -> by lia. cbn.
    split; [done|]. split; [done|]. split; [done|]. lia.
  - destruct (Z.eqb_spec index (-1)); [lia|]. cbn.
    assert (Hcur : is_Some (history !! Z.to_nat index))
      by (apply lookup_lt_is_Some; lia).
    destruct Hcur as [cur Hcur]. unfold jsstring in *. rewrite Hcur. cbn.
    split; [done|]. split; [done|]. split; [lia|]. done.
Qed.

(** A run: up and down give back the third command. *)
Lemma arrow_down_undoes_up_witness :
  Cli.value (onKeypress_arrow false
               (onKeypress_arrow true MoreExamples.typing))
  = lit "third".
Proof.
  destruct (arrow_down_undoes_up MoreExamples.typing)
    as (_ & _ & Hfresh & _).
  - vm_compute. discriminate.
  - vm_compute. reflexivity.
  - destruct (Hfresh eq_refl) as [Hvalue _]. rewrite Hvalue.
    vm_compute. reflexivity.
Defined.

(** X27.  At the ends the arrows change nothing in the text area: up at the
    oldest entry leaves the command line as it is, and down at no entry
    only puts a non-empty text into the stash. *)
Theorem arrows_stop_at_the_ends (c : Cli.t) :
  (0 <= Cli.history_index c ->
   Cli.history_index c = Z.of_nat (length (Cli.history c)) - 1 ->
   onKeypress_arrow true c = c)
  /\ (Cli.history_index c = -1 ->
      onKeypress_arrow false c
      = Cli.mk (Cli.history c) (-1)
               (if truthy (Cli.value c) then Cli.value c else Cli.stash c)
               (Cli.value c)).
Proof.
  destruct c as [history index stash value]. cbn. split.
  - intros Hlow Hlast. unfold onKeypress_arrow. cbn.
    destruct (Z.eqb_spec index (-1)); [lia|]. cbn.
    destruct (Z.eqb_spec (index + 1) (-1)); [lia|].
    destruct (Z.ltb_spec (index + 1) 0); [lia|].
    by rewrite lookup_ge_None_2 by lia.
  - intros ->. unfold onKeypress_arrow. by cbn.
Qed.

(** A run: down on the third command as typed. *)
Lemma arrows_stop_at_the_ends_witness :
  Cli.value (onKeypress_arrow false MoreExamples.typing) = lit "third"
  /\ Cli.stash (onKeypress_arrow false MoreExamples.typing) = lit "third".
Proof.
  rewrite (proj2 (arrows_stop_at_the_ends MoreExamples.typing) eq_refl).
  split; vm_compute; reflexivity.
Defined.
(* ===================================================================== *)
(** ** Completion                                                         *)
(* ===================================================================== *)

Section CompletionFacts.

Lemma join_with_snoc (sep : char16) (init : list jsstring) (l : jsstring) :
  init <> [] ->
  join_with sep (init ++ [l]) = join_with sep init ++ sep :: l.
Proof.
  induction init as [|p init IH]; [done|]. intros _.
  destruct init as [|q init]; [done|].
  change ((p :: q :: init) ++ [l]) with (p :: ((q :: init) ++ [l])).
  rewrite join_with_cons by (intros E; discriminate E). rewrite IH by done.
  rewrite (join_with_cons sep p (q :: init)) by done.
  by rewrite <- app_assoc.
Qed.

Lemma removelast_last (pieces : list jsstring) (l : jsstring) :
  last pieces = Some l -> pieces = removelast pieces ++ [l].
Proof.
  intros Hl. apply last_Some in Hl as [init ->].
  by rewrite removelast_last.
Qed.

Lemma startsWith_prefix (item last : jsstring) :
  startsWith item last = true -> exists rest, item = last ++ rest.
Proof.
  unfold startsWith. destruct (strip_prefix last item) as [rest|] eqn:E;
    [|done].
  intros _. exists rest. by apply strip_prefix_Some.
Qed.

End CompletionFacts.

(** X28.  Choosing a completion never loses what was typed.  The prefix kept
    by [autocomplete] followed by the last piece is the command as
    typed, the last piece holding no dot; every item offered starts
    with the last piece; and the value that [selectAutocomplete] gives
    to the text area for an item offered starts with the command as
    typed. *)
Theorem autocomplete_extends_what_was_typed (cmd : jsstring)
    (resolve : list jsstring -> option (list jsstring * list jsstring))
    (item : jsstring) :
  let completion := autocomplete cmd resolve in
  (default [] (Completion.prefix completion)
   ++ Completion.last_piece completion = cmd)
  /\ (DOT ∉ Completion.last_piece completion)
  /\ (item ∈ Completion.items completion ->
      (exists rest, item = Completion.last_piece completion ++ rest)
      /\ exists rest, selectAutocomplete completion item = cmd ++ rest).
Proof.
  intros completion.
  assert (Hjoin := join_split DOT cmd).
  assert (Hpieces := split_on_pieces DOT cmd).
  assert (Hsome := split_on_not_empty DOT cmd).
  unfold completion, autocomplete. clear completion.
  destruct (split_on DOT cmd) as [|p pieces] eqn:Hsplit; [done|].
  assert (Hitem : forall last prefix target,
    prefix ++ last = cmd ->
    let wanted item := negb (truthy last) || startsWith item last in
    let items :=
      match target with
      | Some (keys, hidden) => List.filter wanted keys ++ List.filter wanted hidden
      | None => []
      end in
    item ∈ items ->
    (exists rest, item = last ++ rest)
    /\ exists rest, prefix ++ item = cmd ++ rest).
  { intros last prefix target Hcmd wanted items Hin.
    assert (Hw : wanted item = true).
    { unfold items in Hin. destruct target as [[keys hidden]|];
        [|by apply elem_of_nil in Hin].
      apply elem_of_app in Hin as [Hin|Hin];
        apply list_elem_of_In, List.filter_In in Hin; apply Hin. }
    assert (Hrest : exists rest, item = last ++ rest).
    { unfold wanted in Hw. apply orb_true_iff in Hw as [Hw|Hw].
      - destruct last; [by exists item|done].
      - by apply startsWith_prefix. }
    split; [done|]. destruct Hrest as [rest ->]. exists rest.
    by rewrite app_assoc, Hcmd. }
  destruct pieces as [|q pieces].
  - cbn in Hjoin. subst p. cbn.
    split; [done|]. split; [apply Hpieces; by left|].
    intros Hin. apply (Hitem cmd [] (resolve [])) in Hin; [|done].
    by cbn in Hin.
  - assert (Hlast : is_Some (last (p :: q :: pieces))).
    { apply last_is_Some. done. }
    destruct Hlast as [l Hl]. rewrite Hl.
    assert (Hinit := removelast_last _ _ Hl).
    set (init := removelast (p :: q :: pieces)) in *.
    assert (Hne : init <> []) by done.
    assert (Hcmd : (join_with DOT init ++ [DOT]) ++ l = cmd).
    { rewrite <- Hjoin, Hinit, join_with_snoc by done.
      by rewrite <- app_assoc. }
    cbn [Completion.prefix Completion.last_piece Completion.items default].
    split; [done|]. split.
    { apply Hpieces. rewrite Hinit, elem_of_app. right. by left. }
    intros Hin. apply (Hitem l _ (resolve init) Hcmd) in Hin.
    destruct Hin as [Hrest Hvalue]. split; [done|].
    unfold selectAutocomplete. cbn [Completion.prefix].
    by destruct (join_with DOT init ++ [DOT]) eqn:E;
      [destruct (join_with DOT init)|].
Qed.

(** A run: [console.lo] is completed to [console.log]. *)
Lemma autocomplete_extends_what_was_typed_witness :
  exists rest,
    selectAutocomplete
      (autocomplete (lit "console.lo") MoreExamples.globals) (lit "log")
    = lit "console.lo" ++ rest.
Proof.
  apply (autocomplete_extends_what_was_typed
           (lit "console.lo") MoreExamples.globals (lit "log")).
  vm_compute. apply list_elem_of_here.
Defined.

(* ===================================================================== *)
(** ** The mouse wheel and the newest line                                *)
(* ===================================================================== *)

(** X29.  Turning the wheel suspends the following of the newest line until
    the box is back at its end.  A wheel event scrolls the box by five
    rows and asks for one [render]; [scrolledManually] is then set
    exactly when the box is not at 100 percent.  With [scrollDown] set,
    the next line pushed is written to its row and the box is scrolled
    on by one row only if the wheel had left it at 100 percent.  Any
    other mouse event changes nothing. *)
Theorem wheel_suspends_following {B : Type} `{Box B}
    (up : bool) (s : State B) (scrolledUp : bool) (line : ref) :
  let action := if up then wheelup else wheeldown in
  let moved := box_scroll (if up then -5 else 5) (this_box s) in
  let s' := fst (onMouse action (s, scrolledUp)) in
  let row :=
    box_setLine (Z.of_nat (length (this_list s)))
                (sanitize (LogLine.text (objects s line))) moved in
  this_box s' = moved
  /\ snd (onMouse action (s, scrolledUp)) = up
  /\ render_calls s' = S (render_calls s)
  /\ scrolledManually s' = negb (box_getScrollPerc moved =? 100)
  /\ (scrollDown s = true ->
      box_getScrollPerc moved <> 100 ->
      this_box (pushLine line false s') = row)
  /\ (scrollDown s = true ->
      box_getScrollPerc moved = 100 ->
      this_box (pushLine line false s')
      = this_box (scroll (Some 1) (set_box row s)))
  /\ onMouse other_action (s, scrolledUp) = (s, scrolledUp).
Proof.
  intros action moved s' row.
  assert (Hs' : s' = render (set_scrolledManually
                               (negb (box_getScrollPerc moved =? 100))
                               (set_box moved s))
                /\ snd (onMouse action (s, scrolledUp)) = up).
  { unfold s', action, moved, onMouse. destruct up; cbn;
      by destruct (_ =? 100). }
  destruct Hs' as [-> Hup].
  split; [done|]. split; [done|]. split; [done|]. split; [done|].
  assert (Hrow : forall sm,
    this_box (_setLine (Z.of_nat (length (this_list s))) line
       (set_objects
          (<[line := LogLine.set_index (Z.of_nat (length (this_list s)))
                                       (objects s line)]> (objects s))
          (set_list (this_list s ++ [Some line])
             (render (set_scrolledManually sm (set_box moved s))))))
    = row).
  { intros sm. unfold _setLine, toString. cbn. by rewrite fn_lookup_insert. }
  split; [|split; [|done]].
  - intros Hdown Hperc. unfold pushLine, JsArray.push. cbn.
    replace (Z.of_nat (length (this_list s)) + 1 - 1)
      with (Z.of_nat (length (this_list s))) by lia.
    rewrite fn_lookup_insert. cbn. rewrite Hdown.
    unfold scrollAlong. cbn. rewrite Hdown.
    destruct (Z.eqb_spec (box_getScrollPerc moved) 100); [done|]. cbn.
    exact (Hrow true).
  - intros Hdown Hperc. unfold pushLine, JsArray.push. cbn.
    replace (Z.of_nat (length (this_list s)) + 1 - 1)
      with (Z.of_nat (length (this_list s))) by lia.
    rewrite fn_lookup_insert. cbn. rewrite Hdown.
    unfold scrollAlong. cbn. rewrite Hdown, Hperc. cbn.
    unfold scroll. cbn. unfold toString. cbn. rewrite fn_lookup_insert.
    fold row. cbn. by destruct (_ && _).
Qed.

(** A run: five rows in a viewport of two, at the end; the wheel is
    turned up, then [A] is pushed and the box is not scrolled on. *)
Lemma wheel_suspends_following_witness :
  this_box (pushLine 0%nat false
              (fst (onMouse wheelup (Examples.at_bottom, false))))
  = box_setLine 0 (lit "A") (box_scroll (-5) (this_box Examples.at_bottom)).
Proof.
  apply (wheel_suspends_following true Examples.at_bottom false 0%nat).
  - reflexivity.
  - vm_compute. discriminate.
Defined.
